(** * Cover-letter tool: template, wrapping and export pipeline of [src/App.jsx]

    A shallow embedding of the pure helpers of [App.jsx] and of the
    line-placing loop of [downloadPdf], together with the properties the
    specification states about them.

    JavaScript strings are sequences of UTF-16 code units; they are modelled
    as lists of code units ([N]).  Regular-expression calls
    ([String.prototype.replace] with a global pattern, [split], [test]) are
    modelled by one matcher per pattern, run by a generic leftmost,
    non-overlapping scanner. *)

From Stdlib Require Import ZArith NArith List Bool Lia Ascii String DecimalString.
From stdpp Require Import gmap list.

Import ListNotations.

(** ** Strings and character classes *)

Abbreviation jstr := (list N).

(** Literals: an ASCII Rocq string read as a JavaScript string. *)
Definition js (s : string) : jstr :=
  map N_of_ascii (list_ascii_of_string s).

Definition LF : N := 10.
Definition CR : N := 13.
Definition TAB : N := 9.
Definition SP : N := 32.

Definition in_range (lo hi c : N) : bool := N.leb lo c && N.leb c hi.

(** [[ \t]] *)
Definition is_hws (c : N) : bool := N.eqb c SP || N.eqb c TAB.

(** [\s] (and the characters removed by [trim]): ECMAScript WhiteSpace and
    LineTerminator code points. *)
Definition is_space (c : N) : bool :=
  in_range 9 13 c || N.eqb c 32 || N.eqb c 160 || N.eqb c 5760
  || in_range 8192 8202 c || N.eqb c 8232 || N.eqb c 8233
  || N.eqb c 8239 || N.eqb c 8287 || N.eqb c 12288 || N.eqb c 65279.

(** [\d] *)
Definition is_digit (c : N) : bool := in_range 48 57 c.

(** [[a-zA-Z0-9_]] *)
Definition is_ident (c : N) : bool :=
  in_range 97 122 c || in_range 65 90 c || is_digit c || N.eqb c 95.

(** [[a-zA-Z0-9_-]] *)
Definition is_slug_char (c : N) : bool := is_ident c || N.eqb c 45.

(** [[\s/\\]] *)
Definition is_sep (c : N) : bool := is_space c || N.eqb c 47 || N.eqb c 92.

Definition is_empty (s : jstr) : bool :=
  match s with [] => true | _ => false end.

Fixpoint starts_with (p s : jstr) : bool :=
  match p, s with
  | [], _ => true
  | a :: p', b :: s' => N.eqb a b && starts_with p' s'
  | _ :: _, [] => false
  end.

(** [s.includes(p)] *)
Fixpoint contains (p s : jstr) : bool :=
  starts_with p s
  || match s with [] => false | _ :: r => contains p r end.

(** ** Global regular-expression replacement

    [s.replace(/re/g, f)]: the pattern is tried at each position from the
    left; at the first position where it matches, the match is replaced and
    scanning resumes after the match; a position without a match keeps its
    character.  A matcher [m] returns what the replacement callback needs
    (the captures) and the input left after the match.  None of the patterns
    of [App.jsx] matches the empty string, so a match always consumes input
    and [length s] steps of fuel suffice. *)

Section Replace.
Context {A : Type}.
Variable m : jstr -> option (A * jstr).
Variable f : A -> jstr.

Fixpoint replace_from (fuel : nat) (s : jstr) : jstr :=
  match fuel with
  | O => s
  | S fuel' =>
      match m s with
      | Some (a, rest) => f a ++ replace_from fuel' rest
      | None =>
          match s with
          | [] => []
          | c :: r => c :: replace_from fuel' r
          end
      end
  end.

Definition replace_all (s : jstr) : jstr := replace_from (S (length s)) s.

(** Does the pattern match somewhere in [s]? *)
Fixpoint matches_in (s : jstr) : bool :=
  match m s with
  | Some _ => true
  | None => match s with [] => false | _ :: r => matches_in r end
  end.
End Replace.

(** ** [compressBlankLines] (lines 35-39) *)

(** [/\r\n/] *)
Definition match_crlf (s : jstr) : option (unit * jstr) :=
  match s with
  | c1 :: c2 :: r => if N.eqb c1 CR && N.eqb c2 LF then Some (tt, r) else None
  | _ => None
  end.

(** [[ \t]*\n]: the greedy star can only stop at the first character that is
    not a blank or a tab, which has to be the newline. *)
Fixpoint blank_line (s : jstr) : option jstr :=
  match s with
  | [] => None
  | c :: r =>
      if N.eqb c LF then Some r
      else if is_hws c then blank_line r
      else None
  end.

(** Greedy [([ \t]*\n)*]: [commit] is the input after the last complete
    iteration, [s] the lookahead inside the iteration being tried. *)
Fixpoint blank_lines (commit s : jstr) : jstr :=
  match s with
  | [] => commit
  | c :: r =>
      if N.eqb c LF then blank_lines r r
      else if is_hws c then blank_lines commit r
      else commit
  end.

(** [/\n[ \t]*\n([ \t]*\n)+/] *)
Definition match_blank_run (s : jstr) : option (unit * jstr) :=
  match s with
  | c :: r =>
      if N.eqb c LF then
        match blank_line r with
        | Some r1 =>
            match blank_line r1 with
            | Some r2 => Some (tt, blank_lines r2 r2)
            | None => None
            end
        | None => None
        end
      else None
  | [] => None
  end.

(** [s.replace(/\r\n/g, "\n")] *)
Definition normalize_crlf (s : jstr) : jstr :=
  replace_all match_crlf (fun _ => [LF]) s.

(** [normalized.replace(/\n[ \t]*\n([ \t]*\n)+/g, "\n\n")] *)
Definition collapse_blank_runs (s : jstr) : jstr :=
  replace_all match_blank_run (fun _ => [LF; LF]) s.

Definition compressBlankLines (s : jstr) : jstr :=
  if is_empty s then []
  else
    let normalized := normalize_crlf s in
    collapse_blank_runs normalized.

(** ** [slugifyFilePart] (lines 41-48) *)

Fixpoint take_while (p : N -> bool) (s : jstr) : jstr :=
  match s with
  | c :: r => if p c then c :: take_while p r else []
  | [] => []
  end.

Fixpoint drop_while (p : N -> bool) (s : jstr) : jstr :=
  match s with
  | c :: r => if p c then drop_while p r else s
  | [] => []
  end.

(** [s.trim()] *)
Definition trim (s : jstr) : jstr :=
  rev (drop_while is_space (rev (drop_while is_space s))).

(** [/[class]+/]: one or more characters of the class, as many as there are. *)
Definition match_run (p : N -> bool) (s : jstr) : option (unit * jstr) :=
  match s with
  | c :: r => if p c then Some (tt, drop_while p r) else None
  | [] => None
  end.

Definition UNDERSCORE : N := 95.
Definition is_underscore (c : N) : bool := N.eqb c UNDERSCORE.
Definition not_slug_char (c : N) : bool := negb (is_slug_char c).

(** [s.slice(0, n)] for [0 <= n] *)
Definition slice0 (n : nat) (s : jstr) : jstr := firstn n s.

Definition slugifyFilePart (s : jstr) : jstr :=
  let s1 := trim s in
  let s2 := replace_all (match_run is_sep) (fun _ => [UNDERSCORE]) s1 in
  let s3 := replace_all (match_run not_slug_char) (fun _ => []) s2 in
  let s4 := replace_all (match_run is_underscore) (fun _ => [UNDERSCORE]) s3 in
  slice0 40 s4.

(** [slugifyFilePart(x) || fallback] *)
Definition file_part (x fallback : jstr) : jstr :=
  let p := slugifyFilePart x in
  if is_empty p then fallback else p.

(** [`CoverLetter_${company}_${position}.ext`] (lines 373-375, 388-389, 421) *)
Definition export_filename (employerCompanyName position ext : jstr) : jstr :=
  let company := file_part employerCompanyName (js "Company") in
  let position := file_part position (js "Position") in
  js "CoverLetter_" ++ company ++ js "_" ++ position ++ js "." ++ ext.

(** The slug as the specification words it, step by step and without
    regular expressions, to be compared with [slugifyFilePart]. *)

(** Every maximal run of characters of class [p] becomes one [u]. *)
Fixpoint squeeze (p : N -> bool) (u : N) (s : jstr) : jstr :=
  match s with
  | [] => []
  | c :: r =>
      if p c then
        match r with
        | c' :: _ => if p c' then squeeze p u r else u :: squeeze p u r
        | [] => [u]
        end
      else c :: squeeze p u r
  end.

Definition slug_spec (s : jstr) : jstr :=
  let trimmed := trim s in
  let underscored := squeeze is_sep UNDERSCORE trimmed in
  let stripped := List.filter is_slug_char underscored in
  let collapsed := squeeze is_underscore UNDERSCORE stripped in
  firstn 40 collapsed.

(** ** [applyTemplate] (lines 50-55) *)

(** The values a property read of the values object can produce: the
    object's own entries (strings, or null/undefined), and what every plain
    object inherits from [Object.prototype]. *)
Inductive jsval : Type :=
  | VUndefined
  | VNull
  | VString (s : jstr)
  | VNative (name : jstr)   (* a built-in function object *)
  | VObjectPrototype.       (* [Object.prototype], read through [__proto__] *)

(** Members every object literal inherits from [Object.prototype]. *)
Definition object_prototype_methods : list jstr :=
  [ js "__defineGetter__"; js "__defineSetter__"; js "hasOwnProperty";
    js "__lookupGetter__"; js "__lookupSetter__"; js "isPrototypeOf";
    js "propertyIsEnumerable"; js "toString"; js "valueOf";
    js "toLocaleString" ].

Definition object_prototype (key : jstr) : jsval :=
  if bool_decide (key = js "constructor") then VNative (js "Object")
  else if bool_decide (key = js "__proto__") then VObjectPrototype
  else if bool_decide (key ∈ object_prototype_methods) then VNative key
  else VUndefined.

(** [values[key]] on an object created by an object literal: own properties
    first, then the prototype chain. *)
Definition get_property (values : gmap jstr jsval) (key : jstr) : jsval :=
  match values !! key with
  | Some v => v
  | None => object_prototype key
  end.

(** [(v ?? "").toString()].  The text of a built-in function is the
    NativeFunction form; its exact spacing depends on the engine. *)
Definition to_text (v : jsval) : jstr :=
  match v with
  | VUndefined | VNull => []
  | VString s => s
  | VNative name => js "function " ++ name ++ js "() { [native code] }"
  | VObjectPrototype => js "[object Object]"
  end.

Definition LBRACE : N := 123.
Definition RBRACE : N := 125.

(** [/\{\{\s*([a-zA-Z0-9_]+)\s*\}\}/]; the capture is the identifier.  The
    three classes (whitespace, identifier characters, braces) are disjoint,
    so each greedy repetition has a single possible extent. *)
Definition match_placeholder (s : jstr) : option (jstr * jstr) :=
  match s with
  | b1 :: b2 :: r =>
      if N.eqb b1 LBRACE && N.eqb b2 LBRACE then
        let r1 := drop_while is_space r in
        let key := take_while is_ident r1 in
        if is_empty key then None
        else
          match drop_while is_space (drop_while is_ident r1) with
          | e1 :: e2 :: rest =>
              if N.eqb e1 RBRACE && N.eqb e2 RBRACE then Some (key, rest)
              else None
          | _ => None
          end
      else None
  | _ => None
  end.

Definition applyTemplate (template : jstr) (values : gmap jstr jsval) : jstr :=
  replace_all match_placeholder
    (fun key => let v := get_property values key in to_text v)
    template.

(** The placeholders of a template, in order, and the text around them. *)
Section Captures.
Context {A : Type}.
Variable m : jstr -> option (A * jstr).

Fixpoint captures_from (fuel : nat) (s : jstr) : list A :=
  match fuel with
  | O => []
  | S fuel' =>
      match m s with
      | Some (a, rest) => a :: captures_from fuel' rest
      | None =>
          match s with
          | [] => []
          | _ :: r => captures_from fuel' r
          end
      end
  end.

Definition captures (s : jstr) : list A := captures_from (S (length s)) s.
End Captures.

Definition template_keys (template : jstr) : list jstr :=
  captures match_placeholder template.

Definition template_literal (template : jstr) : jstr :=
  replace_all match_placeholder (fun _ => []) template.

(** ** [formatToCanadianLong] (lines 15-32) *)

Definition HYPHEN : N := 45.

(** [/^\d{4}-\d{2}-\d{2}$/.test(value)] *)
Definition is_iso_date (s : jstr) : bool :=
  match s with
  | [y1; y2; y3; y4; h1; m1; m2; h2; d1; d2] =>
      is_digit y1 && is_digit y2 && is_digit y3 && is_digit y4
      && N.eqb h1 HYPHEN && is_digit m1 && is_digit m2
      && N.eqb h2 HYPHEN && is_digit d1 && is_digit d2
  | _ => false
  end.

Record date : Type := { year : N; month : N; day : N }.

Definition digit_value (c : N) : N := (c - 48)%N.

Definition number_of (digits : list N) : N :=
  fold_left (fun acc c => (10 * acc + digit_value c)%N) digits 0%N.

Definition is_leap (y : N) : bool :=
  N.eqb (y mod 4) 0 && (negb (N.eqb (y mod 100) 0) || N.eqb (y mod 400) 0).

Definition days_in_month (y m : N) : N :=
  if N.eqb m 2 then (if is_leap y then 29 else 28)
  else if N.eqb m 4 || N.eqb m 6 || N.eqb m 9 || N.eqb m 11 then 30
  else 31.

(** [new Date(value + "T00:00:00")] for a [value] that passed the test above:
    the local midnight of that day, or [None] for an invalid date (a [NaN]
    time value).  The parsing of such a string is the engine's: as V8
    (Chrome, Node.js) does, a month 01-12 and a day 01-31 are required, and
    a day 29-31 that the month does not have counts on into the next month
    ([2026-02-30] is the second of March).  An engine that rejects such a
    day instead differs on those inputs only. *)
Definition parse_iso_date (s : jstr) : option date :=
  match s with
  | [y1; y2; y3; y4; _; m1; m2; _; d1; d2] =>
      let y := number_of [y1; y2; y3; y4] in
      let m := number_of [m1; m2] in
      let d := number_of [d1; d2] in
      if N.leb 1 m && N.leb m 12 && N.leb 1 d && N.leb d 31 then
        if N.leb d (days_in_month y m)
        then Some {| year := y; month := m; day := d |}
        else Some {| year := y; month := (m + 1)%N;
                     day := (d - days_in_month y m)%N |}
      else None
  | _ => None
  end.

Definition month_names : list jstr :=
  [ js "January"; js "February"; js "March"; js "April"; js "May"; js "June";
    js "July"; js "August"; js "September"; js "October"; js "November";
    js "December" ].

Definition month_name (m : N) : jstr := nth (N.to_nat (m - 1)) month_names [].

Definition two_digits (n : N) : jstr := [(48 + n / 10)%N; (48 + n mod 10)%N].

Definition decimal (n : N) : jstr :=
  js (DecimalString.NilEmpty.string_of_uint (N.to_uint n)).

(** The year that [year: "numeric"] prints is the year of the era: the year
    0000 of the input is the year 1 before the common era. *)
Definition era_year (y : N) : N := if N.eqb y 0 then 1%N else y.

(** [new Intl.DateTimeFormat("en-CA", {day: "2-digit", month: "long",
    year: "numeric"}).format(d)]: the CLDR pattern of English (Canada) for a
    long month, a day and a year is [MMMM dd, y], the month name first.  The
    date is formatted in the time zone it was built in. *)
Definition intl_format_en_CA (d : date) : jstr :=
  month_name (month d) ++ js " " ++ two_digits (day d) ++ js ", "
  ++ decimal (era_year (year d)).

Definition formatToCanadianLong (value : jstr) : jstr :=
  if is_empty value then []
  else if is_iso_date value then
    match parse_iso_date value with
    | Some d => intl_format_en_CA d
    | None => value
    end
  else value.

(** ** [rendered] (lines 219-234) *)

Record fields : Type := {
  f_date : jstr;
  f_employerCompanyName : jstr;
  f_companyAddressLine1 : jstr;
  f_companyAddressLine2 : jstr;
  f_position : jstr;
  f_template : jstr
}.

Definition rendered (fs : fields) : jstr :=
  let vals : gmap jstr jsval :=
    <[js "position" := VString (f_position fs)]>
    (<[js "companyAddressLine2" := VString (f_companyAddressLine2 fs)]>
    (<[js "companyAddressLine1" := VString (f_companyAddressLine1 fs)]>
    (<[js "employerCompanyName" := VString (f_employerCompanyName fs)]>
    (<[js "date" := VString (f_date fs)]> ∅)))) in
  let employerCompany := trim (f_employerCompanyName fs) in
  let normalized : gmap jstr jsval :=
    <[js "date" := VString (formatToCanadianLong (f_date fs))]>
    (<[js "companyAddressLine2" := VString (f_companyAddressLine2 fs)]>
    (<[js "companyName" := VString employerCompany]>
    (<[js "employerName" := VString employerCompany]> vals))) in
  let filled := applyTemplate (f_template fs) normalized in
  compressBlankLines filled.

(** ** [wrapLine] (lines 316-352) *)

(** [line.split(/\s+/)]: the pieces between the runs of whitespace, with an
    empty first (last) piece when the line starts (ends) with whitespace. *)
Fixpoint split_ws (s : jstr) : list jstr :=
  match s with
  | [] => [[]]
  | c :: r =>
      if is_space c then
        match r with
        | c' :: _ => if is_space c' then split_ws r else [] :: split_ws r
        | [] => [[]; []]
        end
      else
        match split_ws r with
        | piece :: pieces => (c :: piece) :: pieces
        | [] => [[c]]
        end
  end.

Definition is_high_surrogate (c : N) : bool := in_range 55296 56319 c.
Definition is_low_surrogate (c : N) : bool := in_range 56320 57343 c.

(** [for (const ch of word)]: iteration by code point, a surrogate pair is
    one [ch]. *)
Fixpoint code_points (s : jstr) : list jstr :=
  match s with
  | [] => []
  | c :: r =>
      match r with
      | d :: r' =>
          if is_high_surrogate c && is_low_surrogate d
          then [c; d] :: code_points r'
          else [c] :: code_points r
      | [] => [[c]]
      end
  end.

(** [if (current) lines.push(current)] *)
Definition push_nonempty (lines : list jstr) (current : jstr) : list jstr :=
  if is_empty current then lines else lines ++ [current].

Section Wrap.
(** [measure s] is [font.widthOfTextAtSize(s, FONT_SIZE)].  Widths are only
    compared with [maxWidth]; they are counted in thousandths of a point,
    in which the widths of a standard font at size 11 are whole numbers. *)
Variable measure : jstr -> Z.
Variable maxWidth : Z.

(** The inner loop (lines 333-343): the state is [lines] and [chunk]. *)
Fixpoint pack_chars (chs : list jstr) (lines : list jstr) (chunk : jstr)
  : list jstr * jstr :=
  match chs with
  | [] => (lines, chunk)
  | ch :: chs' =>
      let cand2 := chunk ++ ch in
      if (measure cand2 <=? maxWidth)%Z
      then pack_chars chs' lines cand2
      else pack_chars chs' (lines ++ [chunk]) ch
  end.

(** The loop over the words (lines 323-348) and the final push: the state
    is [lines] and [current]. *)
Fixpoint wrap_words (words : list jstr) (lines : list jstr) (current : jstr)
  : list jstr :=
  match words with
  | [] => push_nonempty lines current
  | word :: words' =>
      let candidate :=
        if is_empty current then word else current ++ [SP] ++ word in
      let width := measure candidate in
      if (width <=? maxWidth)%Z then wrap_words words' lines candidate
      else
        let lines := push_nonempty lines current in
        if (maxWidth <? measure word)%Z then
          let '(lines, chunk) := pack_chars (code_points word) lines [] in
          wrap_words words' lines chunk
        else wrap_words words' lines word
  end.

Definition wrapLine (line : jstr) : list jstr :=
  if is_empty (trim line) then [[]]
  else wrap_words (split_ws line) [] [].
End Wrap.

(** [lines.join(" ")] *)
Fixpoint join_sp (lines : list jstr) : jstr :=
  match lines with
  | [] => []
  | [l] => l
  | l :: ls => l ++ [SP] ++ join_sp ls
  end.

(** Whitespace normalization: the words of a line (the non-empty pieces
    between runs of whitespace), joined by single spaces. *)
Definition words (s : jstr) : list jstr :=
  List.filter (fun w => negb (is_empty w)) (split_ws s).

Definition normalize_ws (s : jstr) : jstr := join_sp (words s).

(** ** The line-placing loop of [downloadPdf] (lines 298-364) *)

(** Lengths in thousandths of a point: the constants of the source are
    decimal fractions, and the cursor is at least 1.89 pt away from the
    margin at every comparison, far more than binary rounding can move it. *)
Definition PAGE_W : Z := 595280.
Definition PAGE_H : Z := 841890.
Definition MARGIN : Z := 72000.
Definition FONT_SIZE : Z := 11000.
Definition LINE_HEIGHT : Z := 14500.

(** [text.split("\n")] *)
Fixpoint split_lines (s : jstr) : list jstr :=
  match s with
  | [] => [[]]
  | c :: r =>
      if N.eqb c LF then [] :: split_lines r
      else
        match split_lines r with
        | piece :: pieces => (c :: piece) :: pieces
        | [] => [[c]]
        end
  end.

(** The cursor [y] and the calls of [page.drawText(line, {x: MARGIN, y})]
    made so far. *)
Record page_state : Type := { cursor : Z; drawn : list (jstr * Z) }.

(** The test of lines 359 and 363: the cursor has passed the bottom margin. *)
Definition overflow (st : page_state) : bool := (cursor st <? MARGIN)%Z.

(** The inner loop (lines 357-361). *)
Fixpoint draw_lines (wrapped : list jstr) (st : page_state) : page_state :=
  match wrapped with
  | [] => st
  | line :: wrapped' =>
      let y := (cursor st - LINE_HEIGHT)%Z in
      if (y <? MARGIN)%Z then {| cursor := y; drawn := drawn st |}
      else draw_lines wrapped' {| cursor := y; drawn := drawn st ++ [(line, y)] |}
  end.

Section Layout.
Variable measure : jstr -> Z.

Definition maxWidth : Z := (PAGE_W - MARGIN * 2)%Z.

(** The outer loop (lines 354-364). *)
Fixpoint draw_paragraphs (paragraphs : list jstr) (st : page_state)
  : page_state :=
  match paragraphs with
  | [] => st
  | p :: paragraphs' =>
      let wrapped := wrapLine measure maxWidth p in
      let st := draw_lines wrapped st in
      if overflow st then st else draw_paragraphs paragraphs' st
  end.

Definition layout (text : jstr) : page_state :=
  let y := (PAGE_H - MARGIN)%Z in
  let paragraphs := split_lines text in
  draw_paragraphs paragraphs {| cursor := y; drawn := [] |}.

(** All the output lines of the document, in order. *)
Definition wrapped_lines (text : jstr) : list jstr :=
  concat (map (wrapLine measure maxWidth) (split_lines text)).
End Layout.

(** ** Statement helpers *)

Definition four_digits (n : N) : jstr :=
  [(48 + n / 1000)%N; (48 + (n / 100) mod 10)%N; (48 + (n / 10) mod 10)%N;
   (48 + n mod 10)%N].

(** The canonical form [YYYY-MM-DD] of a year, a month and a day. *)
Definition iso_string (y m d : N) : jstr :=
  four_digits y ++ [HYPHEN] ++ two_digits m ++ [HYPHEN] ++ two_digits d.

(** The cursor after [i] output lines. *)
Definition line_position (i : nat) : Z :=
  (PAGE_H - MARGIN - LINE_HEIGHT * Z.of_nat i)%Z.

(** The number of lines between the margins. *)
Definition lines_per_page : nat :=
  Z.to_nat ((PAGE_H - 2 * MARGIN) / LINE_HEIGHT)%Z.

(** A text without its whitespace. *)
Definition strip_ws (s : jstr) : jstr :=
  List.filter (fun c => negb (is_space c)) s.

(** What a line returned by [wrapLine] can be, [all_words] being the words of
    the input: it fits, or is empty, or is a single character, itself wider
    than [maxWidth], of a word wider than [maxWidth]. *)
Definition wrapped_line_ok (measure : jstr -> Z) (maxWidth : Z)
  (all_words : list jstr) (l : jstr) : Prop :=
  (measure l <= maxWidth)%Z
  \/ l = []
  \/ exists w, In w all_words /\ (maxWidth < measure w)%Z
               /\ In l (code_points w) /\ (maxWidth < measure l)%Z.

(** Membership of a character class, as arithmetic on the code unit. *)
Ltac class_arith H :=
  unfold is_ident, is_slug_char, is_sep, is_space, is_hws, is_digit, in_range in H;
  repeat first
    [ rewrite orb_true_iff in H | rewrite andb_true_iff in H
    | rewrite N.leb_le in H | rewrite N.eqb_eq in H ].

(** ** [String.prototype.split] with a regular expression

    [s.split(/re/)]: the pattern is tried at each position of the input from
    the left; where it matches, the piece read so far is closed, the captured
    groups follow it in the result, and reading resumes after the match; the
    piece open at the end of the input is the last one.  The pattern is not
    tried at the end of the input, and none of the patterns split on here
    matches the empty string. *)

Section Split.
Context {A : Type}.
Variable m : jstr -> option (A * jstr).
Variable groups : A -> list jstr.

Fixpoint split_from (fuel : nat) (piece s : jstr) : list jstr :=
  match fuel with
  | O => [piece ++ s]
  | S fuel' =>
      match s with
      | [] => [piece]
      | c :: r =>
          match m s with
          | Some (a, rest) => piece :: groups a ++ split_from fuel' [] rest
          | None => split_from fuel' (piece ++ [c]) r
          end
      end
  end.

Definition split_all (s : jstr) : list jstr := split_from (S (length s)) [] s.
End Split.

(** ** [splitIntoParagraphs] (lines 130-132) *)

(** The rest of [/\n\s*\n/] after its first newline: [\s*] is greedy and [\s]
    holds the newline, so the match ends with the last newline of the
    whitespace that follows.  [commit] is the input after the last newline
    seen, [s] the whitespace still to read. *)
Fixpoint paragraph_break (commit : option jstr) (s : jstr) : option jstr :=
  match s with
  | [] => commit
  | c :: r =>
      if N.eqb c LF then paragraph_break (Some r) r
      else if is_space c then paragraph_break commit r
      else commit
  end.

(** [/\n\s*\n/] *)
Definition match_paragraph_break (s : jstr) : option (unit * jstr) :=
  match s with
  | c :: r =>
      if N.eqb c LF then
        match paragraph_break None r with
        | Some rest => Some (tt, rest)
        | None => None
        end
      else None
  | [] => None
  end.

Definition splitIntoParagraphs (text : jstr) : list jstr :=
  split_all match_paragraph_break (fun _ => []) (normalize_crlf text).

(** ** Validation (lines 204-212) *)

(** [!fields.x?.trim()] *)
Definition is_blank (x : jstr) : bool := is_empty (trim x).

Definition requiredErrors (fs : fields) : gmap jstr jstr :=
  let errs : gmap jstr jstr := ∅ in
  let errs :=
    if is_blank (f_employerCompanyName fs)
    then <[js "employerCompanyName" := js "Employer/Company Name is required"]> errs
    else errs in
  let errs :=
    if is_blank (f_position fs)
    then <[js "position" := js "Position is required"]> errs
    else errs in
  errs.

(** [Object.keys(requiredErrors).length === 0] *)
Definition isFormValid (fs : fields) : bool :=
  Nat.eqb (size (requiredErrors fs)) 0.

(** ** [downloadDocx] (lines 382-422) and the paragraphs of the preview *)

(** [text.replace(/\s+/g, " ").trim()] (lines 393 and 586) *)
Definition compact_text (text : jstr) : jstr :=
  trim (replace_all (match_run is_space) (fun _ => [SP]) text).

Inductive run : Type :=
  | TextRun (text : jstr)
  | LineBreak.            (* [new TextRun({ break: 1 })] *)

Inductive alignment : Type := JUSTIFIED | LEFT.

Record docx_paragraph : Type := {
  children : list run;
  para_alignment : alignment;
  spacing_after : N
}.

(** [lines.forEach((ln, idx) => ...)] (lines 399-402) *)
Definition runs_of_lines (lines : list jstr) : list run :=
  concat
    (map (fun '(idx, ln) =>
            TextRun ln :: (if idx <? length lines - 1 then [LineBreak] else []))
         (combine (seq 0 (length lines)) lines)).

(** The callback of [splitIntoParagraphs(rendered).map] (lines 391-409). *)
Definition docx_paragraph_of (para : jstr) : docx_paragraph :=
  let text := para in
  let compact := compact_text text in
  let isLong := 120 <? length compact in
  let lines := split_lines text in
  {| children := runs_of_lines lines;
     para_alignment := if isLong then JUSTIFIED else LEFT;
     spacing_after := 200 |}.

Definition docParagraphs (rendered_text : jstr) : list docx_paragraph :=
  map docx_paragraph_of (splitIntoParagraphs rendered_text).

(** The text a word processor shows for a run. *)
Definition run_text (r : run) : jstr :=
  match r with
  | TextRun t => t
  | LineBreak => [LF]
  end.

(** ** The three exports (lines 265-283, 285-379, 382-422) *)

(** What an export leaves behind: a toast and nothing else; nothing at all,
    after a declined confirmation; nothing at all, an exception having left
    the handler; or an artifact. *)
Inductive outcome (A : Type) : Type :=
  | Refused (toast : jstr)
  | Aborted
  | Failed
  | Produced (artifact : A).
Arguments Refused {A} toast.
Arguments Aborted {A}.
Arguments Failed {A}.
Arguments Produced {A} artifact.

Record pdf_file : Type := { pdf_name : jstr; pdf_page : list (jstr * Z) }.
Record docx_file : Type := { docx_name : jstr; docx_body : list docx_paragraph }.

(** [isOverflow] is the state set by the preview's measurement,
    [confirm_ok] the answer to [window.confirm] when it is asked.
    [pdf_throws] tells whether a call into the PDF library throws while the
    page is built: [font.widthOfTextAtSize] and [page.drawText] do on a
    character that the font cannot encode.  Which characters those are is
    decided by the library, whose code is not part of this repository.  The
    handler catches nothing: the exception leaves it, no file is made and no
    toast is shown.  [measure] gives the widths where nothing throws. *)
Definition downloadPdf (measure : jstr -> Z) (fs : fields)
  (isOverflow confirm_ok pdf_throws : bool) : outcome pdf_file :=
  if negb (isFormValid fs) then Refused (js "Fill required fields first")
  else if isOverflow && negb confirm_ok then Aborted
  else if pdf_throws then Failed
  else
    let st := layout measure (rendered fs) in
    let company := file_part (f_employerCompanyName fs) (js "Company") in
    let position := file_part (f_position fs) (js "Position") in
    Produced
      {| pdf_name := js "CoverLetter_" ++ company ++ js "_" ++ position ++ js ".pdf";
         pdf_page := drawn st |}.

Definition downloadDocx (fs : fields) : outcome docx_file :=
  if negb (isFormValid fs) then Refused (js "Fill required fields first")
  else
    let company := file_part (f_employerCompanyName fs) (js "Company") in
    let position := file_part (f_position fs) (js "Position") in
    Produced
      {| docx_name := js "CoverLetter_" ++ company ++ js "_" ++ position ++ js ".docx";
         docx_body := docParagraphs (rendered fs) |}.

(** The artifact is the text put on the clipboard, by [writeText] or, when
    that throws, by the text area and [execCommand("copy")]. *)
Definition copyToClipboard (fs : fields) (clipboard_api_ok : bool)
  : outcome jstr :=
  if negb (isFormValid fs) then Refused (js "Fill required fields first")
  else if clipboard_api_ok then Produced (rendered fs)
  else
    let ta_value := rendered fs in
    Produced ta_value.

(** ** [linkifyLinkedInInline] (lines 134-154) *)

(** Case-insensitive matching ([/i] without [/u]) compares characters by
    their upper case; a character outside ASCII never equals an ASCII one. *)
Definition upper (c : N) : N := if in_range 97 122 c then (c - 32)%N else c.

(** A literal of the pattern at the head of the input; the input after it. *)
Fixpoint ci_prefix (lit s : jstr) : option jstr :=
  match lit with
  | [] => Some s
  | a :: lit' =>
      match s with
      | b :: s' => if N.eqb (upper a) (upper b) then ci_prefix lit' s' else None
      | [] => None
      end
  end.

Definition not_space (c : N) : bool := negb (is_space c).

(** First alternative, then the second one if the first fails: the order in
    which a backtracking matcher tries an optional group. *)
Definition orelse {A : Type} (x y : option A) : option A :=
  match x with
  | Some _ => x
  | None => y
  end.

Definition and_then {A B : Type} (x : option A) (k : A -> option B) : option B :=
  match x with
  | Some a => k a
  | None => None
  end.

(** [[^\s]+] *)
Definition url_path (r : jstr) : option jstr :=
  if is_empty (take_while not_space r) then None
  else Some (drop_while not_space r).

(** [linkedin\.com\/[^\s]+] *)
Definition url_host (r : jstr) : option jstr :=
  and_then (ci_prefix (js "linkedin.com/") r) url_path.

(** [(?:www\.)?linkedin\.com\/[^\s]+] *)
Definition url_www (r : jstr) : option jstr :=
  orelse (and_then (ci_prefix (js "www.") r) url_host) (url_host r).

(** [:\/\/(?:www\.)?linkedin\.com\/[^\s]+] *)
Definition url_colon (r : jstr) : option jstr :=
  and_then (ci_prefix (js "://") r) url_www.

(** [/https?:\/\/(?:www\.)?linkedin\.com\/[^\s]+/i] at the head of the input:
    the input after the match. *)
Definition url_end (s : jstr) : option jstr :=
  and_then (ci_prefix (js "http") s)
    (fun r => orelse (and_then (ci_prefix (js "s") r) url_colon) (url_colon r)).

(** The same with the matched text, which is also the one capturing group of
    the pattern. *)
Definition match_linkedin (s : jstr) : option (jstr * jstr) :=
  match url_end s with
  | Some rest => Some (firstn (length s - length rest) s, rest)
  | None => None
  end.

(** The first match at or after the current position, [s] being the input
    from position [i] on: the index where the match ends. *)
Fixpoint search_from (i : nat) (s : jstr) : option nat :=
  match url_end s with
  | Some rest => Some (i + (length s - length rest))
  | None =>
      match s with
      | [] => None
      | _ :: r => search_from (S i) r
      end
  end.

(** [re.test(part)] on the global pattern: the search starts at [lastIndex],
    and the call leaves the end of the match, or 0 after a failure, in
    [lastIndex]. *)
Definition regex_test (lastIndex : nat) (part : jstr) : bool * nat :=
  if length part <? lastIndex then (false, 0)
  else
    match search_from lastIndex (skipn lastIndex part) with
    | Some e => (true, e)
    | None => (false, 0)
    end.

Inductive element : Type :=
  | Link (href text : jstr)   (* [<a href={part} ...>{part}</a>] *)
  | Span (text : jstr)        (* [<span>{part}</span>] *)
  | Br.                       (* [<br />] *)

(** [parts.map((part, i) => ...)], the pattern's [lastIndex] going from one
    call of the callback to the next. *)
Fixpoint linkify_parts (lastIndex : nat) (parts : list jstr) : list element :=
  match parts with
  | [] => []
  | part :: parts' =>
      let '(found, lastIndex') := regex_test lastIndex part in
      (if found then Link part part else Span part)
      :: linkify_parts lastIndex' parts'
  end.

Definition linkifyLinkedInInline (text : jstr) : list element :=
  let parts := split_all match_linkedin (fun url => [url]) text in
  linkify_parts 0 parts.

Definition element_text (e : element) : jstr :=
  match e with
  | Link _ t => t
  | Span t => t
  | Br => [LF]
  end.

Definition is_link (e : element) : bool :=
  match e with
  | Link _ _ => true
  | _ => false
  end.

(** ** The preview (lines 424, 585-606) *)

Record preview_paragraph : Type := {
  justify : bool;
  preview_children : list element
}.

Definition preview_paragraph_of (para : jstr) : preview_paragraph :=
  let compact := compact_text para in
  let shouldJustify := 120 <? length compact in
  let lines := split_lines para in
  {| justify := shouldJustify;
     preview_children :=
       concat
         (map (fun '(li, line) =>
                 linkifyLinkedInInline line
                 ++ (if li <? length lines - 1 then [Br] else []))
              (combine (seq 0 (length lines)) lines)) |}.

Definition previewParagraphs (rendered_text : jstr) : list preview_paragraph :=
  map preview_paragraph_of (splitIntoParagraphs rendered_text).

(** ** [DEFAULT_TEMPLATE] (lines 77-103) and the values of [rendered] *)

Definition DEFAULT_TEMPLATE : jstr :=
  js "Nazmush Shakib Mahmud
Administrative and Organizational Management Professional
Email: shakibmahmud9531@gmail.com
Phone: +8801926082900
LinkedIn: https://www.linkedin.com/in/nazmush-shakib-mahmud-4383822ab

{{date}}
{{employerName}}
{{companyAddressLine1}}
{{companyAddressLine2}}

Dear Hiring Manager,

I am writing to express my interest in the {{position}} position in your organization with my 16 years of experience across corporate and military environments. I have a solid background in administration, executive support, organizational governance, and project coordination, supported by a proven track record of improving efficiency and controlling costs.

Presently, I am working as Assistant General Manager at itcroc where I supervise comprehensive administrative operations, documentation, procurement management, and project monitoring. Reduction of project cost and improved management visibility are enhanced through an efficient and structured administrative delivery and monitoring system. Previously, I provided senior-level executive and secretariat support to the vice chairman of Bashundhara Group. Standardized communication was established amongst internal and external stakeholders of the group that reduced operational costs. I implemented a structured administrative and tracking mechanism that assisted senior management during my tenure.

Earlier, I served in administrative and organizational management roles in the Bangladesh Air Force, where I led small and large teams, coordinated resources, developed SOPs, managed, and reviewed personnel. Moreover, I was involved in humanitarian operations at a national and international level in a high-risk environment. All these required proficient discretion and the ability to manage competing priorities, which strengthened my ability to operate effectively for the last 16 years.

I am open to move to Canada and would like to contribute my experience and skills to your organization. Thank you for your consideration.




Sincerely,
Nazmush Shakib Mahmud
".

(** The object [normalized] of [rendered] (lines 220-230). *)
Definition normalized_values (fs : fields) : gmap jstr jsval :=
  let vals : gmap jstr jsval :=
    <[js "position" := VString (f_position fs)]>
    (<[js "companyAddressLine2" := VString (f_companyAddressLine2 fs)]>
    (<[js "companyAddressLine1" := VString (f_companyAddressLine1 fs)]>
    (<[js "employerCompanyName" := VString (f_employerCompanyName fs)]>
    (<[js "date" := VString (f_date fs)]> ∅)))) in
  let employerCompany := trim (f_employerCompanyName fs) in
  <[js "date" := VString (formatToCanadianLong (f_date fs))]>
  (<[js "companyAddressLine2" := VString (f_companyAddressLine2 fs)]>
  (<[js "companyName" := VString employerCompany]>
  (<[js "employerName" := VString employerCompany]> vals))).

(** The other definitions the properties are stated with. *)

(** The placeholders that [rendered] has a value for: the keys of the
    object [normalized]. *)
Definition normalized_keys : list jstr :=
  [ js "date"; js "employerCompanyName"; js "companyAddressLine1";
    js "companyAddressLine2"; js "position"; js "employerName";
    js "companyName" ].

(** A plain file name of the export: [CoverLetter_], a company part, [_], a
    position part, a dot and the extension; the two parts are not empty, of
    at most 40 characters, and nothing before the dot is outside
    [[a-zA-Z0-9_-]]. *)
Definition export_name_ok (ext name : jstr) : Prop :=
  exists company position,
    name = js "CoverLetter_" ++ company ++ js "_" ++ position ++ js "." ++ ext
    /\ company <> [] /\ position <> []
    /\ length company <= 40 /\ length position <= 40
    /\ forallb is_slug_char (js "CoverLetter_" ++ company ++ js "_" ++ position)
       = true.

(** A file part that [slugifyFilePart] has nothing to do on. *)
Definition is_slug (s : jstr) : Prop :=
  length s <= 40 /\ forallb is_slug_char s = true
  /\ contains [UNDERSCORE; UNDERSCORE] s = false.

(** [lines.join("\n")] *)
Fixpoint join_lines (lines : list jstr) : jstr :=
  match lines with
  | [] => []
  | [l] => l
  | l :: ls => l ++ [LF] ++ join_lines ls
  end.

(** The shape of the result of a split: pieces in which the pattern matches
    nowhere, separated by the groups of the successive matches, each of which
    satisfies [P]. *)
Inductive split_shape {A : Type} (m : jstr -> option (A * jstr))
  (groups : A -> list jstr) (P : A -> Prop) : list jstr -> Prop :=
  | shape_last piece :
      matches_in m piece = false -> split_shape m groups P [piece]
  | shape_cons piece a parts :
      matches_in m piece = false -> P a -> split_shape m groups P parts ->
      split_shape m groups P (piece :: groups a ++ parts).

(** The elements made from the parts of a split: a piece of text, an address,
    a piece of text, ..., whatever position the pattern starts from. *)
Fixpoint pieces_and_links (link : bool) (parts : list jstr) : list element :=
  match parts with
  | [] => []
  | part :: parts' =>
      (if link then Link part part else Span part)
      :: pieces_and_links (negb link) parts'
  end.

(** Equality up to the case of ASCII letters. *)
Definition ci_eq (a lit : jstr) : Prop := map upper a = map upper lit.

(** The fixed part of a LinkedIn address: [http] or [https], [://], [www.]
    or not, [linkedin.com/], in any case of the letters. *)
Definition url_start (p : jstr) : Prop :=
  exists h s1 c w l,
    p = h ++ s1 ++ c ++ w ++ l
    /\ ci_eq h (js "http") /\ (s1 = [] \/ ci_eq s1 (js "s"))
    /\ ci_eq c (js "://") /\ (w = [] \/ ci_eq w (js "www."))
    /\ ci_eq l (js "linkedin.com/").

(** A LinkedIn address: the fixed part, then one character or more up to the
    first whitespace. *)
Definition is_linkedin_url (u : jstr) : Prop :=
  exists p body,
    u = p ++ body /\ url_start p /\ body <> []
    /\ forallb not_space body = true.





(** The end of [trim]: the text without its trailing whitespace. *)
Definition trim_end (s : jstr) : jstr := rev (drop_while is_space (rev s)).

(** Sample inputs: a measure of 5 pt for every code unit, and a form filled
    for the default template. *)
Definition sample_measure (s : jstr) : Z := (5000 * Z.of_nat (length s))%Z.

Definition sample_fields : fields :=
  {| f_date := js "2026-02-11";
     f_employerCompanyName := js "Acme Corp / Ltd.";
     f_companyAddressLine1 := js "1 Main Street";
     f_companyAddressLine2 := [];
     f_position := js "Office Manager";
     f_template := DEFAULT_TEMPLATE |}.

(** * Properties *)

(** ** The scanner *)

Section ReplaceFacts.
Context {A : Type}.
Variable m : jstr -> option (A * jstr).
Variable f : A -> jstr.
Hypothesis m_consumes :
  forall s a rest, m s = Some (a, rest) -> length rest < length s.

Lemma m_nil : m [] = None.
Proof.
  destruct (m []) as [[a rest]|] eqn:E; [|reflexivity].
  apply m_consumes in E. simpl in E. lia.
Qed.

Lemma replace_from_fuel fuel1 : forall fuel2 s,
  length s < fuel1 -> length s < fuel2 ->
  replace_from m f fuel1 s = replace_from m f fuel2 s.
Proof.
  induction fuel1 as [|n IH]; intros fuel2 s H1 H2; [lia|].
  destruct fuel2 as [|k]; [lia|]. simpl.
  destruct (m s) as [[a rest]|] eqn:E.
  - apply m_consumes in E. f_equal. apply IH; lia.
  - destruct s as [|c r]; [reflexivity|]. simpl in *. f_equal. apply IH; lia.
Qed.

Lemma replace_all_match s a rest :
  m s = Some (a, rest) -> replace_all m f s = f a ++ replace_all m f rest.
Proof.
  intros E. unfold replace_all at 1. simpl. rewrite E. f_equal.
  pose proof (m_consumes _ _ _ E). apply replace_from_fuel; lia.
Qed.

Lemma replace_all_skip c r :
  m (c :: r) = None -> replace_all m f (c :: r) = c :: replace_all m f r.
Proof.
  intros E. unfold replace_all at 1.
  change (replace_from m f (S (length (c :: r))) (c :: r))
    with (match m (c :: r) with
          | Some (a, rest) => f a ++ replace_from m f (length (c :: r)) rest
          | None => c :: replace_from m f (length (c :: r)) r
          end).
  rewrite E. reflexivity.
Qed.

Lemma replace_all_nil : replace_all m f [] = [].
Proof. unfold replace_all. simpl. rewrite m_nil. reflexivity. Qed.

(** Induction along the scan. *)
Lemma replace_all_ind (P : jstr -> jstr -> Prop) :
  P [] [] ->
  (forall s a rest, m s = Some (a, rest) ->
     P rest (replace_all m f rest) -> P s (f a ++ replace_all m f rest)) ->
  (forall c r, m (c :: r) = None ->
     P r (replace_all m f r) -> P (c :: r) (c :: replace_all m f r)) ->
  forall s, P s (replace_all m f s).
Proof.
  intros Hnil Hmatch Hskip s.
  remember (length s) as n eqn:Hn. revert s Hn.
  induction n as [n IH] using lt_wf_ind. intros s Hn.
  destruct (m s) as [[a rest]|] eqn:E.
  - rewrite (replace_all_match _ _ _ E). apply Hmatch; [exact E|].
    apply (IH (length rest)); [|reflexivity].
    apply m_consumes in E. lia.
  - destruct s as [|c r].
    + rewrite replace_all_nil. exact Hnil.
    + rewrite (replace_all_skip _ _ E). apply Hskip; [exact E|].
      apply (IH (length r)); [|reflexivity]. simpl in Hn. lia.
Qed.

(** Where the pattern matches nowhere, nothing is replaced. *)
Lemma replace_all_no_match s : matches_in m s = false -> replace_all m f s = s.
Proof.
  induction s as [|c r IH]; intros H.
  - apply replace_all_nil.
  - simpl in H. destruct (m (c :: r)) eqn:E; [discriminate|].
    rewrite (replace_all_skip _ _ E). f_equal. auto.
Qed.

Lemma captures_from_fuel fuel1 : forall fuel2 s,
  length s < fuel1 -> length s < fuel2 ->
  captures_from m fuel1 s = captures_from m fuel2 s.
Proof.
  induction fuel1 as [|n IH]; intros fuel2 s H1 H2; [lia|].
  destruct fuel2 as [|k]; [lia|]. simpl.
  destruct (m s) as [[a rest]|] eqn:E.
  - apply m_consumes in E. f_equal. apply IH; lia.
  - destruct s as [|c r]; [reflexivity|]. simpl in *. apply IH; lia.
Qed.

Lemma captures_match s a rest :
  m s = Some (a, rest) -> captures m s = a :: captures m rest.
Proof.
  intros E. unfold captures at 1. simpl. rewrite E. f_equal.
  pose proof (m_consumes _ _ _ E). apply captures_from_fuel; lia.
Qed.

Lemma captures_skip c r :
  m (c :: r) = None -> captures m (c :: r) = captures m r.
Proof.
  intros E. unfold captures at 1.
  change (captures_from m (S (length (c :: r))) (c :: r))
    with (match m (c :: r) with
          | Some (a, rest) => a :: captures_from m (length (c :: r)) rest
          | None => captures_from m (length (c :: r)) r
          end).
  rewrite E. reflexivity.
Qed.
End ReplaceFacts.

(** ** [compressBlankLines] *)

Lemma hws_not_LF c : is_hws c = true -> N.eqb c LF = false.
Proof.
  unfold is_hws, SP, TAB, LF. intros H.
  apply orb_true_iff in H as [H|H]; apply N.eqb_eq in H; subst; reflexivity.
Qed.

Lemma blank_line_shorter s : forall r, blank_line s = Some r -> length r < length s.
Proof.
  induction s as [|c s IH]; intros r H; simpl in H; [discriminate|].
  destruct (N.eqb c LF).
  - inversion H; subst. simpl. lia.
  - destruct (is_hws c); [|discriminate]. apply IH in H. simpl. lia.
Qed.

Lemma blank_lines_length s : forall commit,
  length s <= length commit -> length (blank_lines commit s) <= length commit.
Proof.
  induction s as [|c s IH]; intros commit H; simpl in *; [lia|].
  destruct (N.eqb c LF).
  - specialize (IH s). lia.
  - destruct (is_hws c); [|lia]. apply IH. lia.
Qed.

Lemma blank_line_suffix s : forall r,
  blank_line s = Some r -> exists pre, s = pre ++ r.
Proof.
  induction s as [|c s IH]; intros r H; simpl in H; [discriminate|].
  destruct (N.eqb c LF).
  - inversion H; subst. exists [c]. reflexivity.
  - destruct (is_hws c); [|discriminate].
    destruct (IH _ H) as [pre ->]. exists (c :: pre). reflexivity.
Qed.

Lemma blank_lines_suffix s : forall commit pre0,
  commit = pre0 ++ s -> exists pre, commit = pre ++ blank_lines commit s.
Proof.
  induction s as [|c s IH]; intros commit pre0 H; simpl.
  - exists []. reflexivity.
  - destruct (N.eqb c LF).
    + destruct (IH s [] eq_refl) as [pre Hpre].
      exists (pre0 ++ c :: pre). rewrite H at 1.
      rewrite <- app_assoc. simpl. rewrite <- Hpre. reflexivity.
    + destruct (is_hws c).
      * apply (IH commit (pre0 ++ [c])). rewrite <- app_assoc. exact H.
      * exists []. reflexivity.
Qed.

Lemma blank_line_after_hws h s :
  forallb is_hws h = true -> blank_line (h ++ s) = blank_line s.
Proof.
  induction h as [|c h IH]; intros H; simpl in *; [reflexivity|].
  apply andb_true_iff in H as [Hc Hh].
  rewrite (hws_not_LF _ Hc), Hc. auto.
Qed.

Lemma blank_line_only_hws h : forallb is_hws h = true -> blank_line h = None.
Proof.
  intros H. rewrite <- (app_nil_r h). rewrite blank_line_after_hws; auto.
Qed.

(** The greedy repetition stops where no further blank line follows. *)
Lemma blank_lines_maximal_from s : forall h commit,
  forallb is_hws h = true -> commit = h ++ s ->
  blank_line (blank_lines commit s) = None.
Proof.
  induction s as [|c s IH]; intros h commit Hh ->; simpl.
  - rewrite app_nil_r. apply blank_line_only_hws, Hh.
  - destruct (N.eqb c LF) eqn:Ec.
    + apply (IH []); reflexivity.
    + destruct (is_hws c) eqn:Hc.
      * apply (IH (h ++ [c])).
        -- rewrite forallb_app, Hh. simpl. rewrite Hc. reflexivity.
        -- rewrite <- app_assoc. reflexivity.
      * rewrite blank_line_after_hws by exact Hh. simpl. rewrite Ec, Hc.
        reflexivity.
Qed.

Lemma blank_lines_maximal r : blank_line (blank_lines r r) = None.
Proof. apply (blank_lines_maximal_from r [] r); reflexivity. Qed.

Lemma match_blank_run_inv s rest :
  match_blank_run s = Some (tt, rest) ->
  exists r r1 r2, s = LF :: r /\ blank_line r = Some r1
    /\ blank_line r1 = Some r2 /\ rest = blank_lines r2 r2.
Proof.
  destruct s as [|c r]; simpl; [discriminate|].
  destruct (N.eqb_spec c LF) as [->|]; [|discriminate].
  destruct (blank_line r) as [r1|] eqn:E1; [|discriminate].
  destruct (blank_line r1) as [r2|] eqn:E2; [|discriminate].
  intros H. inversion H. exists r, r1, r2. auto.
Qed.

Lemma match_crlf_consumes s a rest :
  match_crlf s = Some (a, rest) -> length rest < length s.
Proof.
  destruct s as [|c1 [|c2 r]]; simpl; try discriminate.
  destruct (N.eqb c1 CR && N.eqb c2 LF); [|discriminate].
  intros H. inversion H; subst. simpl. lia.
Qed.

Lemma match_blank_run_consumes s a rest :
  match_blank_run s = Some (a, rest) -> length rest < length s.
Proof.
  destruct a. intros H.
  destruct (match_blank_run_inv _ _ H) as (r & r1 & r2 & -> & H1 & H2 & ->).
  apply blank_line_shorter in H1, H2.
  pose proof (blank_lines_length r2 r2 (Nat.le_refl _)). simpl. lia.
Qed.

Lemma match_blank_run_suffix s a rest :
  match_blank_run s = Some (a, rest) -> exists pre, s = pre ++ rest.
Proof.
  destruct a. intros H.
  destruct (match_blank_run_inv _ _ H) as (r & r1 & r2 & -> & H1 & H2 & ->).
  destruct (blank_line_suffix _ _ H1) as [p1 ->].
  destruct (blank_line_suffix _ _ H2) as [p2 Hp2].
  destruct (blank_lines_suffix r2 r2 [] eq_refl) as [p3 Hp3].
  exists (LF :: p1 ++ p2 ++ p3). simpl. f_equal.
  rewrite <- !app_assoc. rewrite <- Hp3. rewrite Hp2. reflexivity.
Qed.

Lemma match_blank_run_not_LF c r : N.eqb c LF = false -> match_blank_run (c :: r) = None.
Proof. intros H. simpl. rewrite H. reflexivity. Qed.

Lemma collapse_nil : collapse_blank_runs [] = [].
Proof. apply replace_all_nil, match_blank_run_consumes. Qed.

Lemma collapse_skip c r :
  match_blank_run (c :: r) = None ->
  collapse_blank_runs (c :: r) = c :: collapse_blank_runs r.
Proof. apply replace_all_skip. Qed.

(** Collapsing never brings a blank line to the front of a text that did not
    start with one. *)
Lemma collapse_no_blank_line r :
  blank_line r = None -> blank_line (collapse_blank_runs r) = None.
Proof.
  induction r as [|c r IH]; intros H.
  - rewrite collapse_nil. reflexivity.
  - simpl in H. destruct (N.eqb c LF) eqn:Ec; [discriminate|].
    rewrite (collapse_skip _ _ (match_blank_run_not_LF _ _ Ec)).
    simpl. rewrite Ec. destruct (is_hws c); auto.
Qed.

Lemma collapse_one_blank_line r : forall r1,
  blank_line r = Some r1 -> blank_line r1 = None ->
  blank_line (collapse_blank_runs r) = Some (collapse_blank_runs r1).
Proof.
  induction r as [|c r IH]; intros r1 H H1; simpl in H; [discriminate|].
  destruct (N.eqb c LF) eqn:Ec.
  - inversion H; subst r1. apply N.eqb_eq in Ec. subst c.
    rewrite collapse_skip by (simpl; rewrite H1; reflexivity).
    reflexivity.
  - destruct (is_hws c) eqn:Hc; [|discriminate].
    rewrite (collapse_skip _ _ (match_blank_run_not_LF _ _ Ec)).
    simpl. rewrite Ec, Hc. auto.
Qed.

Lemma collapse_keeps_no_match r :
  match_blank_run (LF :: r) = None ->
  match_blank_run (LF :: collapse_blank_runs r) = None.
Proof.
  simpl. destruct (blank_line r) as [r1|] eqn:E1.
  - destruct (blank_line r1) as [r2|] eqn:E2; [discriminate|]. intros _.
    rewrite (collapse_one_blank_line _ _ E1 E2).
    rewrite (collapse_no_blank_line _ E2). reflexivity.
  - intros _. rewrite (collapse_no_blank_line _ E1). reflexivity.
Qed.

(** After the replacement the pattern matches nowhere. *)
Lemma collapse_no_match s :
  matches_in match_blank_run (collapse_blank_runs s) = false.
Proof.
  unfold collapse_blank_runs at 1.
  apply (replace_all_ind match_blank_run (fun _ => [LF; LF])
           match_blank_run_consumes
           (fun _ out => matches_in match_blank_run out = false)).
  - reflexivity.
  - intros s0 [] rest Hm IH.
    destruct (match_blank_run_inv _ _ Hm) as (r & r1 & r2 & _ & _ & _ & Hrest).
    pose proof (blank_lines_maximal r2) as Hmax. rewrite <- Hrest in Hmax.
    apply collapse_no_blank_line in Hmax. unfold collapse_blank_runs in Hmax.
    simpl. rewrite Hmax. exact IH.
  - intros c r Hm IH.
    change (matches_in match_blank_run (c :: replace_all match_blank_run (fun _ => [LF; LF]) r))
      with (match match_blank_run (c :: collapse_blank_runs r) with
            | Some _ => true
            | None => matches_in match_blank_run (collapse_blank_runs r)
            end).
    destruct (N.eqb_spec c LF) as [->|Hc].
    + rewrite (collapse_keeps_no_match _ Hm). exact IH.
    + rewrite match_blank_run_not_LF by (apply N.eqb_neq, Hc). exact IH.
Qed.

Lemma collapse_idempotent s :
  collapse_blank_runs (collapse_blank_runs s) = collapse_blank_runs s.
Proof.
  apply replace_all_no_match; [apply match_blank_run_consumes|].
  apply collapse_no_match.
Qed.

Lemma compressBlankLines_eq s :
  compressBlankLines s = collapse_blank_runs (normalize_crlf s).
Proof. destruct s; reflexivity. Qed.



Lemma matches_in_cons {A} (m : jstr -> option (A * jstr)) c r :
  matches_in m (c :: r) =
  match m (c :: r) with Some _ => true | None => matches_in m r end.
Proof. reflexivity. Qed.

Lemma contains_cons p c r :
  contains p (c :: r) = starts_with p (c :: r) || contains p r.
Proof. destruct p; reflexivity. Qed.


(** *** Idempotence *)

Lemma starts_with_iff p : forall s,
  starts_with p s = true <-> exists r, s = p ++ r.
Proof.
  induction p as [|a p IH]; intros s; simpl.
  - split; [exists s; reflexivity|reflexivity].
  - destruct s as [|b s].
    + split; [discriminate|intros [r H]; discriminate].
    + rewrite andb_true_iff, N.eqb_eq, IH. split.
      * intros [-> [r ->]]. exists r. reflexivity.
      * intros [r H]. inversion H; subst. split; [reflexivity|exists r; reflexivity].
Qed.

Lemma starts_with_app p r : starts_with p (p ++ r) = true.
Proof. apply starts_with_iff. exists r. reflexivity. Qed.

Lemma contains_false_cons p c r :
  contains p (c :: r) = false ->
  starts_with p (c :: r) = false /\ contains p r = false.
Proof. rewrite contains_cons. apply orb_false_iff. Qed.

Lemma contains_false_app p pre : forall s,
  contains p (pre ++ s) = false -> contains p s = false.
Proof.
  induction pre as [|c pre IH]; intros s H; [exact H|].
  simpl app in H. apply contains_false_cons in H as [_ H]. auto.
Qed.

Lemma match_crlf_inv s a rest :
  match_crlf s = Some (a, rest) -> s = CR :: LF :: rest.
Proof.
  destruct s as [|c1 [|c2 r]]; simpl; try discriminate.
  destruct (N.eqb_spec c1 CR) as [->|]; [|discriminate].
  destruct (N.eqb_spec c2 LF) as [->|]; [|discriminate].
  simpl. intros H. inversion H. reflexivity.
Qed.

Lemma match_crlf_none s :
  match_crlf s = None -> starts_with [CR; LF] s = false.
Proof.
  intros H. destruct (starts_with [CR; LF] s) eqn:E; [|reflexivity].
  apply starts_with_iff in E as [r ->]. discriminate H.
Qed.

Lemma match_blank_run_head s a rest :
  match_blank_run s = Some (a, rest) -> starts_with [LF] s = true.
Proof.
  destruct a. intros H.
  destruct (match_blank_run_inv _ _ H) as (r & _ & _ & -> & _).
  apply (starts_with_app [LF]).
Qed.

Lemma starts_CRLF_cons c out :
  starts_with [CR; LF] (c :: out) = true ->
  c = CR /\ starts_with [LF] out = true.
Proof.
  intros H. apply starts_with_iff in H as [r H]. inversion H; subst.
  split; [reflexivity|apply (starts_with_app [LF])].
Qed.

Lemma starts_LF_cons c out : starts_with [LF] (c :: out) = true -> c = LF.
Proof. intros H. apply starts_with_iff in H as [r H]. inversion H. reflexivity. Qed.

(** After [\r\n] became [\n], a CR LF pair is left only where the input had
    CR CR LF. *)
Lemma normalize_crlf_no_CRLF s :
  contains [CR; CR; LF] s = false ->
  contains [CR; LF] (normalize_crlf s) = false.
Proof.
  intros H.
  enough (contains [CR; CR; LF] s = false ->
          contains [CR; LF] (normalize_crlf s) = false
          /\ (starts_with [LF] (normalize_crlf s) = true ->
              starts_with [LF] s = true \/ starts_with [CR; LF] s = true))
    as G by (apply G, H).
  clear H. unfold normalize_crlf.
  apply (replace_all_ind match_crlf (fun _ => [LF]) match_crlf_consumes
           (fun s out => contains [CR; CR; LF] s = false ->
              contains [CR; LF] out = false
              /\ (starts_with [LF] out = true ->
                  starts_with [LF] s = true \/ starts_with [CR; LF] s = true))).
  - intros _. split; [reflexivity|discriminate].
  - intros s0 a rest Hm IH H. apply match_crlf_inv in Hm. subst s0.
    apply (contains_false_app _ [CR; LF]) in H. destruct (IH H) as [IH1 _].
    split.
    + simpl app. rewrite contains_cons, IH1. reflexivity.
    + intros _. right. apply (starts_with_app [CR; LF]).
  - intros c r Hm IH H. apply contains_false_cons in H as [Hs H].
    destruct (IH H) as [IH1 IH2]. split.
    + rewrite contains_cons, IH1, orb_false_r.
      destruct (starts_with [CR; LF] (c :: replace_all match_crlf (fun _ => [LF]) r)) eqn:E;
        [|reflexivity].
      apply starts_CRLF_cons in E as [-> E]. exfalso.
      destruct (IH2 E) as [E'|E']; apply starts_with_iff in E' as [r' ->].
      * discriminate Hm.
      * change (CR :: [CR; LF] ++ r') with ([CR; CR; LF] ++ r') in Hs.
        rewrite starts_with_app in Hs. discriminate.
    + intros E. apply starts_LF_cons in E. subst c. left. reflexivity.
Qed.

Lemma collapse_no_CRLF s :
  contains [CR; LF] s = false ->
  contains [CR; LF] (collapse_blank_runs s) = false.
Proof.
  intros H.
  enough (contains [CR; LF] s = false ->
          contains [CR; LF] (collapse_blank_runs s) = false
          /\ (starts_with [LF] (collapse_blank_runs s) = true ->
              starts_with [LF] s = true))
    as G by (apply G, H).
  clear H. unfold collapse_blank_runs.
  apply (replace_all_ind match_blank_run (fun _ => [LF; LF])
           match_blank_run_consumes
           (fun s out => contains [CR; LF] s = false ->
              contains [CR; LF] out = false
              /\ (starts_with [LF] out = true -> starts_with [LF] s = true))).
  - intros _. split; [reflexivity|discriminate].
  - intros s0 a rest Hm IH H.
    pose proof (match_blank_run_head _ _ _ Hm) as Hhead.
    destruct (match_blank_run_suffix _ _ _ Hm) as [pre ->].
    apply contains_false_app in H. destruct (IH H) as [IH1 _].
    split; [|intros _; exact Hhead].
    simpl app. rewrite !contains_cons, IH1. reflexivity.
  - intros c r Hm IH H.
    pose proof H as H0. apply contains_false_cons in H as [Hs H].
    destruct (IH H) as [IH1 IH2]. split.
    + rewrite contains_cons, IH1, orb_false_r.
      destruct (starts_with [CR; LF] (c :: replace_all match_blank_run (fun _ => [LF; LF]) r)) eqn:E;
        [|reflexivity].
      apply starts_CRLF_cons in E as [-> E]. exfalso.
      apply IH2, starts_with_iff in E as [r' ->].
      change (CR :: [LF] ++ r') with ([CR; LF] ++ r') in Hs.
      rewrite starts_with_app in Hs. discriminate.
    + intros E. apply starts_LF_cons in E. subst c. reflexivity.
Qed.

Lemma normalize_crlf_id s :
  contains [CR; LF] s = false -> normalize_crlf s = s.
Proof.
  intros H. apply replace_all_no_match; [apply match_crlf_consumes|].
  induction s as [|c r IH]; [reflexivity|].
  apply contains_false_cons in H as [Hs H].
  rewrite matches_in_cons.
  destruct (match_crlf (c :: r)) as [[a rest]|] eqn:E; [|auto].
  apply match_crlf_inv in E. rewrite E in Hs.
  change (CR :: LF :: rest) with ([CR; LF] ++ rest) in Hs.
  rewrite starts_with_app in Hs. discriminate.
Qed.

(** C3 fails as stated: the first replacement removes one CR LF pair and can
    leave another one behind. *)
Lemma compressBlankLines_not_idempotent :
  compressBlankLines [CR; CR; LF] = [CR; LF]
  /\ compressBlankLines (compressBlankLines [CR; CR; LF]) = [LF]
  /\ compressBlankLines (compressBlankLines [CR; CR; LF])
     <> compressBlankLines [CR; CR; LF].
Proof. repeat split; try reflexivity. discriminate. Qed.

(** C3, amended. [compressBlankLines] is idempotent on every string in which
    no carriage return stands directly before a CR LF pair. *)
Theorem compressBlankLines_idempotent s :
  contains [CR; CR; LF] s = false ->
  compressBlankLines (compressBlankLines s) = compressBlankLines s.
Proof.
  intros H. rewrite !compressBlankLines_eq.
  rewrite (normalize_crlf_id (collapse_blank_runs (normalize_crlf s))).
  - apply collapse_idempotent.
  - apply collapse_no_CRLF, normalize_crlf_no_CRLF, H.
Qed.

Lemma compressBlankLines_idempotent_witness :
  contains [CR; CR; LF] (js "Dear" ++ [CR; LF; CR; LF; CR; LF; LF] ++ js "Sir") = false
  /\ compressBlankLines
       (compressBlankLines (js "Dear" ++ [CR; LF; CR; LF; CR; LF; LF] ++ js "Sir"))
     = compressBlankLines (js "Dear" ++ [CR; LF; CR; LF; CR; LF; LF] ++ js "Sir").
Proof.
  split; [reflexivity|].
  apply (compressBlankLines_idempotent
           (js "Dear" ++ [CR; LF; CR; LF; CR; LF; LF] ++ js "Sir")).
  reflexivity.
Defined.

(** *** Runs of blank lines inside the text *)



















(** ** [slugifyFilePart] *)

Lemma drop_while_length p s : length (drop_while p s) <= length s.
Proof.
  induction s as [|c s IH]; simpl; [lia|].
  destruct (p c); simpl; lia.
Qed.

Lemma match_run_consumes p s a rest :
  match_run p s = Some (a, rest) -> length rest < length s.
Proof.
  destruct s as [|c r]; simpl; [discriminate|].
  destruct (p c); [|discriminate]. intros H. inversion H; subst.
  pose proof (drop_while_length p r). lia.
Qed.

Lemma match_run_inv p s a rest :
  match_run p s = Some (a, rest) ->
  exists c r, s = c :: r /\ p c = true /\ rest = drop_while p r.
Proof.
  destruct s as [|c r]; simpl; [discriminate|].
  destruct (p c) eqn:E; [|discriminate]. intros H. inversion H.
  exists c, r. auto.
Qed.

Lemma match_run_none p c r : match_run p (c :: r) = None -> p c = false.
Proof. simpl. destruct (p c); [discriminate|reflexivity]. Qed.

Lemma squeeze_run p u r : forall c,
  p c = true -> squeeze p u (c :: r) = u :: squeeze p u (drop_while p r).
Proof.
  induction r as [|c' r IH]; intros c Hc.
  - simpl. rewrite Hc. reflexivity.
  - change (squeeze p u (c :: c' :: r))
      with (if p c then (if p c' then squeeze p u (c' :: r)
                         else u :: squeeze p u (c' :: r))
            else c :: squeeze p u (c' :: r)).
    rewrite Hc. simpl drop_while. destruct (p c') eqn:Hc'.
    + apply IH, Hc'.
    + reflexivity.
Qed.

Lemma squeeze_keep p u c r :
  p c = false -> squeeze p u (c :: r) = c :: squeeze p u r.
Proof. intros H. simpl. rewrite H. reflexivity. Qed.

(** Replacing each match of [/[class]+/g] by one character squeezes the runs. *)
Lemma replace_runs_squeeze p u s :
  replace_all (match_run p) (fun _ => [u]) s = squeeze p u s.
Proof.
  apply (replace_all_ind (match_run p) (fun _ => [u]) (match_run_consumes p)
           (fun s out => out = squeeze p u s)).
  - reflexivity.
  - intros s0 a rest Hm IH.
    destruct (match_run_inv _ _ _ _ Hm) as (c & r & -> & Hc & ->).
    rewrite (squeeze_run p u r c Hc), IH. reflexivity.
  - intros c r Hm IH. apply match_run_none in Hm.
    rewrite (squeeze_keep p u c r Hm), IH. reflexivity.
Qed.

Lemma filter_drop_while p s :
  List.filter (fun c => negb (p c)) (drop_while p s)
  = List.filter (fun c => negb (p c)) s.
Proof.
  induction s as [|c s IH]; simpl; [reflexivity|].
  destruct (p c) eqn:E; simpl; [exact IH|]. rewrite E. reflexivity.
Qed.

(** Replacing each match of [/[class]+/g] by nothing filters the class out. *)
Lemma replace_runs_filter p s :
  replace_all (match_run p) (fun _ => []) s
  = List.filter (fun c => negb (p c)) s.
Proof.
  apply (replace_all_ind (match_run p) (fun _ => []) (match_run_consumes p)
           (fun s out => out = List.filter (fun c => negb (p c)) s)).
  - reflexivity.
  - intros s0 a rest Hm IH.
    destruct (match_run_inv _ _ _ _ Hm) as (c & r & -> & Hc & ->).
    simpl. rewrite Hc. simpl. rewrite IH. apply filter_drop_while.
  - intros c r Hm IH. apply match_run_none in Hm.
    simpl. rewrite Hm. simpl. rewrite IH. reflexivity.
Qed.

Lemma slugifyFilePart_spec s : slugifyFilePart s = slug_spec s.
Proof.
  unfold slugifyFilePart, slug_spec, slice0.
  rewrite !replace_runs_squeeze, replace_runs_filter.
  do 2 f_equal. apply filter_ext. intros c. unfold not_slug_char.
  apply negb_involutive.
Qed.

Lemma squeeze_forallb (q p : N -> bool) u s :
  q u = true -> forallb q s = true -> forallb q (squeeze p u s) = true.
Proof.
  intros Hu. induction s as [|c r IH]; intros H; [reflexivity|].
  simpl in H. apply andb_true_iff in H as [Hc Hr].
  destruct (p c) eqn:Ec.
  - destruct r as [|c' r'].
    + simpl. rewrite Ec. simpl. rewrite Hu. reflexivity.
    + change (squeeze p u (c :: c' :: r'))
        with (if p c then (if p c' then squeeze p u (c' :: r')
                           else u :: squeeze p u (c' :: r'))
              else c :: squeeze p u (c' :: r')).
      rewrite Ec. destruct (p c'); [auto|].
      change (forallb q (u :: squeeze p u (c' :: r')))
        with (q u && forallb q (squeeze p u (c' :: r'))).
      rewrite Hu. auto.
  - rewrite (squeeze_keep p u c r Ec).
    change (forallb q (c :: squeeze p u r)) with (q c && forallb q (squeeze p u r)).
    rewrite Hc. auto.
Qed.

Lemma forallb_filter_same (q : N -> bool) (s : jstr) :
  forallb q (List.filter q s) = true.
Proof.
  induction s as [|c r IH]; simpl; [reflexivity|].
  destruct (q c) eqn:E; simpl; [rewrite E|]; auto.
Qed.

Lemma forallb_firstn (q : N -> bool) n : forall s : jstr,
  forallb q s = true -> forallb q (firstn n s) = true.
Proof.
  induction n as [|n IH]; intros [|c r] H; simpl in *; try reflexivity.
  apply andb_true_iff in H as [Hc H]. rewrite Hc. simpl. auto.
Qed.

Lemma squeeze_no_double s :
  contains [UNDERSCORE; UNDERSCORE] (squeeze is_underscore UNDERSCORE s) = false.
Proof.
  induction s as [|c r IH]; [reflexivity|].
  destruct (is_underscore c) eqn:Ec.
  - destruct r as [|c' r'].
    + simpl. rewrite Ec. reflexivity.
    + change (squeeze is_underscore UNDERSCORE (c :: c' :: r'))
        with (if is_underscore c
              then (if is_underscore c'
                    then squeeze is_underscore UNDERSCORE (c' :: r')
                    else UNDERSCORE :: squeeze is_underscore UNDERSCORE (c' :: r'))
              else c :: squeeze is_underscore UNDERSCORE (c' :: r')).
      rewrite Ec. destruct (is_underscore c') eqn:Ec'; [exact IH|].
      rewrite contains_cons, IH, orb_false_r.
      rewrite (squeeze_keep _ _ _ _ Ec').
      cbn [starts_with]. unfold is_underscore in Ec'.
      rewrite (N.eqb_sym UNDERSCORE c'), Ec'. rewrite andb_false_r. reflexivity.
  - rewrite (squeeze_keep _ _ _ _ Ec), contains_cons, IH, orb_false_r.
    cbn [starts_with]. unfold is_underscore in Ec.
    rewrite (N.eqb_sym UNDERSCORE c), Ec. reflexivity.
Qed.

Lemma starts_with_firstn p n s :
  starts_with p (firstn n s) = true -> starts_with p s = true.
Proof.
  intros H. apply starts_with_iff in H as [r H]. apply starts_with_iff.
  exists (r ++ skipn n s). rewrite app_assoc, <- H. symmetry. apply firstn_skipn.
Qed.

Lemma contains_firstn p n : forall s,
  contains p s = false -> contains p (firstn n s) = false.
Proof.
  induction n as [|n IH]; intros s H.
  - destruct p; [destruct s; discriminate H|reflexivity].
  - destruct s as [|c r]; [exact H|].
    apply contains_false_cons in H as [Hs Hr].
    change (firstn (S n) (c :: r)) with (c :: firstn n r).
    rewrite contains_cons, (IH r Hr), orb_false_r.
    destruct (starts_with p (c :: firstn n r)) eqn:E; [|reflexivity].
    apply (starts_with_firstn p (S n) (c :: r)) in E. congruence.
Qed.

(** C9. Each part of the export file name is the field, trimmed, with its
    runs of whitespace and slashes turned into underscores, the characters
    outside [[a-zA-Z0-9_-]] stripped, repeated underscores collapsed, and cut
    to 40 characters; an empty part falls back to "Company" or "Position"; the
    name is [CoverLetter_<Company>_<Position>.<ext>]. *)
Theorem slugifyFilePart_correct :
  (forall s, slugifyFilePart s = slug_spec s)
  /\ slugifyFilePart (js "Bashundhara Group / Ltd.") = js "Bashundhara_Group_Ltd"
  /\ (forall s,
        length (slugifyFilePart s) <= 40
        /\ forallb is_slug_char (slugifyFilePart s) = true
        /\ contains [UNDERSCORE; UNDERSCORE] (slugifyFilePart s) = false)
  /\ (forall company position ext,
        export_filename company position ext
        = js "CoverLetter_"
          ++ (if is_empty (slug_spec company) then js "Company"
              else slug_spec company)
          ++ js "_"
          ++ (if is_empty (slug_spec position) then js "Position"
              else slug_spec position)
          ++ js "." ++ ext)
  /\ export_filename (js " ") (js "Clerk, Level 2") (js "pdf")
     = js "CoverLetter_Company_Clerk_Level_2.pdf".
Proof.
  split; [exact slugifyFilePart_spec|].
  split; [vm_compute; reflexivity|].
  split; [|split].
  - intros s. rewrite slugifyFilePart_spec. unfold slug_spec.
    split; [apply firstn_le_length|]. split.
    + apply forallb_firstn, squeeze_forallb; [reflexivity|].
      apply forallb_filter_same.
    + apply contains_firstn, squeeze_no_double.
  - intros company position ext. unfold export_filename, file_part.
    rewrite !slugifyFilePart_spec. reflexivity.
  - vm_compute. reflexivity.
Qed.

(** ** [applyTemplate] *)

Lemma ident_not_space c : is_ident c = true -> is_space c = false.
Proof.
  intros H. apply not_true_iff_false. intros H'.
  class_arith H. class_arith H'. lia.
Qed.

Lemma space_not_ident c : is_space c = true -> is_ident c = false.
Proof.
  intros H. destruct (is_ident c) eqn:E; [|reflexivity].
  apply ident_not_space in E. congruence.
Qed.

Lemma take_drop_while p s : take_while p s ++ drop_while p s = s.
Proof.
  induction s as [|c s IH]; simpl; [reflexivity|].
  destruct (p c); simpl; [rewrite IH|]; reflexivity.
Qed.

Lemma take_while_all p s : forallb p (take_while p s) = true.
Proof.
  induction s as [|c s IH]; simpl; [reflexivity|].
  destruct (p c) eqn:E; simpl; [rewrite E|]; auto.
Qed.

Lemma drop_while_app p a b :
  forallb p a = true -> drop_while p (a ++ b) = drop_while p b.
Proof.
  induction a as [|c a IH]; simpl; [reflexivity|].
  intros H. apply andb_true_iff in H as [-> H]. auto.
Qed.

Lemma take_while_app p a b :
  forallb p a = true -> take_while p (a ++ b) = a ++ take_while p b.
Proof.
  induction a as [|c a IH]; simpl; [reflexivity|].
  intros H. apply andb_true_iff in H as [-> H]. f_equal. auto.
Qed.

(** What follows the identifier, blanks and the closing braces, starts with
    no identifier character. *)
Lemma take_ident_closing ws2 x :
  forallb is_space ws2 = true -> take_while is_ident (ws2 ++ RBRACE :: x) = [].
Proof.
  destruct ws2 as [|c ws2]; simpl; [reflexivity|].
  intros H. apply andb_true_iff in H as [H _].
  rewrite (space_not_ident _ H). reflexivity.
Qed.

Lemma drop_ident_closing ws2 x :
  forallb is_space ws2 = true ->
  drop_while is_ident (ws2 ++ RBRACE :: x) = ws2 ++ RBRACE :: x.
Proof.
  destruct ws2 as [|c ws2]; simpl; [reflexivity|].
  intros H. apply andb_true_iff in H as [H _].
  rewrite (space_not_ident _ H). reflexivity.
Qed.

Lemma drop_space_ident key y :
  forallb is_ident key = true -> drop_while is_space (key ++ y) = key ++ y
  \/ key = [].
Proof.
  destruct key as [|c key]; simpl; [right; reflexivity|].
  intros H. apply andb_true_iff in H as [H _].
  rewrite (ident_not_space _ H). left. reflexivity.
Qed.

(** The pattern matches a well-formed token, and captures its identifier. *)
Lemma match_placeholder_token ws1 key ws2 rest :
  forallb is_space ws1 = true -> forallb is_ident key = true -> key <> [] ->
  forallb is_space ws2 = true ->
  match_placeholder
    ([LBRACE; LBRACE] ++ ws1 ++ key ++ ws2 ++ [RBRACE; RBRACE] ++ rest)
  = Some (key, rest).
Proof.
  intros H1 Hk Hne H2.
  change (match_placeholder
            ([LBRACE; LBRACE] ++ ws1 ++ key ++ ws2 ++ [RBRACE; RBRACE] ++ rest))
    with (let r1 := drop_while is_space
                      (ws1 ++ key ++ ws2 ++ [RBRACE; RBRACE] ++ rest) in
          let key' := take_while is_ident r1 in
          if is_empty key' then None
          else
            match drop_while is_space (drop_while is_ident r1) with
            | e1 :: e2 :: rest' =>
                if N.eqb e1 RBRACE && N.eqb e2 RBRACE then Some (key', rest')
                else None
            | _ => None
            end).
  cbv zeta. rewrite (drop_while_app _ _ _ H1).
  destruct (drop_space_ident key (ws2 ++ [RBRACE; RBRACE] ++ rest) Hk) as [->|];
    [|contradiction].
  rewrite (take_while_app _ _ _ Hk), (drop_while_app _ _ _ Hk).
  change (ws2 ++ [RBRACE; RBRACE] ++ rest) with (ws2 ++ RBRACE :: RBRACE :: rest).
  rewrite (take_ident_closing _ _ H2), (drop_ident_closing _ _ H2), app_nil_r.
  rewrite (drop_while_app _ _ _ H2).
  destruct key; [contradiction|]. reflexivity.
Qed.

Lemma match_placeholder_inv s key rest :
  match_placeholder s = Some (key, rest) ->
  exists ws1 ws2,
    s = [LBRACE; LBRACE] ++ ws1 ++ key ++ ws2 ++ [RBRACE; RBRACE] ++ rest
    /\ forallb is_space ws1 = true /\ forallb is_ident key = true
    /\ key <> [] /\ forallb is_space ws2 = true.
Proof.
  destruct s as [|b1 [|b2 r]]; try discriminate.
  unfold match_placeholder.
  destruct (N.eqb_spec b1 LBRACE) as [->|]; [|discriminate].
  destruct (N.eqb_spec b2 LBRACE) as [->|]; [|discriminate].
  cbv zeta. cbn [andb].
  set (r1 := drop_while is_space r).
  destruct (take_while is_ident r1) as [|k key'] eqn:Ek; [discriminate|].
  cbn [is_empty].
  destruct (drop_while is_space (drop_while is_ident r1))
    as [|e1 [|e2 rest']] eqn:Er; try discriminate.
  destruct (N.eqb_spec e1 RBRACE) as [->|]; [|discriminate].
  destruct (N.eqb_spec e2 RBRACE) as [->|]; [|discriminate].
  cbn [andb]. intros H. inversion H; subst key rest'.
  exists (take_while is_space r), (take_while is_space (drop_while is_ident r1)).
  split; [|split; [apply take_while_all|split; [|split]]].
  - simpl. do 2 f_equal.
    rewrite <- (take_drop_while is_space r) at 1. f_equal. fold r1.
    rewrite <- (take_drop_while is_ident r1) at 1. rewrite Ek. f_equal.
    rewrite <- (take_drop_while is_space (drop_while is_ident r1)) at 1.
    rewrite Er. reflexivity.
  - rewrite <- Ek. apply take_while_all.
  - discriminate.
  - apply take_while_all.
Qed.

Lemma match_placeholder_consumes s a rest :
  match_placeholder s = Some (a, rest) -> length rest < length s.
Proof.
  intros H. destruct (match_placeholder_inv _ _ _ H) as (ws1 & ws2 & -> & _).
  rewrite !length_app. simpl. lia.
Qed.

Lemma match_placeholder_head s a rest :
  match_placeholder s = Some (a, rest) -> starts_with [LBRACE] s = true.
Proof.
  intros H. destruct (match_placeholder_inv _ _ _ H) as (ws1 & ws2 & -> & _).
  reflexivity.
Qed.

Lemma match_placeholder_not_brace c r :
  N.eqb c LBRACE = false -> match_placeholder (c :: r) = None.
Proof.
  intros H. destruct r as [|c2 r]; [reflexivity|].
  unfold match_placeholder. rewrite H. reflexivity.
Qed.

Lemma applyTemplate_token values ws1 key ws2 rest :
  forallb is_space ws1 = true -> forallb is_ident key = true -> key <> [] ->
  forallb is_space ws2 = true ->
  applyTemplate
    ([LBRACE; LBRACE] ++ ws1 ++ key ++ ws2 ++ [RBRACE; RBRACE] ++ rest) values
  = to_text (get_property values key) ++ applyTemplate rest values.
Proof.
  intros H1 Hk Hne H2. unfold applyTemplate.
  rewrite (replace_all_match match_placeholder _ match_placeholder_consumes
             _ key rest); [reflexivity|].
  apply match_placeholder_token; assumption.
Qed.

Lemma applyTemplate_skip values c r :
  match_placeholder (c :: r) = None ->
  applyTemplate (c :: r) values = c :: applyTemplate r values.
Proof. apply replace_all_skip. Qed.

Lemma applyTemplate_literal values lit : forall t,
  contains [LBRACE] lit = false ->
  applyTemplate (lit ++ t) values = lit ++ applyTemplate t values.
Proof.
  induction lit as [|c lit IH]; intros t H; [reflexivity|].
  apply contains_false_cons in H as [Hc H].
  simpl app. rewrite applyTemplate_skip, IH; auto.
  apply match_placeholder_not_brace.
  cbn [starts_with] in Hc. rewrite andb_true_r, N.eqb_sym in Hc. exact Hc.
Qed.

Lemma contains_char_app c a b :
  contains [c] (a ++ b) = contains [c] a || contains [c] b.
Proof.
  induction a as [|x a IH]; [reflexivity|].
  simpl app. rewrite !contains_cons, IH. cbn [starts_with].
  rewrite orb_assoc. reflexivity.
Qed.

Lemma no_brace_no_placeholder s :
  contains [LBRACE] s = false -> matches_in match_placeholder s = false.
Proof.
  induction s as [|c r IH]; intros H; [reflexivity|].
  rewrite matches_in_cons.
  destruct (match_placeholder (c :: r)) as [[key rest]|] eqn:E.
  - apply match_placeholder_head in E.
    rewrite contains_cons, E in H. discriminate.
  - apply contains_false_cons in H as [_ H]. auto.
Qed.

Lemma template_literal_match s key rest :
  match_placeholder s = Some (key, rest) ->
  template_literal s = template_literal rest.
Proof.
  intros H. unfold template_literal.
  rewrite (replace_all_match match_placeholder _ match_placeholder_consumes
             _ key rest H). reflexivity.
Qed.

Lemma template_literal_skip c r :
  match_placeholder (c :: r) = None ->
  template_literal (c :: r) = c :: template_literal r.
Proof. apply replace_all_skip. Qed.

Lemma template_keys_match s key rest :
  match_placeholder s = Some (key, rest) ->
  template_keys s = key :: template_keys rest.
Proof. apply captures_match, match_placeholder_consumes. Qed.

Lemma template_keys_skip c r :
  match_placeholder (c :: r) = None -> template_keys (c :: r) = template_keys r.
Proof. apply captures_skip. Qed.

(** X3.  When a placeholder is absent from the values object and is no member
    of [Object.prototype] either, it is replaced by the empty string; so is
    one whose value is null or undefined. *)
Lemma applyTemplate_absent_key (values : gmap jstr jsval) ws1 key ws2 rest :
  forallb is_space ws1 = true -> forallb is_ident key = true -> key <> [] ->
  forallb is_space ws2 = true ->
  values !! key = None /\ object_prototype key = VUndefined
  \/ values !! key = Some VNull \/ values !! key = Some VUndefined ->
  applyTemplate
    ([LBRACE; LBRACE] ++ ws1 ++ key ++ ws2 ++ [RBRACE; RBRACE] ++ rest) values
  = applyTemplate rest values.
Proof.
  intros H1 Hk Hne H2 Hv. rewrite applyTemplate_token by assumption.
  unfold get_property.
  destruct Hv as [[-> ->]|[->| ->]]; reflexivity.
Qed.

(** C5, at the input where it fails.  A placeholder named after a member of
    [Object.prototype] is absent from the values object, and yet it is
    replaced by the text of the inherited member, not by the empty string:
    [values[key]] also reads inherited properties. *)
Theorem applyTemplate_inherited_key :
  (∅ : gmap jstr jsval) !! js "constructor" = None
  /\ applyTemplate (js "{{constructor}}") ∅
     = js "function Object() { [native code] }"
  /\ rendered {| f_date := js "2026-02-11";
                 f_employerCompanyName := js "ABC Corp";
                 f_companyAddressLine1 := [];
                 f_companyAddressLine2 := [];
                 f_position := js "Clerk";
                 f_template := js "Dear {{toString}}," |}
     = js "Dear function toString() { [native code] },".
Proof. repeat split; vm_compute; reflexivity. Qed.

(** C6 fails as stated: the key exists, and its value brings a token into the
    output. *)
Lemma applyTemplate_leaves_token :
  template_literal (js "{{date}}") = []
  /\ template_keys (js "{{date}}") = [js "date"]
  /\ ({[ js "date" := VString (js "{{date}}") ]} : gmap jstr jsval) !! js "date"
     = Some (VString (js "{{date}}"))
  /\ applyTemplate (js "{{date}}") {[ js "date" := VString (js "{{date}}") ]}
     = js "{{date}}"
  /\ matches_in match_placeholder
       (applyTemplate (js "{{date}}") {[ js "date" := VString (js "{{date}}") ]})
     = true.
Proof. repeat split; vm_compute; reflexivity. Qed.

(** C6, amended.  For a template whose braces all belong to placeholders, and
    a values object that holds a string without an opening brace for every
    placeholder of the template, the output holds no opening brace, and so no
    [{{...}}] token. *)
Theorem applyTemplate_leaves_no_token (template : jstr) (values : gmap jstr jsval) :
  contains [LBRACE] (template_literal template) = false ->
  (forall key, In key (template_keys template) ->
     exists v, values !! key = Some (VString v) /\ contains [LBRACE] v = false) ->
  matches_in match_placeholder (applyTemplate template values) = false
  /\ contains [LBRACE] (applyTemplate template values) = false.
Proof.
  intros Hlit Hkeys.
  enough (contains [LBRACE] (applyTemplate template values) = false) as G
    by (split; [apply no_brace_no_placeholder|]; exact G).
  revert Hlit Hkeys. unfold applyTemplate.
  apply (replace_all_ind match_placeholder
           (fun key => let v := get_property values key in to_text v)
           match_placeholder_consumes
           (fun s out =>
              contains [LBRACE] (template_literal s) = false ->
              (forall key, In key (template_keys s) ->
                 exists v, values !! key = Some (VString v)
                           /\ contains [LBRACE] v = false) ->
              contains [LBRACE] out = false)).
  - reflexivity.
  - intros s key rest Hm IH Hlit Hkeys.
    rewrite (template_literal_match _ _ _ Hm) in Hlit.
    rewrite (template_keys_match _ _ _ Hm) in Hkeys.
    destruct (Hkeys key (or_introl eq_refl)) as (v & Hv & Hbrace).
    cbv zeta. unfold get_property. rewrite Hv. cbn [to_text].
    rewrite contains_char_app, Hbrace. apply IH; [exact Hlit|].
    intros k Hk. apply Hkeys. right. exact Hk.
  - intros c r Hm IH Hlit Hkeys.
    rewrite (template_literal_skip _ _ Hm) in Hlit.
    rewrite (template_keys_skip _ _ Hm) in Hkeys.
    apply contains_false_cons in Hlit as [Hc Hlit].
    rewrite contains_cons. cbn [starts_with] in *.
    rewrite Hc. apply IH; assumption.
Qed.

Lemma applyTemplate_leaves_no_token_witness :
  applyTemplate (js "Dear {{ name }}, re: {{position}}.")
    (<[js "name" := VString (js "Ms Lee")]>
       {[ js "position" := VString [] ]})
  = js "Dear Ms Lee, re: ."
  /\ matches_in match_placeholder
       (applyTemplate (js "Dear {{ name }}, re: {{position}}.")
          (<[js "name" := VString (js "Ms Lee")]>
             {[ js "position" := VString [] ]}))
     = false.
Proof.
  split; [vm_compute; reflexivity|].
  apply (applyTemplate_leaves_no_token
           (js "Dear {{ name }}, re: {{position}}.")
           (<[js "name" := VString (js "Ms Lee")]>
              {[ js "position" := VString [] ]})).
  - vm_compute. reflexivity.
  - intros key Hkey.
    assert (Hk : template_keys (js "Dear {{ name }}, re: {{position}}.")
                 = [js "name"; js "position"]) by (vm_compute; reflexivity).
    rewrite Hk in Hkey. destruct Hkey as [<-|[<-|[]]].
    + exists (js "Ms Lee"). split; vm_compute; reflexivity.
    + exists []. split; vm_compute; reflexivity.
Defined.

Lemma drop_while_app_stop p a c t :
  p c = false -> drop_while p (a ++ c :: t) = drop_while p a ++ c :: t.
Proof.
  intros H. induction a as [|x a IH]; simpl; [rewrite H; reflexivity|].
  destruct (p x); [exact IH|reflexivity].
Qed.

Lemma take_while_app_stop p a c t :
  p c = false -> take_while p (a ++ c :: t) = take_while p a.
Proof.
  intros H. induction a as [|x a IH]; simpl; [rewrite H; reflexivity|].
  destruct (p x); [rewrite IH|]; reflexivity.
Qed.

(** A match that starts before two opening braces ends before them: none of
    the characters that the pattern reads after its own two braces is an
    opening brace. *)
Lemma match_placeholder_before_token x t :
  x <> [] ->
  match_placeholder (x ++ LBRACE :: LBRACE :: t)
  = match match_placeholder x with
    | Some (key, rest) => Some (key, rest ++ LBRACE :: LBRACE :: t)
    | None => None
    end.
Proof.
  intros Hx. destruct x as [|b1 [|b2 r]]; [contradiction| |].
  - unfold match_placeholder. cbn [app].
    destruct (N.eqb b1 LBRACE); reflexivity.
  - unfold match_placeholder. cbn [app]. cbv zeta.
    destruct (N.eqb b1 LBRACE && N.eqb b2 LBRACE); [|reflexivity].
    rewrite (drop_while_app_stop is_space r LBRACE (LBRACE :: t) eq_refl).
    rewrite (take_while_app_stop is_ident _ LBRACE (LBRACE :: t) eq_refl).
    destruct (is_empty (take_while is_ident (drop_while is_space r)));
      [reflexivity|].
    rewrite (drop_while_app_stop is_ident _ LBRACE (LBRACE :: t) eq_refl).
    rewrite (drop_while_app_stop is_space _ LBRACE (LBRACE :: t) eq_refl).
    destruct (drop_while is_space (drop_while is_ident (drop_while is_space r)))
      as [|e1 [|e2 rest]]; cbn [app].
    + reflexivity.
    + destruct (N.eqb e1 RBRACE); reflexivity.
    + destruct (N.eqb e1 RBRACE && N.eqb e2 RBRACE); reflexivity.
Qed.

(** The text before a placeholder is filled on its own, whatever it holds. *)
Lemma applyTemplate_before_token (values : gmap jstr jsval) t : forall lit : jstr,
  applyTemplate (lit ++ LBRACE :: LBRACE :: t) values
  = applyTemplate lit values ++ applyTemplate (LBRACE :: LBRACE :: t) values.
Proof.
  intros lit. remember (length lit) as n eqn:Hn. revert lit Hn.
  induction n as [n IH] using lt_wf_ind. intros lit Hn.
  destruct lit as [|c l]; [reflexivity|].
  pose proof (match_placeholder_before_token (c :: l) t ltac:(discriminate)) as Hm.
  unfold applyTemplate in *.
  destruct (match_placeholder (c :: l)) as [[key rest]|] eqn:E.
  - rewrite (replace_all_match match_placeholder _ match_placeholder_consumes
               _ key _ Hm).
    rewrite (replace_all_match match_placeholder _ match_placeholder_consumes
               _ key rest E).
    pose proof (match_placeholder_consumes _ _ _ E) as Hlen.
    rewrite (IH (length rest) ltac:(subst n; exact Hlen) rest eq_refl).
    rewrite app_assoc. reflexivity.
  - change ((c :: l) ++ LBRACE :: LBRACE :: t)
      with (c :: (l ++ LBRACE :: LBRACE :: t)) in *.
    rewrite (replace_all_skip match_placeholder _ _ _ Hm).
    rewrite (replace_all_skip match_placeholder _ _ _ E).
    rewrite (IH (length l) ltac:(subst n; simpl; lia) l eq_refl).
    reflexivity.
Qed.

(** C10.  One pass, and replacement text is never scanned again: whatever
    the template holds before and after a placeholder, the placeholder is
    replaced by its value as it stands, whatever the value holds, between
    the filled text before it and the filled text after it; where the text
    before it holds no opening brace, that text is kept as it is. *)
Theorem applyTemplate_single_pass (values : gmap jstr jsval) lit ws1 key ws2 rest v :
  forallb is_space ws1 = true -> forallb is_ident key = true -> key <> [] ->
  forallb is_space ws2 = true ->
  values !! key = Some (VString v) ->
  applyTemplate
    (lit ++ [LBRACE; LBRACE] ++ ws1 ++ key ++ ws2 ++ [RBRACE; RBRACE] ++ rest)
    values
  = applyTemplate lit values ++ v ++ applyTemplate rest values
  /\ (contains [LBRACE] lit = false ->
      applyTemplate
        (lit ++ [LBRACE; LBRACE] ++ ws1 ++ key ++ ws2 ++ [RBRACE; RBRACE] ++ rest)
        values
      = lit ++ v ++ applyTemplate rest values).
Proof.
  intros H1 Hk Hne H2 Hv.
  assert (Htok : applyTemplate
                   ([LBRACE; LBRACE] ++ ws1 ++ key ++ ws2 ++ [RBRACE; RBRACE] ++ rest)
                   values
                 = v ++ applyTemplate rest values).
  { rewrite applyTemplate_token by assumption.
    unfold get_property. rewrite Hv. reflexivity. }
  split.
  - change (lit ++ [LBRACE; LBRACE] ++ ws1 ++ key ++ ws2 ++ [RBRACE; RBRACE] ++ rest)
      with (lit ++ LBRACE :: LBRACE
                   :: (ws1 ++ key ++ ws2 ++ [RBRACE; RBRACE] ++ rest)).
    rewrite applyTemplate_before_token. f_equal. exact Htok.
  - intros Hlit. rewrite (applyTemplate_literal values lit _ Hlit), Htok.
    reflexivity.
Qed.

Lemma applyTemplate_single_pass_witness :
  applyTemplate (js "Date: {{ date }}.")
    (<[js "date" := VString (js "{{date}} {{position}}")]>
       {[ js "position" := VString (js "Clerk") ]})
  = js "Date: {{date}} {{position}}."
  /\ applyTemplate (js "{{position}} { {{{date}}}")
       (<[js "date" := VString (js "{{date}} {{position}}")]>
          {[ js "position" := VString (js "Clerk") ]})
     = js "Clerk { {{{date}} {{position}}}".
Proof.
  split.
  - apply (applyTemplate_single_pass
             (<[js "date" := VString (js "{{date}} {{position}}")]>
                {[ js "position" := VString (js "Clerk") ]})
             (js "Date: ") [SP] (js "date") [SP] (js ".")
             (js "{{date}} {{position}}")).
    + reflexivity.
    + reflexivity.
    + discriminate.
    + reflexivity.
    + vm_compute. reflexivity.
    + reflexivity.
  - etransitivity.
    + refine (proj1 (applyTemplate_single_pass
                       (<[js "date" := VString (js "{{date}} {{position}}")]>
                          {[ js "position" := VString (js "Clerk") ]})
                       (js "{{position}} { {") [] (js "date") [] (js "}")
                       (js "{{date}} {{position}}") _ _ _ _ _)).
      * reflexivity.
      * reflexivity.
      * discriminate.
      * reflexivity.
      * vm_compute. reflexivity.
    + vm_compute. reflexivity.
Defined.

(** ** [formatToCanadianLong] *)

Lemma is_digit_offset k : (k < 10)%N -> is_digit (48 + k) = true.
Proof.
  intros H. unfold is_digit, in_range.
  apply andb_true_iff. rewrite !N.leb_le. lia.
Qed.

Lemma digit_value_offset k : digit_value (48 + k) = k.
Proof. unfold digit_value. lia. Qed.

Lemma mod_10_lt n : (n mod 10 < 10)%N.
Proof. apply N.mod_lt. discriminate. Qed.

Lemma number_of_two_digits n : (n < 100)%N -> number_of (two_digits n) = n.
Proof.
  intros H. unfold number_of, two_digits. cbn [fold_left].
  rewrite !digit_value_offset.
  pose proof (N.div_mod n 10 ltac:(discriminate)). lia.
Qed.

Lemma number_of_four_digits n : (n < 10000)%N -> number_of (four_digits n) = n.
Proof.
  intros H. unfold number_of, four_digits. cbn [fold_left].
  rewrite !digit_value_offset.
  pose proof (N.div_mod n 10 ltac:(discriminate)) as E1.
  pose proof (N.div_mod (n / 10) 10 ltac:(discriminate)) as E2.
  pose proof (N.div_mod (n / 100) 10 ltac:(discriminate)) as E3.
  rewrite N.Div0.div_div in E2.
  rewrite N.Div0.div_div in E3.
  change (10 * 10)%N with 100%N in E2. change (100 * 10)%N with 1000%N in E3.
  lia.
Qed.

Lemma two_digits_are_digits n :
  (n < 100)%N -> forallb is_digit (two_digits n) = true.
Proof.
  intros H. unfold two_digits. cbn [forallb].
  rewrite !is_digit_offset; [reflexivity|apply mod_10_lt|].
  apply N.Div0.div_lt_upper_bound. lia.
Qed.

Lemma four_digits_are_digits n :
  (n < 10000)%N -> forallb is_digit (four_digits n) = true.
Proof.
  intros H. unfold four_digits. cbn [forallb].
  rewrite !is_digit_offset; [reflexivity|try apply mod_10_lt..].
  apply N.Div0.div_lt_upper_bound. lia.
Qed.

Lemma days_in_month_le y m : (days_in_month y m <= 31)%N.
Proof.
  unfold days_in_month.
  repeat match goal with |- context [if ?b then _ else _] => destruct b end; lia.
Qed.

Lemma is_iso_date_iso_string y m d :
  (y < 10000)%N -> (m < 100)%N -> (d < 100)%N ->
  is_iso_date (iso_string y m d) = true.
Proof.
  intros Hy Hm Hd.
  pose proof (four_digits_are_digits y Hy) as Fy.
  pose proof (two_digits_are_digits m Hm) as Fm.
  pose proof (two_digits_are_digits d Hd) as Fd.
  unfold iso_string, four_digits, two_digits in *.
  cbn [app is_iso_date forallb] in *.
  repeat (apply andb_true_iff in Fy as [? Fy]).
  repeat (apply andb_true_iff in Fm as [? Fm]).
  repeat (apply andb_true_iff in Fd as [? Fd]).
  repeat match goal with
         | E : is_digit _ = true |- _ => rewrite E; clear E
         end.
  reflexivity.
Qed.

Lemma parse_iso_date_iso_string y m d :
  (y < 10000)%N -> (1 <= m <= 12)%N -> (1 <= d <= days_in_month y m)%N ->
  parse_iso_date (iso_string y m d) = Some {| year := y; month := m; day := d |}.
Proof.
  intros Hy Hm Hd. pose proof (days_in_month_le y m) as Hdm.
  pose proof (number_of_four_digits y Hy) as Ey.
  pose proof (number_of_two_digits m ltac:(lia)) as Em.
  pose proof (number_of_two_digits d ltac:(lia)) as Ed.
  unfold iso_string, four_digits, two_digits in *.
  cbn [app parse_iso_date].
  rewrite Ey, Em, Ed.
  replace (N.leb 1 m && N.leb m 12 && N.leb 1 d && N.leb d 31)
    with true by (symmetry; rewrite !andb_true_iff, !N.leb_le; lia).
  replace (N.leb d (days_in_month y m))
    with true by (symmetry; apply N.leb_le; lia).
  reflexivity.
Qed.

(** A parsed date has a month of the year and a day 1-31. *)
Lemma parse_iso_date_range value d :
  parse_iso_date value = Some d ->
  (1 <= month d <= 12)%N /\ (1 <= day d <= 31)%N.
Proof.
  unfold parse_iso_date.
  destruct value as [|y1 [|y2 [|y3 [|y4 [|h1 [|m1 [|m2 [|h2 [|d1 [|d2 [|]]]]]]]]]]];
    try discriminate.
  cbv zeta.
  set (y := number_of [y1; y2; y3; y4]).
  set (m := number_of [m1; m2]). set (n := number_of [d1; d2]).
  destruct (N.leb 1 m && N.leb m 12 && N.leb 1 n && N.leb n 31) eqn:Hc;
    [|discriminate].
  repeat (apply andb_true_iff in Hc; destruct Hc as [Hc ?]).
  rewrite N.leb_le in *.
  destruct (N.leb_spec n (days_in_month y m)) as [Hd|Hd];
    intros E; inversion E; subst d; cbn [month day]; [lia|].
  destruct (N.eq_dec m 12%N) as [Em|Em].
  - rewrite Em in Hd. change (days_in_month y 12%N) with 31%N in Hd. lia.
  - lia.
Qed.

(** C7 fails as stated: English (Canada) puts the month first. *)
Lemma formatToCanadianLong_month_first :
  formatToCanadianLong (js "2026-02-11") = js "February 11, 2026"
  /\ formatToCanadianLong (js "2026-02-11") <> js "11 February 2026".
Proof. split; [vm_compute; reflexivity|vm_compute; discriminate]. Qed.

(** C7, amended.  An input that does not match [YYYY-MM-DD] is returned as it
    is; the canonical form of a calendar date becomes the long month name,
    the day on two digits, a comma and the year:
    ["2026-02-11"] gives ["February 11, 2026"]. *)
Theorem formatToCanadianLong_correct :
  (forall value, is_iso_date value = false -> formatToCanadianLong value = value)
  /\ (forall y m d,
        (1 <= y < 10000)%N -> (1 <= m <= 12)%N ->
        (1 <= d <= days_in_month y m)%N ->
        formatToCanadianLong (iso_string y m d)
        = month_name m ++ js " " ++ two_digits d ++ js ", " ++ decimal y)
  /\ formatToCanadianLong (js "2026-02-11") = js "February 11, 2026"
  /\ formatToCanadianLong (js "11 February 2026") = js "11 February 2026".
Proof.
  split; [|split; [|split; vm_compute; reflexivity]].
  - intros value H. unfold formatToCanadianLong. rewrite H.
    destruct value; reflexivity.
  - intros y m d Hy Hm Hd. pose proof (days_in_month_le y m) as Hdm.
    unfold formatToCanadianLong.
    rewrite is_iso_date_iso_string by lia.
    rewrite parse_iso_date_iso_string by lia.
    unfold intl_format_en_CA, era_year. cbn [year month day].
    replace (N.eqb y 0) with false by (symmetry; apply N.eqb_neq; lia).
    reflexivity.
Qed.

Lemma formatToCanadianLong_correct_witness :
  formatToCanadianLong (js "Feb 11") = js "Feb 11"
  /\ formatToCanadianLong (iso_string 2024 2 29) = js "February 29, 2024".
Proof.
  destruct formatToCanadianLong_correct as [H1 [H2 _]]. split.
  - apply (H1 (js "Feb 11")). reflexivity.
  - apply (H2 2024 2 29)%N; vm_compute; split; congruence.
Defined.

(** ** [wrapLine]: the width of the output lines *)

Section WrapWidth.
Variable measure : jstr -> Z.
Variable maxWidth : Z.
(** The words of the line being wrapped. *)
Variable all_words : list jstr.

#[local] Abbreviation line_ok := (wrapped_line_ok measure maxWidth all_words).

Lemma push_nonempty_ok lines current :
  Forall line_ok lines -> line_ok current ->
  Forall line_ok (push_nonempty lines current).
Proof.
  intros Hl Hc. unfold push_nonempty. destruct (is_empty current); [exact Hl|].
  apply Forall_app. split; [exact Hl|]. constructor; [exact Hc|constructor].
Qed.

Lemma pack_chars_ok w : forall chs lines chunk,
  In w all_words -> (maxWidth < measure w)%Z ->
  (forall ch, In ch chs -> In ch (code_points w)) ->
  Forall line_ok lines -> line_ok chunk ->
  Forall line_ok (fst (pack_chars measure maxWidth chs lines chunk))
  /\ line_ok (snd (pack_chars measure maxWidth chs lines chunk)).
Proof.
  intros chs. induction chs as [|ch chs IH]; intros lines chunk Hw Hwide Hin Hl Hc.
  - simpl. auto.
  - simpl. destruct (Z.leb_spec (measure (chunk ++ ch)) maxWidth) as [Hfit|Hno].
    + apply IH; auto.
      * intros c Hc'. apply Hin. right. exact Hc'.
      * left. exact Hfit.
    + apply IH; auto.
      * intros c Hc'. apply Hin. right. exact Hc'.
      * apply Forall_app. split; [exact Hl|]. constructor; [exact Hc|constructor].
      * destruct (Z.leb_spec (measure ch) maxWidth) as [Hch|Hch]; [left; exact Hch|].
        right. right. exists w. repeat split; auto. apply Hin. left. reflexivity.
Qed.

Lemma wrap_words_ok : forall words lines current,
  (forall w, In w words -> In w all_words) ->
  Forall line_ok lines -> line_ok current ->
  Forall line_ok (wrap_words measure maxWidth words lines current).
Proof.
  intros words. induction words as [|word words IH]; intros lines current Hin Hl Hc.
  - simpl. apply push_nonempty_ok; assumption.
  - assert (Hin' : forall w, In w words -> In w all_words)
      by (intros w Hw; apply Hin; right; exact Hw).
    cbn [wrap_words]. cbv zeta.
    destruct (Z.leb_spec
                (measure (if is_empty current then word else current ++ [SP] ++ word))
                maxWidth) as [Hfit|Hno].
    + apply IH; auto. left. exact Hfit.
    + pose proof (push_nonempty_ok lines current Hl Hc) as Hl1.
      destruct (Z.ltb_spec maxWidth (measure word)) as [Hwide|Hnarrow].
      * destruct (pack_chars_ok word (code_points word)
                    (push_nonempty lines current) [])
          as [H1 H2]; auto.
        -- apply Hin. left. reflexivity.
        -- right. left. reflexivity.
        -- destruct (pack_chars measure maxWidth (code_points word)
                       (push_nonempty lines current) []) as [lines2 chunk].
           apply IH; auto.
      * apply IH; auto. left. exact Hnarrow.
Qed.
End WrapWidth.

(** C1 fails as stated (here with the length as the measure): the word
    [abcdefg], wider than 3, is not kept on a line of its own, it is packed
    character by character into three lines that fit; at width 0 the lines
    of [ab] that exceed the width are its two characters, not the word, and
    an empty line comes before them; and where the empty string itself does
    not fit, an empty line exceeds the width. *)
Lemma wrapLine_splits_wide_word :
  split_ws (js "abcdefg") = [js "abcdefg"]
  /\ wrapLine (fun s => Z.of_nat (length s)) 3 (js "abcdefg")
     = [js "abc"; js "def"; js "g"]
  /\ split_ws (js "ab") = [js "ab"]
  /\ wrapLine (fun s => Z.of_nat (length s)) 0 (js "ab") = [[]; js "a"; js "b"]
  /\ wrapLine (fun s => Z.of_nat (length s)) (-1) (js "a") = [[]; js "a"]
  /\ wrapLine (fun s => Z.of_nat (length s)) (-1) [] = [[]].
Proof. repeat split; vm_compute; reflexivity. Qed.

(** C1, amended.  Every line returned by [wrapLine] fits in [maxWidth], or
    is empty, or is one single character (code point), itself wider than
    [maxWidth], of a word of the line that is wider than [maxWidth]. *)
Theorem wrapLine_width (measure : jstr -> Z) (maxWidth : Z) (line : jstr) :
  Forall
    (fun l =>
       (measure l <= maxWidth)%Z
       \/ l = []
       \/ exists w, In w (split_ws line) /\ (maxWidth < measure w)%Z
                    /\ In l (code_points w) /\ (maxWidth < measure l)%Z)
    (wrapLine measure maxWidth line).
Proof.
  unfold wrapLine. destruct (is_empty (trim line)).
  - constructor; [|constructor]. right. left. reflexivity.
  - apply (wrap_words_ok measure maxWidth (split_ws line)).
    + auto.
    + constructor.
    + right. left. reflexivity.
Qed.

(** ** [wrapLine]: the words of the output *)

Lemma split_ws_not_nil s : split_ws s <> [].
Proof.
  induction s as [|c r IH]; [discriminate|]. simpl.
  destruct (is_space c).
  - destruct r as [|c' r']; [discriminate|].
    destruct (is_space c'); [exact IH|discriminate].
  - destruct (split_ws r); discriminate.
Qed.

Lemma split_ws_space c r :
  is_space c = true ->
  split_ws (c :: r) = split_ws r \/ split_ws (c :: r) = [] :: split_ws r.
Proof.
  intros H. simpl. rewrite H. destruct r as [|c' r'].
  - right. reflexivity.
  - destruct (is_space c'); [left|right]; reflexivity.
Qed.

Lemma split_ws_char c r :
  is_space c = false ->
  split_ws (c :: r) = (c :: hd [] (split_ws r)) :: tl (split_ws r).
Proof.
  intros H. simpl. rewrite H.
  pose proof (split_ws_not_nil r). destruct (split_ws r); [contradiction|].
  reflexivity.
Qed.

Lemma words_space c r : is_space c = true -> words (c :: r) = words r.
Proof.
  intros H. unfold words.
  destruct (split_ws_space c r H) as [-> | ->]; reflexivity.
Qed.

Lemma words_char c r :
  is_space c = false ->
  words (c :: r)
  = (c :: hd [] (split_ws r))
    :: List.filter (fun w => negb (is_empty w)) (tl (split_ws r)).
Proof. intros H. unfold words. rewrite (split_ws_char c r H). reflexivity. Qed.

Lemma split_ws_hd_space r : forall c,
  is_space c = true -> hd [] (split_ws (c :: r)) = [].
Proof.
  induction r as [|c' r IH]; intros c Hc.
  - simpl. rewrite Hc. reflexivity.
  - change (split_ws (c :: c' :: r))
      with (if is_space c
            then (if is_space c' then split_ws (c' :: r)
                  else [] :: split_ws (c' :: r))
            else match split_ws (c' :: r) with
                 | piece :: pieces => (c :: piece) :: pieces
                 | [] => [[c]]
                 end).
    rewrite Hc. destruct (is_space c') eqn:Hc'; [|reflexivity].
    apply (IH c' Hc').
Qed.

(** The first piece stops at the first whitespace. *)
Lemma split_ws_hd_app a : forall c b,
  is_space c = true -> hd [] (split_ws (a ++ c :: b)) = hd [] (split_ws a).
Proof.
  induction a as [|x a IH]; intros c b Hc.
  - apply split_ws_hd_space, Hc.
  - simpl app. destruct (is_space x) eqn:Hx.
    + rewrite !split_ws_hd_space by exact Hx. reflexivity.
    + rewrite !(split_ws_char x _ Hx). simpl. f_equal. apply IH, Hc.
Qed.

Lemma words_nil : words [] = [].
Proof. reflexivity. Qed.

Lemma words_eq_hd_tl s :
  words s
  = List.filter (fun w => negb (is_empty w)) [hd [] (split_ws s)]
    ++ List.filter (fun w => negb (is_empty w)) (tl (split_ws s)).
Proof.
  unfold words. pose proof (split_ws_not_nil s).
  destruct (split_ws s) as [|p ps]; [contradiction|]. simpl.
  destruct (negb (is_empty p)); reflexivity.
Qed.

(** A whitespace character between two texts separates their words. *)
Lemma words_app_space a : forall c b,
  is_space c = true -> words (a ++ c :: b) = words a ++ words b.
Proof.
  induction a as [|x a IH]; intros c b Hc.
  - apply words_space, Hc.
  - simpl app. destruct (is_space x) eqn:Hx.
    + rewrite !(words_space x _ Hx). apply IH, Hc.
    + rewrite !(words_char x _ Hx). simpl. f_equal.
      * f_equal. apply split_ws_hd_app, Hc.
      * specialize (IH c b Hc).
        rewrite (words_eq_hd_tl (a ++ c :: b)), (words_eq_hd_tl a) in IH.
        rewrite (split_ws_hd_app a c b Hc) in IH.
        rewrite <- app_assoc in IH. apply app_inv_head in IH. exact IH.
Qed.

Lemma split_ws_word w :
  forallb (fun c => negb (is_space c)) w = true -> split_ws w = [w].
Proof.
  induction w as [|c w IH]; intros H; [reflexivity|].
  simpl in H. apply andb_true_iff in H as [Hc Hw].
  apply negb_true_iff in Hc. rewrite (split_ws_char c w Hc), (IH Hw).
  reflexivity.
Qed.

Lemma words_word w :
  forallb (fun c => negb (is_space c)) w = true ->
  words w = if is_empty w then [] else [w].
Proof.
  intros H. unfold words. rewrite (split_ws_word w H).
  destruct w; reflexivity.
Qed.

(** The pieces of a split hold no whitespace. *)
Lemma split_ws_pieces s :
  Forall (fun w => forallb (fun c => negb (is_space c)) w = true) (split_ws s).
Proof.
  induction s as [|c r IH]; [repeat constructor|].
  destruct (is_space c) eqn:Hc.
  - destruct (split_ws_space c r Hc) as [-> | ->]; [exact IH|].
    constructor; [reflexivity|exact IH].
  - rewrite (split_ws_char c r Hc).
    pose proof (split_ws_not_nil r).
    destruct (split_ws r) as [|p ps]; [contradiction|].
    inversion IH; subst. constructor; [|assumption].
    simpl. rewrite Hc. assumption.
Qed.

Lemma words_join_sp lines :
  words (join_sp lines) = concat (map words lines).
Proof.
  induction lines as [|l ls IH]; [reflexivity|].
  destruct ls as [|l2 ls].
  - simpl. rewrite app_nil_r. reflexivity.
  - change (join_sp (l :: l2 :: ls)) with (l ++ SP :: join_sp (l2 :: ls)).
    rewrite words_app_space by reflexivity. rewrite IH. reflexivity.
Qed.

Lemma drop_while_nil p s : drop_while p s = [] -> forallb p s = true.
Proof.
  induction s as [|c s IH]; simpl; [reflexivity|].
  destruct (p c); [exact IH|discriminate].
Qed.

Lemma drop_while_rev_nil p s :
  drop_while p (rev s) = [] -> forallb p s = true.
Proof.
  intros H. apply drop_while_nil in H.
  rewrite forallb_forall in *. intros c Hc. apply H, in_rev.
  rewrite rev_involutive. exact Hc.
Qed.

(** [!line.trim()] holds of the lines of whitespace only. *)
Lemma trim_empty_blank s : is_empty (trim s) = true -> forallb is_space s = true.
Proof.
  unfold trim. intros H.
  destruct (rev (drop_while is_space (rev (drop_while is_space s)))) eqn:E;
    [|discriminate].
  apply (f_equal (@rev N)) in E. rewrite rev_involutive in E. simpl in E.
  apply drop_while_rev_nil in E.
  rewrite <- (take_drop_while is_space s), forallb_app, E, take_while_all.
  reflexivity.
Qed.

Lemma words_blank s : forallb is_space s = true -> words s = [].
Proof.
  induction s as [|c s IH]; intros H; [reflexivity|].
  simpl in H. apply andb_true_iff in H as [Hc Hs].
  rewrite (words_space c s Hc). auto.
Qed.

Section WrapWords.
Variable measure : jstr -> Z.
Variable maxWidth : Z.

Lemma concat_words_push lines current :
  concat (map words (push_nonempty lines current))
  = concat (map words lines) ++ words current.
Proof.
  unfold push_nonempty. destruct current as [|c r]; simpl.
  - rewrite app_nil_r. reflexivity.
  - rewrite map_app, concat_app. simpl. rewrite app_nil_r. reflexivity.
Qed.

Lemma words_candidate current word :
  forallb (fun c => negb (is_space c)) word = true ->
  words (if is_empty current then word else current ++ [SP] ++ word)
  = words current ++ List.filter (fun w => negb (is_empty w)) [word].
Proof.
  intros Hw.
  assert (E : words word = List.filter (fun w => negb (is_empty w)) [word])
    by (rewrite (words_word word Hw); destruct word; reflexivity).
  destruct current as [|c r]; [exact E|].
  cbn [is_empty]. change ((c :: r) ++ [SP] ++ word) with ((c :: r) ++ SP :: word).
  rewrite words_app_space by reflexivity. rewrite E. reflexivity.
Qed.

(** As long as no word has to be cut, the loop keeps the words and their
    order. *)
Lemma wrap_words_words : forall ws lines current,
  Forall (fun w => forallb (fun c => negb (is_space c)) w = true
                   /\ (w <> [] -> (measure w <= maxWidth)%Z)) ws ->
  concat (map words (wrap_words measure maxWidth ws lines current))
  = concat (map words lines) ++ words current
    ++ List.filter (fun w => negb (is_empty w)) ws.
Proof.
  intros ws. induction ws as [|word ws IH]; intros lines current Hws.
  - simpl. rewrite app_nil_r. apply concat_words_push.
  - inversion Hws as [|? ? [Hsp Hfit] Hws']; subst.
    change (word :: ws) with ([word] ++ ws) at 2. rewrite List.filter_app.
    cbn [wrap_words]. cbv zeta.
    destruct (Z.leb_spec
                (measure (if is_empty current then word else current ++ [SP] ++ word))
                maxWidth) as [_|_].
    + rewrite (IH _ _ Hws'), (words_candidate current word Hsp).
      rewrite <- !app_assoc. reflexivity.
    + destruct (Z.ltb_spec maxWidth (measure word)) as [Hwide|_].
      * destruct word as [|c r]; [|specialize (Hfit ltac:(discriminate)); lia].
        simpl. rewrite (IH _ _ Hws'), concat_words_push.
        rewrite <- !app_assoc. reflexivity.
      * rewrite (IH _ _ Hws'), concat_words_push, (words_word word Hsp).
        rewrite <- !app_assoc. f_equal. f_equal. f_equal.
        destruct word; reflexivity.
Qed.
End WrapWords.

(** C2 fails as stated: the pieces of a word cut character by character come
    back separated by spaces. *)
Lemma wrapLine_cut_word_not_rejoined :
  join_sp (wrapLine (fun s => Z.of_nat (length s)) 3 (js "abcdefg"))
  = js "abc def g"
  /\ normalize_ws (join_sp (wrapLine (fun s => Z.of_nat (length s)) 3 (js "abcdefg")))
     = js "abc def g"
  /\ normalize_ws (js "abcdefg") = js "abcdefg".
Proof. repeat split; vm_compute; reflexivity. Qed.

(** C2, amended.  When no word of the line is wider than [maxWidth], the
    lines returned by [wrapLine], joined by single spaces, are the line up to
    whitespace normalization: the same words in the same order; and a blank
    or empty line gives exactly one empty line. *)
Theorem wrapLine_reconstruction (measure : jstr -> Z) (maxWidth : Z) (line : jstr) :
  (forall w, In w (split_ws line) -> w <> [] -> (measure w <= maxWidth)%Z) ->
  normalize_ws (join_sp (wrapLine measure maxWidth line)) = normalize_ws line
  /\ words (join_sp (wrapLine measure maxWidth line)) = words line
  /\ (is_empty (trim line) = true -> wrapLine measure maxWidth line = [[]]).
Proof.
  intros Hfit.
  assert (Hw : words (join_sp (wrapLine measure maxWidth line)) = words line).
  { unfold wrapLine. destruct (is_empty (trim line)) eqn:Hblank.
    - apply trim_empty_blank, words_blank in Hblank. rewrite Hblank. reflexivity.
    - rewrite words_join_sp, wrap_words_words; [reflexivity|].
      pose proof (split_ws_pieces line) as Hp.
      rewrite List.Forall_forall in *. intros w Hin. split; [apply Hp, Hin|].
      apply Hfit, Hin. }
  split; [|split].
  - unfold normalize_ws. rewrite Hw. reflexivity.
  - exact Hw.
  - intros Hblank. unfold wrapLine. rewrite Hblank. reflexivity.
Qed.

Lemma wrapLine_reconstruction_witness :
  wrapLine (fun s => Z.of_nat (length s)) 12 (js "  Dear  Hiring Manager, ")
  = [js "Dear Hiring"; js "Manager, "]
  /\ normalize_ws
       (join_sp (wrapLine (fun s => Z.of_nat (length s)) 12
                   (js "  Dear  Hiring Manager, ")))
     = normalize_ws (js "  Dear  Hiring Manager, ").
Proof.
  split; [vm_compute; reflexivity|].
  apply (wrapLine_reconstruction (fun s => Z.of_nat (length s)) 12
           (js "  Dear  Hiring Manager, ")).
  intros w Hin _.
  assert (E : split_ws (js "  Dear  Hiring Manager, ")
              = [[]; js "Dear"; js "Hiring"; js "Manager,"; []])
    by (vm_compute; reflexivity).
  rewrite E in Hin.
  destruct Hin as [<-|[<-|[<-|[<-|[<-|[]]]]]]; vm_compute; discriminate.
Defined.

(** ** The line-placing loop *)

Lemma lines_per_page_48 : lines_per_page = 48.
Proof. reflexivity. Qed.

Lemma line_position_succ n :
  line_position (S n) = (line_position n - LINE_HEIGHT)%Z.
Proof. unfold line_position. lia. Qed.

(** The first [lines_per_page] positions are on the page, the next ones are
    below the bottom margin. *)
Lemma line_position_margin n :
  (line_position n <? MARGIN)%Z = (lines_per_page <? n).
Proof.
  rewrite lines_per_page_48.
  destruct (Nat.ltb_spec 48 n); [apply Z.ltb_lt|apply Z.ltb_ge];
    unfold line_position, PAGE_H, MARGIN, LINE_HEIGHT; lia.
Qed.

Lemma draw_lines_spec : forall ls st n,
  cursor st = line_position n -> n <= lines_per_page ->
  drawn (draw_lines ls st)
  = drawn st ++ combine ls (map line_position (seq (S n) (lines_per_page - n)))
  /\ cursor (draw_lines ls st)
     = line_position (min (n + length ls) (S lines_per_page)).
Proof.
  intros ls. induction ls as [|l ls IH]; intros st n Hc Hn.
  - simpl. rewrite app_nil_r, Nat.add_0_r, Nat.min_l by lia. auto.
  - cbn [draw_lines]. cbv zeta.
    rewrite Hc, <- line_position_succ, line_position_margin.
    destruct (Nat.ltb_spec lines_per_page (S n)) as [Hover|Hfit].
    + cbn [drawn cursor]. replace (lines_per_page - n) with 0 by lia.
      simpl. rewrite app_nil_r. split; [reflexivity|].
      f_equal. lia.
    + destruct (IH {| cursor := line_position (S n);
                      drawn := drawn st ++ [(l, line_position (S n))] |}
                  (S n) eq_refl Hfit) as [Hd Hcur].
      rewrite Hd, Hcur. cbn [drawn]. split.
      * replace (lines_per_page - n) with (S (lines_per_page - S n)) by lia.
        cbn [seq map combine]. rewrite <- app_assoc. reflexivity.
      * f_equal. simpl. lia.
Qed.

Lemma draw_lines_app a : forall b st,
  overflow st = false ->
  draw_lines (a ++ b) st
  = if overflow (draw_lines a st) then draw_lines a st
    else draw_lines b (draw_lines a st).
Proof.
  induction a as [|l a IH]; intros b st Hst.
  - simpl. rewrite Hst. reflexivity.
  - cbn [app draw_lines]. cbv zeta.
    destruct (cursor st - LINE_HEIGHT <? MARGIN)%Z eqn:E.
    + unfold overflow. cbn [cursor]. rewrite E. reflexivity.
    + apply IH. unfold overflow. cbn [cursor]. exact E.
Qed.

(** The two nested loops place the wrapped lines of the whole text one after
    the other. *)
Lemma draw_paragraphs_flat measure : forall ps st,
  overflow st = false ->
  draw_paragraphs measure ps st
  = draw_lines (concat (map (wrapLine measure maxWidth) ps)) st.
Proof.
  intros ps. induction ps as [|p ps IH]; intros st Hst; [reflexivity|].
  cbn [draw_paragraphs map concat]. cbv zeta.
  rewrite (draw_lines_app _ _ _ Hst).
  destruct (overflow (draw_lines (wrapLine measure maxWidth p) st)) eqn:E;
    [reflexivity|].
  apply IH, E.
Qed.

Lemma combine_positions (ls : list jstr) (ys : list Z) :
  Forall (fun y => (MARGIN <= y)%Z) ys ->
  Forall (fun p : jstr * Z => (MARGIN <= snd p)%Z) (combine ls ys).
Proof.
  revert ys. induction ls as [|l ls IH]; intros ys H; [constructor|].
  destruct ys as [|y ys]; [constructor|].
  inversion H; subst. constructor; [assumption|]. apply IH. assumption.
Qed.

(** C8.  The cursor starts at [PAGE_H - MARGIN] and goes down by
    [LINE_HEIGHT] for every output line; the lines are drawn in order at the
    successive cursor positions, never below the bottom margin; when the
    number of wrapped lines times the line height exceeds
    [PAGE_H - 2 * MARGIN], the overflow test holds at the end and only the
    lines that fit, the first 48, are drawn: after the first line that does
    not fit nothing more is drawn. *)
Theorem layout_single_page (measure : jstr -> Z) (text : jstr) :
  let lines := wrapped_lines measure text in
  let st := layout measure text in
  cursor st
  = (PAGE_H - MARGIN
     - LINE_HEIGHT * Z.of_nat (min (length lines) (S lines_per_page)))%Z
  /\ drawn st = combine lines (map line_position (seq 1 lines_per_page))
  /\ overflow st
     = (PAGE_H - 2 * MARGIN <? Z.of_nat (length lines) * LINE_HEIGHT)%Z
  /\ Forall (fun p => (MARGIN <= snd p)%Z) (drawn st)
  /\ length (drawn st) = min (length lines) lines_per_page
  /\ lines_per_page = 48.
Proof.
  intros lines st.
  assert (Hst : st = draw_lines lines
                       {| cursor := line_position 0; drawn := [] |}).
  { unfold st, layout, lines, wrapped_lines. cbv zeta.
    apply (draw_paragraphs_flat measure (split_lines text)
             {| cursor := (PAGE_H - MARGIN)%Z; drawn := [] |}).
    reflexivity. }
  destruct (draw_lines_spec lines {| cursor := line_position 0; drawn := [] |}
              0 eq_refl ltac:(lia)) as [Hd Hc].
  rewrite <- Hst in Hd, Hc. cbn [drawn app] in Hd.
  rewrite Nat.sub_0_r in Hd. simpl plus in Hc.
  split; [exact Hc|]. split; [exact Hd|]. split; [|split; [|split]].
  - unfold overflow. rewrite Hc, line_position_margin, lines_per_page_48.
    destruct (Nat.ltb_spec 48 (min (length lines) 49));
      symmetry; [apply Z.ltb_lt|apply Z.ltb_ge];
      unfold PAGE_H, MARGIN, LINE_HEIGHT; lia.
  - rewrite Hd. apply combine_positions.
    apply List.Forall_forall. intros y Hy.
    apply in_map_iff in Hy as (i & <- & Hi). apply in_seq in Hi.
    apply Z.ltb_ge. rewrite line_position_margin. apply Nat.ltb_ge. lia.
  - rewrite Hd, length_combine, length_map, length_seq. reflexivity.
  - reflexivity.
Qed.

(** ** Further properties *)

Lemma code_points_concat s : concat (code_points s) = s.
Proof.
  remember (length s) as n eqn:Hn. revert s Hn.
  induction n as [n IH] using lt_wf_ind. intros s Hn.
  destruct s as [|c [|d r]]; [reflexivity|reflexivity|].
  change (code_points (c :: d :: r))
    with (if is_high_surrogate c && is_low_surrogate d
          then [c; d] :: code_points r
          else [c] :: code_points (d :: r)).
  destruct (is_high_surrogate c && is_low_surrogate d).
  - change (concat ([c; d] :: code_points r))
      with (c :: d :: concat (code_points r)).
    rewrite (IH (length r) ltac:(subst n; simpl; lia) r eq_refl). reflexivity.
  - change (concat ([c] :: code_points (d :: r)))
      with (c :: concat (code_points (d :: r))).
    rewrite (IH (length (d :: r)) ltac:(subst n; simpl; lia) (d :: r) eq_refl).
    reflexivity.
Qed.

Lemma concat_push_nonempty lines current :
  concat (push_nonempty lines current) = concat lines ++ current.
Proof.
  unfold push_nonempty. destruct current as [|c r]; simpl.
  - rewrite app_nil_r. reflexivity.
  - rewrite concat_app. simpl. rewrite app_nil_r. reflexivity.
Qed.

Lemma strip_ws_app a b : strip_ws (a ++ b) = strip_ws a ++ strip_ws b.
Proof. apply List.filter_app. Qed.

Lemma split_ws_concat s : concat (split_ws s) = strip_ws s.
Proof.
  induction s as [|c r IH]; [reflexivity|].
  destruct (is_space c) eqn:Hc.
  - unfold strip_ws. simpl List.filter. rewrite Hc. simpl negb. cbv iota.
    destruct (split_ws_space c r Hc) as [-> | ->]; exact IH.
  - rewrite (split_ws_char c r Hc). unfold strip_ws. simpl List.filter.
    rewrite Hc. simpl negb. cbv iota. simpl concat. f_equal.
    fold (strip_ws r). rewrite <- IH.
    pose proof (split_ws_not_nil r). destruct (split_ws r); [contradiction|].
    reflexivity.
Qed.

Lemma strip_ws_pieces pieces :
  Forall (fun w => forallb (fun c => negb (is_space c)) w = true) pieces ->
  strip_ws (concat pieces) = concat pieces.
Proof.
  intros H. unfold strip_ws.
  apply forallb_filter_id. apply forallb_forall. intros c Hc.
  apply in_concat in Hc as (w & Hw & Hc).
  rewrite List.Forall_forall in H. specialize (H w Hw).
  rewrite forallb_forall in H. apply H, Hc.
Qed.

Section WrapCharacters.
Variable measure : jstr -> Z.
Variable maxWidth : Z.

Lemma pack_chars_concat : forall chs lines chunk,
  concat (fst (pack_chars measure maxWidth chs lines chunk))
  ++ snd (pack_chars measure maxWidth chs lines chunk)
  = concat lines ++ chunk ++ concat chs.
Proof.
  intros chs. induction chs as [|ch chs IH]; intros lines chunk.
  - simpl. rewrite app_nil_r. reflexivity.
  - simpl. destruct (measure (chunk ++ ch) <=? maxWidth)%Z; rewrite IH.
    + rewrite <- !app_assoc. reflexivity.
    + rewrite concat_app. simpl. rewrite <- !app_assoc. reflexivity.
Qed.

Lemma wrap_words_characters : forall ws lines current,
  strip_ws (concat (wrap_words measure maxWidth ws lines current))
  = strip_ws (concat lines ++ current ++ concat ws).
Proof.
  intros ws. induction ws as [|word ws IH]; intros lines current.
  - simpl. rewrite app_nil_r, concat_push_nonempty. reflexivity.
  - cbn [wrap_words]. cbv zeta.
    destruct (measure (if is_empty current then word else current ++ [SP] ++ word)
              <=? maxWidth)%Z.
    + rewrite IH. destruct current as [|c r]; [reflexivity|].
      cbn [is_empty concat]. rewrite !strip_ws_app.
      change (strip_ws [SP]) with (@nil N). rewrite <- !app_assoc. reflexivity.
    + destruct (maxWidth <? measure word)%Z.
      * pose proof (pack_chars_concat (code_points word)
                      (push_nonempty lines current) []) as Hp.
        destruct (pack_chars measure maxWidth (code_points word)
                    (push_nonempty lines current) []) as [lines2 chunk].
        cbn [fst snd] in Hp. rewrite IH, app_assoc, Hp.
        rewrite concat_push_nonempty, code_points_concat.
        simpl. rewrite <- !app_assoc. reflexivity.
      * rewrite IH, concat_push_nonempty. simpl.
        rewrite <- !app_assoc. reflexivity.
Qed.
End WrapCharacters.

(** X1.  Whatever the widths, [wrapLine] keeps every character of the line
    that is not whitespace, in order, also where it cuts a word. *)
Theorem wrapLine_keeps_characters (measure : jstr -> Z) (maxWidth : Z) (line : jstr) :
  strip_ws (concat (wrapLine measure maxWidth line)) = strip_ws line.
Proof.
  unfold wrapLine. destruct (is_empty (trim line)) eqn:Hblank.
  - apply trim_empty_blank in Hblank. simpl.
    unfold strip_ws. symmetry. clear -Hblank.
    induction line as [|c r IH]; [reflexivity|].
    simpl in *. apply andb_true_iff in Hblank as [-> Hr]. simpl. auto.
  - rewrite wrap_words_characters. simpl.
    rewrite (strip_ws_pieces _ (split_ws_pieces line)).
    apply split_ws_concat.
Qed.

(** X2.  With a measure for which the empty string and every single
    character of the line fit, as with the font of the export, every line
    returned by [wrapLine] fits. *)
Theorem wrapLine_fits (measure : jstr -> Z) (maxWidth : Z) (line : jstr) :
  (measure [] <= maxWidth)%Z ->
  (forall w ch, In w (split_ws line) -> In ch (code_points w) ->
     (measure ch <= maxWidth)%Z) ->
  Forall (fun l => (measure l <= maxWidth)%Z) (wrapLine measure maxWidth line).
Proof.
  intros Hnil Hch.
  assert (H : Forall (wrapped_line_ok measure maxWidth (split_ws line))
                (wrapLine measure maxWidth line)).
  { unfold wrapLine. destruct (is_empty (trim line)).
    - constructor; [|constructor]. right. left. reflexivity.
    - apply wrap_words_ok; [auto|constructor|]. right. left. reflexivity. }
  apply (List.Forall_impl _ (P := wrapped_line_ok measure maxWidth (split_ws line)));
    [|exact H].
  intros l [Hfit|[-> |(w & Hw & _ & Hl & Hwide)]]; [exact Hfit|exact Hnil|].
  specialize (Hch w l Hw Hl). lia.
Qed.

Lemma wrapLine_fits_witness :
  Forall (fun l => (Z.of_nat (length l) <= 3)%Z)
    (wrapLine (fun s => Z.of_nat (length s)) 3 (js "abcdefg hi")).
Proof.
  apply (wrapLine_fits (fun s => Z.of_nat (length s)) 3 (js "abcdefg hi")).
  - vm_compute. discriminate.
  - intros w ch Hw Hch.
    assert (E : split_ws (js "abcdefg hi") = [js "abcdefg"; js "hi"])
      by (vm_compute; reflexivity).
    rewrite E in Hw. destruct Hw as [<-|[<-|[]]]; vm_compute in Hch;
      repeat (destruct Hch as [<-|Hch]; [vm_compute; discriminate|]);
      destruct Hch.
Defined.

Lemma applyTemplate_absent_key_witness :
  applyTemplate (js "{{ companyAddressLine2 }}{{missing}}Dear")
    (<[js "companyAddressLine2" := VNull]> ∅)
  = js "Dear".
Proof.
  rewrite (applyTemplate_absent_key
             (<[js "companyAddressLine2" := VNull]> ∅)
             [SP] (js "companyAddressLine2") [SP] (js "{{missing}}Dear"));
    [|reflexivity|reflexivity|discriminate|reflexivity
     |right; left; vm_compute; reflexivity].
  apply (applyTemplate_absent_key
           (<[js "companyAddressLine2" := VNull]> ∅)
           [] (js "missing") [] (js "Dear")).
  - reflexivity.
  - reflexivity.
  - discriminate.
  - reflexivity.
  - left. split; vm_compute; reflexivity.
Defined.

(** ** Splitting *)

Section SplitFacts.
Context {A : Type}.
Variable m : jstr -> option (A * jstr).
Variable groups : A -> list jstr.
Hypothesis m_consumes :
  forall s a rest, m s = Some (a, rest) -> length rest < length s.

Lemma split_from_fuel fuel1 : forall fuel2 piece s,
  length s < fuel1 -> length s < fuel2 ->
  split_from m groups fuel1 piece s = split_from m groups fuel2 piece s.
Proof.
  induction fuel1 as [|n IH]; intros fuel2 piece s H1 H2; [lia|].
  destruct fuel2 as [|k]; [lia|]. simpl.
  destruct s as [|c r]; [reflexivity|].
  destruct (m (c :: r)) as [[a rest]|] eqn:E.
  - apply m_consumes in E. do 2 f_equal. apply IH; lia.
  - simpl in *. apply IH; lia.
Qed.

(** The split of what is left of the input, [piece] being the piece read so
    far. *)
Lemma split_step_match piece c r a rest :
  m (c :: r) = Some (a, rest) ->
  split_from m groups (S (length (c :: r))) piece (c :: r)
  = piece :: groups a ++ split_all m groups rest.
Proof.
  intros E. cbn [split_from]. rewrite E. do 2 f_equal.
  pose proof (m_consumes _ _ _ E). apply split_from_fuel; simpl in *; lia.
Qed.

Lemma split_step_skip piece c r :
  m (c :: r) = None ->
  split_from m groups (S (length (c :: r))) piece (c :: r)
  = split_from m groups (S (length r)) (piece ++ [c]) r.
Proof. intros E. cbn [split_from]. rewrite E. reflexivity. Qed.

(** Induction along the split. *)
Lemma split_from_ind (Q : jstr -> jstr -> list jstr -> Prop) :
  (forall piece, Q piece [] [piece]) ->
  (forall piece c r a rest, m (c :: r) = Some (a, rest) ->
     Q [] rest (split_all m groups rest) ->
     Q piece (c :: r) (piece :: groups a ++ split_all m groups rest)) ->
  (forall piece c r, m (c :: r) = None ->
     Q (piece ++ [c]) r (split_from m groups (S (length r)) (piece ++ [c]) r) ->
     Q piece (c :: r) (split_from m groups (S (length r)) (piece ++ [c]) r)) ->
  forall s piece, Q piece s (split_from m groups (S (length s)) piece s).
Proof.
  intros Hend Hmatch Hskip s.
  remember (length s) as n eqn:Hn. revert s Hn.
  induction n as [n IH] using lt_wf_ind. intros s Hn piece. subst n.
  destruct s as [|c r]; [apply Hend|].
  destruct (m (c :: r)) as [[a rest]|] eqn:E.
  - rewrite (split_step_match _ _ _ _ _ E). apply Hmatch; [exact E|].
    apply (IH (length rest)); [|reflexivity].
    apply m_consumes in E. exact E.
  - rewrite (split_step_skip _ _ _ E). apply Hskip; [exact E|].
    apply (IH (length r)); [simpl; lia|reflexivity].
Qed.

(** A split loses what the matches hold and the groups do not give back, and
    nothing else: stated for any reading [phi] of texts that goes through
    concatenation. *)
Lemma split_all_reading (phi : jstr -> jstr) :
  phi [] = [] ->
  (forall a b, phi (a ++ b) = phi a ++ phi b) ->
  (forall s a rest, m s = Some (a, rest) ->
     phi (concat (groups a)) ++ phi rest = phi s) ->
  forall s, phi (concat (split_all m groups s)) = phi s.
Proof.
  intros Hnil Happ Hm s. unfold split_all.
  enough (G : forall s piece,
             phi (concat (split_from m groups (S (length s)) piece s))
             = phi (piece ++ s)) by (apply (G s [])).
  clear s. intros s piece.
  apply (split_from_ind
           (fun piece s out => phi (concat out) = phi (piece ++ s))).
  - intros p. simpl. rewrite !app_nil_r. reflexivity.
  - intros p c r a rest E IH. simpl concat.
    rewrite concat_app, !Happ, IH. simpl. rewrite (Hm _ _ _ E). reflexivity.
  - intros p c r E IH. rewrite IH, <- app_assoc. reflexivity.
Qed.

(** Where a match at the head of a text is still a match when the text goes
    on, the pieces of a split hold no match. *)
Lemma split_all_shape (P : A -> Prop) :
  (forall x t, m x <> None -> m (x ++ t) <> None) ->
  (forall s a rest, m s = Some (a, rest) -> P a) ->
  forall s, split_shape m groups P (split_all m groups s).
Proof.
  intros Hext HP s. unfold split_all.
  enough (G : forall s piece,
             (forall x y, piece = y ++ x -> x <> [] -> m (x ++ s) = None) ->
             split_shape m groups P (split_from m groups (S (length s)) piece s)).
  { apply G. intros x y E Hx. destruct y, x; try discriminate. contradiction. }
  clear s.
  assert (Hclose : forall piece s,
            (forall x y, piece = y ++ x -> x <> [] -> m (x ++ s) = None) ->
            matches_in m piece = false).
  { intros piece s Hno.
    assert (G : forall x y, piece = y ++ x -> matches_in m x = false).
    { induction x as [|c x IH]; intros y E.
      - simpl. rewrite (m_nil m m_consumes). reflexivity.
      - rewrite matches_in_cons.
        destruct (m (c :: x)) as [p|] eqn:Em.
        + exfalso. apply (Hext (c :: x) s); [congruence|].
          apply (Hno (c :: x) y E). discriminate.
        + apply (IH (y ++ [c])). rewrite <- app_assoc. exact E. }
    apply (G piece []). reflexivity. }
  intros s piece.
  apply (split_from_ind
           (fun piece s out =>
              (forall x y, piece = y ++ x -> x <> [] -> m (x ++ s) = None) ->
              split_shape m groups P out)).
  - intros p Hno. apply shape_last. apply (Hclose p [] Hno).
  - intros p c r a rest E IH Hno. apply shape_cons.
    + apply (Hclose p (c :: r) Hno).
    + apply (HP _ _ _ E).
    + apply IH. intros x y Exy Hx. destruct y, x; try discriminate. contradiction.
  - intros p c r E IH Hno. apply IH. intros x y Exy Hx.
    destruct (@exists_last _ x Hx) as (x' & c' & ->).
    rewrite app_assoc in Exy. apply app_inj_tail in Exy as [Ep <-].
    rewrite <- app_assoc. simpl.
    destruct x' as [|c0 x'']; [exact E|].
    apply (Hno (c0 :: x'') y Ep). discriminate.
Qed.
End SplitFacts.

(** ** [splitIntoParagraphs] *)

Lemma paragraph_break_commit s : forall commit,
  commit <> None -> paragraph_break commit s <> None.
Proof.
  induction s as [|c s IH]; intros commit H; simpl; [exact H|].
  destruct (N.eqb c LF); [apply IH; discriminate|].
  destruct (is_space c); [apply IH, H|exact H].
Qed.

Lemma paragraph_break_extends s t : forall commit commit',
  (commit <> None -> commit' <> None) ->
  paragraph_break commit s <> None ->
  paragraph_break commit' (s ++ t) <> None.
Proof.
  induction s as [|c s IH]; intros commit commit' Hc H; simpl in *.
  - apply paragraph_break_commit, Hc, H.
  - destruct (N.eqb c LF).
    + apply (IH (Some s)); [discriminate|exact H].
    + destruct (is_space c); [apply (IH commit); assumption|auto].
Qed.

Lemma paragraph_break_inv s : forall commit rest,
  paragraph_break commit s = Some rest ->
  commit = Some rest
  \/ exists pre, s = pre ++ rest /\ forallb is_space pre = true.
Proof.
  induction s as [|c s IH]; intros commit rest H; simpl in H; [left; exact H|].
  destruct (N.eqb_spec c LF) as [->|Hc].
  - right. destruct (IH _ _ H) as [E|(pre & -> & Hpre)].
    + inversion E; subst. exists [LF]. split; reflexivity.
    + exists (LF :: pre). split; [reflexivity|]. simpl. exact Hpre.
  - destruct (is_space c) eqn:Hs; [|left; exact H].
    destruct (IH _ _ H) as [E|(pre & -> & Hpre)]; [left; exact E|].
    right. exists (c :: pre). split; [reflexivity|]. simpl. rewrite Hs. exact Hpre.
Qed.

(** What the pattern matches is whitespace between two newlines. *)
Lemma match_paragraph_break_inv s a rest :
  match_paragraph_break s = Some (a, rest) ->
  exists pre, s = LF :: pre ++ rest /\ forallb is_space pre = true.
Proof.
  destruct s as [|c r]; simpl; [discriminate|].
  destruct (N.eqb_spec c LF) as [->|]; [|discriminate].
  destruct (paragraph_break None r) as [rest'|] eqn:E; [|discriminate].
  intros H. inversion H; subst.
  destruct (paragraph_break_inv _ _ _ E) as [E'|(pre & -> & Hpre)];
    [discriminate|].
  exists pre. auto.
Qed.

Lemma match_paragraph_break_consumes s a rest :
  match_paragraph_break s = Some (a, rest) -> length rest < length s.
Proof.
  intros H. destruct (match_paragraph_break_inv _ _ _ H) as (pre & -> & _).
  simpl. rewrite length_app. lia.
Qed.

Lemma match_paragraph_break_extends x t :
  match_paragraph_break x <> None -> match_paragraph_break (x ++ t) <> None.
Proof.
  destruct x as [|c r]; simpl; [congruence|].
  destruct (N.eqb c LF); [|congruence].
  intros H.
  assert (H' : paragraph_break None r <> None)
    by (destruct (paragraph_break None r); [discriminate|congruence]).
  pose proof (paragraph_break_extends r t None None (fun h => h) H') as G.
  destruct (paragraph_break None (r ++ t)); [discriminate|congruence].
Qed.

Lemma strip_ws_blank pre : forallb is_space pre = true -> strip_ws pre = [].
Proof.
  induction pre as [|c pre IH]; simpl; [reflexivity|].
  intros H. apply andb_true_iff in H as [-> H]. simpl. auto.
Qed.

Lemma strip_ws_normalize_crlf s : strip_ws (normalize_crlf s) = strip_ws s.
Proof.
  unfold normalize_crlf.
  apply (replace_all_ind match_crlf (fun _ => [LF]) match_crlf_consumes
           (fun s out => strip_ws out = strip_ws s)).
  - reflexivity.
  - intros s0 a rest E IH. apply match_crlf_inv in E. subst s0.
    change ([LF] ++ replace_all match_crlf (fun _ => [LF]) rest)
      with (LF :: replace_all match_crlf (fun _ => [LF]) rest).
    unfold strip_ws in *. simpl. exact IH.
  - intros c r E IH. unfold strip_ws in *. simpl. rewrite IH. reflexivity.
Qed.

Lemma split_shape_no_groups {A} (m : jstr -> option (A * jstr)) P parts :
  split_shape m (fun _ => []) P parts ->
  Forall (fun p => matches_in m p = false) parts.
Proof.
  induction 1 as [piece H|piece a parts H _ _ IH].
  - constructor; [exact H|constructor].
  - constructor; assumption.
Qed.

Lemma no_break_no_LF2 p :
  matches_in match_paragraph_break p = false -> contains [LF; LF] p = false.
Proof.
  induction p as [|c r IH]; intros H; [reflexivity|].
  rewrite matches_in_cons in H.
  destruct (match_paragraph_break (c :: r)) eqn:E; [discriminate|].
  rewrite contains_cons, (IH H), orb_false_r.
  destruct (starts_with [LF; LF] (c :: r)) eqn:Es; [|reflexivity].
  apply starts_with_iff in Es as [r' Es]. rewrite Es in E.
  change (match_paragraph_break ([LF; LF] ++ r'))
    with (match paragraph_break (Some r') r' with
          | Some rest => Some (tt, rest)
          | None => None
          end) in E.
  pose proof (paragraph_break_commit r' (Some r') ltac:(discriminate)) as G.
  destruct (paragraph_break (Some r') r'); [discriminate E|congruence].
Qed.

(** X4.  [splitIntoParagraphs] always returns at least one paragraph, and in
    no paragraph is a newline followed by whitespace and another newline: a
    paragraph holds no blank line between two of its lines, and so no two
    consecutive newlines. *)
Theorem splitIntoParagraphs_paragraphs (text : jstr) :
  splitIntoParagraphs text <> []
  /\ Forall (fun p => matches_in match_paragraph_break p = false
                      /\ contains [LF; LF] p = false)
       (splitIntoParagraphs text).
Proof.
  assert (H : split_shape match_paragraph_break (fun _ => []) (fun _ => True)
                (splitIntoParagraphs text)).
  { apply split_all_shape.
    - apply match_paragraph_break_consumes.
    - apply match_paragraph_break_extends.
    - auto. }
  split.
  - destruct H; discriminate.
  - apply split_shape_no_groups in H.
    apply (List.Forall_impl _ (P := fun p => matches_in match_paragraph_break p = false));
      [|exact H].
    intros p Hp. split; [exact Hp|apply no_break_no_LF2, Hp].
Qed.

Lemma splitIntoParagraphs_strip text :
  strip_ws (concat (splitIntoParagraphs text)) = strip_ws text.
Proof.
  unfold splitIntoParagraphs.
  rewrite (split_all_reading match_paragraph_break (fun _ => [])
             match_paragraph_break_consumes strip_ws).
  - apply strip_ws_normalize_crlf.
  - reflexivity.
  - apply strip_ws_app.
  - intros s a rest E.
    destruct (match_paragraph_break_inv _ _ _ E) as (pre & -> & Hpre).
    change (LF :: pre ++ rest) with ((LF :: pre) ++ rest).
    rewrite strip_ws_app, (strip_ws_blank (LF :: pre)); [reflexivity|].
    simpl. exact Hpre.
Qed.

(** X5.  The paragraphs hold, in order, every character of the text that is
    not whitespace: what [splitIntoParagraphs] drops between two paragraphs,
    and the carriage returns it folds, is whitespace only. *)
Theorem splitIntoParagraphs_keeps_characters (text : jstr) :
  strip_ws (concat (splitIntoParagraphs text)) = strip_ws text.
Proof. apply splitIntoParagraphs_strip. Qed.

(** ** [downloadDocx]: the paragraphs *)

Lemma split_lines_not_nil s : split_lines s <> [].
Proof.
  induction s as [|c r IH]; [discriminate|]. simpl.
  destruct (N.eqb c LF); [discriminate|].
  destruct (split_lines r); discriminate.
Qed.

Lemma join_split_lines s : join_lines (split_lines s) = s.
Proof.
  induction s as [|c r IH]; [reflexivity|]. simpl split_lines.
  pose proof (split_lines_not_nil r) as Hne.
  destruct (N.eqb_spec c LF) as [->|Hc].
  - destruct (split_lines r) as [|l ls]; [contradiction|].
    change (join_lines ([] :: l :: ls)) with (LF :: join_lines (l :: ls)).
    rewrite IH. reflexivity.
  - destruct (split_lines r) as [|l ls]; [contradiction|].
    rewrite <- IH. destruct ls; reflexivity.
Qed.

Lemma split_lines_no_LF s :
  Forall (fun l => existsb (N.eqb LF) l = false) (split_lines s).
Proof.
  induction s as [|c r IH]; [repeat constructor|]. simpl split_lines.
  pose proof (split_lines_not_nil r) as Hne.
  destruct (N.eqb_spec c LF) as [->|Hc].
  - constructor; [reflexivity|exact IH].
  - destruct (split_lines r) as [|l ls]; [contradiction|].
    inversion IH; subst. constructor; [|assumption].
    cbn [existsb]. destruct (N.eqb_spec LF c); [congruence|assumption].
Qed.

Lemma runs_text_from lines : forall k n,
  k + length lines = S n ->
  concat
    (map run_text
       (concat
          (map (fun '(idx, ln) =>
                  TextRun ln :: (if idx <? n then [LineBreak] else []))
             (combine (seq k (length lines)) lines))))
  = join_lines lines.
Proof.
  induction lines as [|l ls IH]; intros k n H; [reflexivity|].
  destruct ls as [|l2 ls].
  - simpl in *. replace (k <? n) with false by (symmetry; apply Nat.ltb_ge; lia).
    simpl. apply app_nil_r.
  - change (length (l :: l2 :: ls)) with (S (length (l2 :: ls))).
    cbn [seq combine map concat]. cbn [length] in H.
    replace (k <? n) with true by (symmetry; apply Nat.ltb_lt; lia).
    cbn [app map concat run_text].
    rewrite (IH (S k) n) by (cbn [length]; lia). reflexivity.
Qed.

Lemma runs_of_lines_text lines :
  concat (map run_text (runs_of_lines lines)) = join_lines lines.
Proof.
  destruct lines as [|l ls]; [reflexivity|].
  unfold runs_of_lines. cbn [length]. rewrite Nat.sub_1_r. cbn [Nat.pred].
  apply (runs_text_from (l :: ls) 0 (length ls)). reflexivity.
Qed.

Lemma runs_of_lines_runs (P : jstr -> Prop) lines :
  Forall P lines ->
  Forall (fun r => match r with TextRun t => P t | LineBreak => True end)
    (runs_of_lines lines).
Proof.
  intros H. apply List.Forall_forall. intros r Hr.
  unfold runs_of_lines in Hr.
  apply in_concat in Hr as (rs & Hrs & Hr).
  apply in_map_iff in Hrs as ([idx ln] & <- & Hin).
  apply in_combine_r in Hin. rewrite List.Forall_forall in H.
  destruct Hr as [<-|Hr]; [apply H, Hin|].
  destruct (idx <? length lines - 1); [|destruct Hr].
  destruct Hr as [<-|[]]. exact I.
Qed.

(** X6.  The runs of a DOCX paragraph give the paragraph back: its text runs,
    read in order with a newline for each line-break run, are the paragraph
    text, and no text run holds a newline itself. *)
Theorem docx_paragraph_round_trip (para : jstr) :
  concat (map run_text (children (docx_paragraph_of para))) = para
  /\ Forall (fun r => match r with
                      | TextRun t => existsb (N.eqb LF) t = false
                      | LineBreak => True
                      end)
       (children (docx_paragraph_of para)).
Proof.
  unfold docx_paragraph_of. cbn [children]. split.
  - rewrite runs_of_lines_text. apply join_split_lines.
  - apply runs_of_lines_runs, split_lines_no_LF.
Qed.

(** X7.  The body of the DOCX file holds, in order, every character of the
    rendered text that is not whitespace: nothing of the letter is lost
    between [rendered] and the runs of the document. *)
Theorem docParagraphs_keeps_characters (rendered_text : jstr) :
  strip_ws
    (concat
       (map (fun p => concat (map run_text (children p)))
          (docParagraphs rendered_text)))
  = strip_ws rendered_text.
Proof.
  unfold docParagraphs. rewrite map_map.
  rewrite <- (splitIntoParagraphs_strip rendered_text). f_equal. f_equal.
  rewrite <- (map_id (splitIntoParagraphs rendered_text)) at 2.
  apply map_ext. intros para.
  unfold docx_paragraph_of. cbn [children].
  rewrite runs_of_lines_text. apply join_split_lines.
Qed.

(** ** [linkifyLinkedInInline] *)

Lemma ci_prefix_inv lit : forall s r,
  ci_prefix lit s = Some r ->
  exists a, s = a ++ r /\ map upper a = map upper lit.
Proof.
  induction lit as [|x lit IH]; intros s r H; simpl in H.
  - inversion H; subst. exists []. split; reflexivity.
  - destruct s as [|b s]; [discriminate|].
    destruct (N.eqb_spec (upper x) (upper b)) as [E|]; [|discriminate].
    destruct (IH _ _ H) as (a & -> & Ha).
    exists (b :: a). split; [reflexivity|]. simpl. rewrite Ha, E. reflexivity.
Qed.

Lemma ci_prefix_app lit : forall a r,
  map upper a = map upper lit -> ci_prefix lit (a ++ r) = Some r.
Proof.
  induction lit as [|x lit IH]; intros a r H.
  - destruct a; [reflexivity|discriminate].
  - destruct a as [|b a]; [discriminate|]. simpl in H. inversion H as [[E H']].
    simpl. rewrite E, N.eqb_refl. apply IH, H'.
Qed.

(** A literal that starts with another character than the input does not
    match. *)
Lemma ci_prefix_other lit x lit' s b s' :
  lit = x :: lit' -> s = b :: s' -> upper x <> upper b ->
  ci_prefix lit s = None.
Proof.
  intros -> -> H. simpl.
  destruct (N.eqb_spec (upper x) (upper b)); [contradiction|]. reflexivity.
Qed.

Lemma take_while_drop_while_nil p s : take_while p (drop_while p s) = [].
Proof.
  induction s as [|c s IH]; simpl; [reflexivity|].
  destruct (p c) eqn:E; [exact IH|]. simpl. rewrite E. reflexivity.
Qed.

Lemma take_while_stop p a rest :
  forallb p a = true -> take_while p rest = [] ->
  take_while p (a ++ rest) = a /\ drop_while p (a ++ rest) = rest.
Proof.
  intros Ha Hr. rewrite (take_while_app _ _ _ Ha), (drop_while_app _ _ _ Ha), Hr.
  split; [apply app_nil_r|].
  destruct rest as [|c rest]; [reflexivity|]. simpl in *.
  destruct (p c); [discriminate|reflexivity].
Qed.

Lemma url_path_inv r rest :
  url_path r = Some rest ->
  exists body, r = body ++ rest /\ body <> []
               /\ forallb not_space body = true
               /\ take_while not_space rest = [].
Proof.
  unfold url_path.
  destruct (take_while not_space r) as [|c body] eqn:E; [discriminate|].
  cbn [is_empty]. intros H. inversion H; subst.
  exists (c :: body). rewrite <- E.
  split; [symmetry; apply take_drop_while|].
  split; [rewrite E; discriminate|].
  split; [apply take_while_all|apply take_while_drop_while_nil].
Qed.

Lemma url_path_app body rest :
  body <> [] -> forallb not_space body = true ->
  take_while not_space rest = [] ->
  url_path (body ++ rest) = Some rest.
Proof.
  intros Hne Hb Hr. unfold url_path.
  destruct (take_while_stop not_space body rest Hb Hr) as [-> ->].
  destruct body; [contradiction|reflexivity].
Qed.

Lemma and_then_inv {A B} (x : option A) (k : A -> option B) b :
  and_then x k = Some b -> exists a, x = Some a /\ k a = Some b.
Proof. destruct x as [a|]; simpl; [exists a; auto|discriminate]. Qed.

Lemma orelse_inv {A} (x y : option A) b :
  orelse x y = Some b -> x = Some b \/ (x = None /\ y = Some b).
Proof. destruct x; simpl; auto. Qed.

Lemma ci_eq_head x lit a :
  ci_eq a (x :: lit) -> exists b a', a = b :: a' /\ upper b = upper x.
Proof.
  unfold ci_eq. destruct a as [|b a']; [discriminate|]. simpl.
  intros H. inversion H. exists b, a'. auto.
Qed.

(** The input after a whole address, for each part of the pattern. *)
Lemma url_host_inv r rest :
  url_host r = Some rest ->
  exists l body, r = l ++ body ++ rest /\ ci_eq l (js "linkedin.com/")
    /\ body <> [] /\ forallb not_space body = true
    /\ take_while not_space rest = [].
Proof.
  unfold url_host. intros H.
  apply and_then_inv in H as (r1 & H1 & H2).
  apply ci_prefix_inv in H1 as (l & -> & Hl).
  apply url_path_inv in H2 as (body & -> & Hb).
  exists l, body. auto.
Qed.

Lemma url_host_app l body rest :
  ci_eq l (js "linkedin.com/") -> body <> [] ->
  forallb not_space body = true -> take_while not_space rest = [] ->
  url_host (l ++ body ++ rest) = Some rest.
Proof.
  intros Hl Hne Hb Hr. unfold url_host.
  rewrite (ci_prefix_app _ _ _ Hl). simpl. apply url_path_app; assumption.
Qed.

Lemma url_www_inv r rest :
  url_www r = Some rest ->
  exists w l body, r = w ++ l ++ body ++ rest
    /\ (w = [] \/ ci_eq w (js "www.")) /\ ci_eq l (js "linkedin.com/")
    /\ body <> [] /\ forallb not_space body = true
    /\ take_while not_space rest = [].
Proof.
  unfold url_www. intros H.
  apply orelse_inv in H as [H|[_ H]].
  - apply and_then_inv in H as (r1 & H1 & H2).
    apply ci_prefix_inv in H1 as (w & -> & Hw).
    apply url_host_inv in H2 as (l & body & -> & H2).
    exists w, l, body. split; [reflexivity|]. split; [right; exact Hw|exact H2].
  - apply url_host_inv in H as (l & body & -> & H2).
    exists [], l, body. split; [reflexivity|]. split; [left; reflexivity|exact H2].
Qed.

Lemma url_www_app w l body rest :
  (w = [] \/ ci_eq w (js "www.")) -> ci_eq l (js "linkedin.com/") ->
  body <> [] -> forallb not_space body = true ->
  take_while not_space rest = [] ->
  url_www (w ++ l ++ body ++ rest) = Some rest.
Proof.
  intros Hw Hl Hne Hb Hr. unfold url_www.
  pose proof (url_host_app l body rest Hl Hne Hb Hr) as Hh.
  destruct Hw as [->|Hw].
  - destruct (ci_eq_head _ _ _ Hl) as (b & l' & -> & Hbu).
    rewrite (ci_prefix_other (js "www.") 119 (js "ww.")
               ([] ++ (b :: l') ++ body ++ rest) b
               (l' ++ body ++ rest) eq_refl eq_refl); [exact Hh|].
    rewrite Hbu. vm_compute. discriminate.
  - rewrite (ci_prefix_app _ _ _ Hw). simpl. rewrite Hh. reflexivity.
Qed.

Lemma url_colon_inv r rest :
  url_colon r = Some rest ->
  exists c w l body, r = c ++ w ++ l ++ body ++ rest
    /\ ci_eq c (js "://")
    /\ (w = [] \/ ci_eq w (js "www.")) /\ ci_eq l (js "linkedin.com/")
    /\ body <> [] /\ forallb not_space body = true
    /\ take_while not_space rest = [].
Proof.
  unfold url_colon. intros H.
  apply and_then_inv in H as (r1 & H1 & H2).
  apply ci_prefix_inv in H1 as (c & -> & Hc).
  apply url_www_inv in H2 as (w & l & body & -> & H2).
  exists c, w, l, body. auto.
Qed.

Lemma url_colon_app c w l body rest :
  ci_eq c (js "://") ->
  (w = [] \/ ci_eq w (js "www.")) -> ci_eq l (js "linkedin.com/") ->
  body <> [] -> forallb not_space body = true ->
  take_while not_space rest = [] ->
  url_colon (c ++ w ++ l ++ body ++ rest) = Some rest.
Proof.
  intros Hc Hw Hl Hne Hb Hr. unfold url_colon.
  rewrite (ci_prefix_app _ _ _ Hc). simpl. apply url_www_app; assumption.
Qed.

(** Where the pattern matches, the input is a LinkedIn address followed by
    the end of the input or by whitespace; and conversely. *)
Lemma url_end_inv s rest :
  url_end s = Some rest ->
  exists p body, s = p ++ body ++ rest /\ url_start p /\ body <> []
    /\ forallb not_space body = true /\ take_while not_space rest = [].
Proof.
  unfold url_end. intros H.
  apply and_then_inv in H as (r0 & H0 & H).
  apply ci_prefix_inv in H0 as (h & -> & Hh).
  apply orelse_inv in H as [H|[_ H]].
  - apply and_then_inv in H as (r1 & H1 & H2).
    apply ci_prefix_inv in H1 as (s1 & -> & Hs).
    apply url_colon_inv in H2 as (c & w & l & body & -> & Hc & Hw & Hl & Hb).
    exists (h ++ s1 ++ c ++ w ++ l), body. rewrite <- !app_assoc.
    split; [reflexivity|]. split; [|exact Hb].
    exists h, s1, c, w, l. split; [reflexivity|]. auto.
  - apply url_colon_inv in H as (c & w & l & body & -> & Hc & Hw & Hl & Hb).
    exists (h ++ [] ++ c ++ w ++ l), body. rewrite <- !app_assoc.
    split; [reflexivity|]. split; [|exact Hb].
    exists h, [], c, w, l. split; [reflexivity|]. auto.
Qed.

Lemma url_end_app p body rest :
  url_start p -> body <> [] -> forallb not_space body = true ->
  take_while not_space rest = [] ->
  url_end (p ++ body ++ rest) = Some rest.
Proof.
  intros (h & s1 & c & w & l & -> & Hh & Hs & Hc & Hw & Hl) Hne Hb Hr.
  pose proof (url_colon_app c w l body rest Hc Hw Hl Hne Hb Hr) as Hcol.
  unfold url_end. rewrite <- !app_assoc.
  rewrite (ci_prefix_app _ _ _ Hh). cbn [and_then].
  destruct Hs as [->|Hs].
  - destruct (ci_eq_head _ _ _ Hc) as (b & c' & -> & Hbu).
    rewrite (ci_prefix_other (js "s") 115 []
               ([] ++ (b :: c') ++ w ++ l ++ body ++ rest) b
               (c' ++ w ++ l ++ body ++ rest) eq_refl eq_refl); [exact Hcol|].
    rewrite Hbu. vm_compute. discriminate.
  - rewrite (ci_prefix_app _ _ _ Hs). simpl. rewrite Hcol. reflexivity.
Qed.

Lemma match_linkedin_inv s u rest :
  match_linkedin s = Some (u, rest) ->
  s = u ++ rest /\ is_linkedin_url u /\ take_while not_space rest = [].
Proof.
  unfold match_linkedin. destruct (url_end s) as [rest'|] eqn:E; [|discriminate].
  intros H. inversion H; subst rest'. clear H.
  apply url_end_inv in E as (p & body & -> & Hp & Hne & Hb & Hr).
  assert (El : length (p ++ body ++ rest) - length rest = length (p ++ body))
    by (rewrite !length_app; lia).
  rewrite El, app_assoc, firstn_app, Nat.sub_diag, firstn_all. simpl.
  rewrite app_nil_r. split; [reflexivity|]. split; [|exact Hr].
  exists p, body. auto.
Qed.

Lemma match_linkedin_consumes s u rest :
  match_linkedin s = Some (u, rest) -> length rest < length s.
Proof.
  intros H. apply match_linkedin_inv in H as (-> & (p & body & -> & _ & Hne & _) & _).
  rewrite !length_app. destruct body; [contradiction|]. simpl. lia.
Qed.

(** A whole address is matched from its first character to its last one. *)
Lemma match_linkedin_url u :
  is_linkedin_url u -> match_linkedin u = Some (u, []).
Proof.
  intros (p & body & -> & Hp & Hne & Hb).
  unfold match_linkedin.
  pose proof (url_end_app p body [] Hp Hne Hb eq_refl) as E.
  rewrite app_nil_r in E. rewrite E.
  change (length (@nil N)) with 0. rewrite Nat.sub_0_r, firstn_all. reflexivity.
Qed.

(** A match at the head of a text stays one, maybe a longer one, when the
    text goes on. *)
Lemma match_linkedin_extends x t :
  match_linkedin x <> None -> match_linkedin (x ++ t) <> None.
Proof.
  unfold match_linkedin. destruct (url_end x) as [rest|] eqn:E; [|congruence].
  intros _. apply url_end_inv in E as (p & body & -> & Hp & Hne & Hb & Hr).
  rewrite <- !app_assoc.
  rewrite <- (take_drop_while not_space (rest ++ t)).
  rewrite (app_assoc body).
  rewrite (url_end_app p (body ++ take_while not_space (rest ++ t))
             (drop_while not_space (rest ++ t)) Hp).
  - discriminate.
  - destruct body; [contradiction|discriminate].
  - rewrite forallb_app, Hb. apply take_while_all.
  - apply take_while_drop_while_nil.
Qed.

Lemma search_from_none i s :
  matches_in match_linkedin s = false -> search_from i s = None.
Proof.
  revert i. induction s as [|c r IH]; intros i H.
  - reflexivity.
  - rewrite matches_in_cons in H. cbn [search_from].
    unfold match_linkedin in H.
    destruct (url_end (c :: r)); [discriminate|]. apply IH. exact H.
Qed.

Lemma matches_in_skipn {A} (m : jstr -> option (A * jstr)) n : forall s,
  matches_in m s = false -> matches_in m (skipn n s) = false.
Proof.
  induction n as [|n IH]; intros s H; [exact H|].
  destruct s as [|c r]; [exact H|]. simpl skipn. apply IH.
  rewrite matches_in_cons in H. destruct (m (c :: r)); [discriminate|exact H].
Qed.

(** On a text without an address the test fails wherever the search starts,
    and leaves the position at 0. *)
Lemma regex_test_no_match lastIndex part :
  matches_in match_linkedin part = false ->
  regex_test lastIndex part = (false, 0).
Proof.
  intros H. unfold regex_test. destruct (length part <? lastIndex); [reflexivity|].
  rewrite search_from_none; [reflexivity|]. apply matches_in_skipn. exact H.
Qed.

(** On a whole address the test started at 0 succeeds, and leaves the
    position at the end of the address. *)
Lemma regex_test_url u :
  is_linkedin_url u -> regex_test 0 u = (true, length u).
Proof.
  intros H. apply match_linkedin_url in H. unfold match_linkedin in H.
  destruct (url_end u) as [rest|] eqn:E; [|discriminate].
  assert (rest = []) by congruence. subst rest. clear H.
  destruct u as [|c r]; [discriminate|].
  unfold regex_test. cbn [skipn search_from]. rewrite E. reflexivity.
Qed.

Lemma linkify_parts_shape parts :
  split_shape match_linkedin (fun url => [url]) is_linkedin_url parts ->
  forall lastIndex,
    linkify_parts lastIndex parts = pieces_and_links false parts.
Proof.
  induction 1 as [piece H|piece u parts H Hu _ IH]; intros lastIndex.
  - cbn [linkify_parts]. rewrite (regex_test_no_match _ _ H). reflexivity.
  - cbn [linkify_parts app pieces_and_links].
    rewrite (regex_test_no_match _ _ H), (regex_test_url _ Hu).
    cbn [negb]. rewrite IH. reflexivity.
Qed.

Lemma linkedin_parts_shape text :
  split_shape match_linkedin (fun url => [url]) is_linkedin_url
    (split_all match_linkedin (fun url => [url]) text).
Proof.
  apply split_all_shape.
  - exact match_linkedin_consumes.
  - exact match_linkedin_extends.
  - intros s u rest H. apply match_linkedin_inv in H. tauto.
Qed.

Lemma pieces_and_links_text link parts :
  concat (map element_text (pieces_and_links link parts)) = concat parts.
Proof.
  revert link. induction parts as [|p parts IH]; intros link; [reflexivity|].
  cbn [pieces_and_links map concat]. rewrite IH. destruct link; reflexivity.
Qed.

Lemma pieces_and_links_is_link parts : forall link i,
  Nat.odd i = link ->
  map is_link (pieces_and_links link parts)
  = map Nat.odd (seq i (length parts)).
Proof.
  induction parts as [|p parts IH]; intros link i Hi; [reflexivity|].
  cbn [pieces_and_links map length seq]. f_equal.
  - rewrite Hi. destruct link; reflexivity.
  - apply IH. rewrite Nat.odd_succ, <- Nat.negb_odd, Hi. reflexivity.
Qed.

Lemma pieces_and_links_length link parts :
  length (pieces_and_links link parts) = length parts.
Proof.
  revert link. induction parts as [|p parts IH]; intros link; [reflexivity|].
  simpl. rewrite IH. reflexivity.
Qed.

Lemma split_shape_odd (m : jstr -> option (jstr * jstr)) P parts :
  split_shape m (fun a => [a]) P parts -> Nat.odd (length parts) = true.
Proof.
  induction 1 as [piece H|piece u parts H Hu _ IH]; [reflexivity|].
  cbn [app length]. rewrite Nat.odd_succ, Nat.even_succ. exact IH.
Qed.

Lemma pieces_and_links_shape parts :
  split_shape match_linkedin (fun url => [url]) is_linkedin_url parts ->
  Forall (fun e => match e with
                   | Link href t => href = t /\ is_linkedin_url t
                   | Span t => matches_in match_linkedin t = false
                   | Br => False
                   end) (pieces_and_links false parts).
Proof.
  induction 1 as [piece H|piece u parts H Hu _ IH].
  - constructor; [exact H|constructor].
  - cbn [app pieces_and_links negb]. constructor; [exact H|].
    constructor; [split; [reflexivity|exact Hu]|exact IH].
Qed.

Lemma linkifyLinkedInInline_eq text :
  linkifyLinkedInInline text
  = pieces_and_links false (split_all match_linkedin (fun url => [url]) text).
Proof.
  unfold linkifyLinkedInInline.
  apply (linkify_parts_shape _ (linkedin_parts_shape text) 0).
Qed.

Lemma linkifyLinkedInInline_text text :
  concat (map element_text (linkifyLinkedInInline text)) = text.
Proof.
  rewrite linkifyLinkedInInline_eq, pieces_and_links_text.
  apply (split_all_reading match_linkedin (fun url => [url])
           match_linkedin_consumes (fun x => x)); [reflexivity|reflexivity|].
  intros s u rest H. apply match_linkedin_inv in H as (-> & _).
  simpl. rewrite app_nil_r. reflexivity.
Qed.

Lemma linkifyLinkedInInline_elements text :
  Forall (fun e => match e with
                   | Link href t => href = t /\ is_linkedin_url t
                   | Span t => matches_in match_linkedin t = false
                   | Br => False
                   end) (linkifyLinkedInInline text).
Proof.
  rewrite linkifyLinkedInInline_eq.
  apply pieces_and_links_shape, linkedin_parts_shape.
Qed.

(** X8.  [linkifyLinkedInInline]: the elements made from a line, read in
    order, give the line back: every link shows its own address as its text,
    and that address is a LinkedIn address ([http] or [https], [www.] or
    not, [linkedin.com/], one character or more up to the next whitespace, in
    any case of the letters); no other element holds such an address; links
    and pieces of text alternate, starting and ending with a piece of text.
    The position that the global pattern keeps between two tests never makes
    a test miss. *)
Theorem linkifyLinkedInInline_links (text : jstr) :
  let out := linkifyLinkedInInline text in
  concat (map element_text out) = text
  /\ map is_link out = map Nat.odd (seq 0 (length out))
  /\ Nat.odd (length out) = true
  /\ Forall (fun e => match e with
                      | Link href t => href = t /\ is_linkedin_url t
                      | Span t => matches_in match_linkedin t = false
                      | Br => False
                      end) out.
Proof.
  cbv zeta.
  split; [apply linkifyLinkedInInline_text|].
  split; [|split; [|apply linkifyLinkedInInline_elements]].
  - rewrite linkifyLinkedInInline_eq, pieces_and_links_length.
    apply pieces_and_links_is_link. reflexivity.
  - rewrite linkifyLinkedInInline_eq, pieces_and_links_length.
    apply (split_shape_odd _ _ _ (linkedin_parts_shape text)).
Qed.

(** ** Validation and the three exports *)

Lemma drop_while_all p s : forallb p s = true -> drop_while p s = [].
Proof.
  induction s as [|c s IH]; simpl; [reflexivity|].
  intros H. apply andb_true_iff in H as [-> H]. auto.
Qed.

(** A field is blank when it holds nothing but whitespace. *)
Lemma is_blank_spec x : is_blank x = forallb is_space x.
Proof.
  unfold is_blank. destruct (forallb is_space x) eqn:E.
  - unfold trim. rewrite (drop_while_all _ _ E). reflexivity.
  - destruct (is_empty (trim x)) eqn:E'; [|reflexivity].
    apply trim_empty_blank in E'. congruence.
Qed.

Lemma isFormValid_spec fs :
  isFormValid fs
  = negb (is_blank (f_employerCompanyName fs)) && negb (is_blank (f_position fs)).
Proof.
  unfold isFormValid, requiredErrors. cbv zeta.
  destruct (is_blank (f_employerCompanyName fs)), (is_blank (f_position fs));
    vm_compute; reflexivity.
Qed.

(** X9.  The form is valid exactly when neither the employer or company name
    nor the position is empty or made of whitespace only; each of them, when
    it is, gets its own message.  With an invalid form the three exports do
    nothing but show [Fill required fields first]; with a valid form none of
    them is refused; the PDF export returns before it builds anything exactly
    when the overflow flag is set and the user declines, and otherwise it
    ends without a file exactly when the PDF library throws. *)
Theorem exports_need_required_fields (measure : jstr -> Z) (fs : fields)
  (isOverflow confirm_ok pdf_throws clipboard_api_ok : bool) :
  let no_company := forallb is_space (f_employerCompanyName fs) in
  let no_position := forallb is_space (f_position fs) in
  let toast := js "Fill required fields first" in
  let pdf := downloadPdf measure fs isOverflow confirm_ok pdf_throws in
  isFormValid fs = negb (no_company || no_position)
  /\ requiredErrors fs !! js "employerCompanyName"
     = (if no_company then Some (js "Employer/Company Name is required")
        else None)
  /\ requiredErrors fs !! js "position"
     = (if no_position then Some (js "Position is required") else None)
  /\ (no_company || no_position = true ->
        pdf = Refused toast
        /\ downloadDocx fs = Refused toast
        /\ copyToClipboard fs clipboard_api_ok = Refused toast)
  /\ (no_company || no_position = false ->
        (forall t, pdf <> Refused t)
        /\ (forall t, downloadDocx fs <> Refused t)
        /\ (forall t, copyToClipboard fs clipboard_api_ok <> Refused t)
        /\ (pdf = Aborted <-> isOverflow = true /\ confirm_ok = false)
        /\ (pdf = Failed
            <-> (isOverflow = false \/ confirm_ok = true)
                /\ pdf_throws = true)).
Proof.
  cbv zeta.
  assert (Hv : isFormValid fs
               = negb (forallb is_space (f_employerCompanyName fs)
                       || forallb is_space (f_position fs))).
  { rewrite isFormValid_spec, !is_blank_spec, negb_orb. reflexivity. }
  split; [exact Hv|].
  split; [|split; [|split]].
  - unfold requiredErrors. cbv zeta. rewrite !is_blank_spec.
    destruct (forallb is_space (f_employerCompanyName fs)),
             (forallb is_space (f_position fs)); vm_compute; reflexivity.
  - unfold requiredErrors. cbv zeta. rewrite !is_blank_spec.
    destruct (forallb is_space (f_employerCompanyName fs)),
             (forallb is_space (f_position fs)); vm_compute; reflexivity.
  - intros Hb. rewrite Hb in Hv.
    unfold downloadPdf, downloadDocx, copyToClipboard. rewrite Hv. auto.
  - intros Hb. rewrite Hb in Hv.
    unfold downloadPdf, downloadDocx, copyToClipboard. rewrite Hv.
    cbn [negb]. cbv zeta.
    split; [|split; [|split; [|split]]].
    + intros t. destruct (isOverflow && negb confirm_ok), pdf_throws; discriminate.
    + intros t. discriminate.
    + intros t. destruct clipboard_api_ok; discriminate.
    + destruct isOverflow, confirm_ok, pdf_throws; cbn [andb negb];
        split; try discriminate; try tauto;
        intros [? ?]; discriminate.
    + destruct isOverflow, confirm_ok, pdf_throws; cbn [andb negb];
        split; try discriminate; try tauto;
        intros [[?|?] ?]; discriminate.
Qed.

(** ** File names *)

Lemma slug_spec_is_slug s : is_slug (slug_spec s).
Proof.
  unfold is_slug, slug_spec. split; [apply firstn_le_length|]. split.
  - apply forallb_firstn, squeeze_forallb; [reflexivity|].
    apply forallb_filter_same.
  - apply contains_firstn, squeeze_no_double.
Qed.

Lemma file_part_ok x fallback :
  fallback <> [] -> is_slug fallback ->
  file_part x fallback <> [] /\ is_slug (file_part x fallback).
Proof.
  intros Hne Hfb. unfold file_part. cbv zeta. rewrite slugifyFilePart_spec.
  destruct (slug_spec x) as [|c r] eqn:E; cbn [is_empty]; [auto|].
  split; [discriminate|]. rewrite <- E. apply slug_spec_is_slug.
Qed.

Lemma is_slug_literal s :
  (length s <=? 40) && forallb is_slug_char s
  && negb (contains [UNDERSCORE; UNDERSCORE] s) = true -> is_slug s.
Proof.
  intros H. apply andb_true_iff in H as [H H3]. apply andb_true_iff in H as [H1 H2].
  apply Nat.leb_le in H1. apply negb_true_iff in H3. split; auto.
Qed.

Lemma export_name_parts x y ext :
  export_name_ok ext
    (js "CoverLetter_" ++ file_part x (js "Company") ++ js "_"
     ++ file_part y (js "Position") ++ js "." ++ ext).
Proof.
  destruct (file_part_ok x (js "Company")) as (Hx & Hlx & Hcx & _);
    [discriminate|apply is_slug_literal; reflexivity|].
  destruct (file_part_ok y (js "Position")) as (Hy & Hly & Hcy & _);
    [discriminate|apply is_slug_literal; reflexivity|].
  exists (file_part x (js "Company")), (file_part y (js "Position")).
  split; [reflexivity|]. repeat (split; [assumption|]).
  rewrite !forallb_app, Hcx, Hcy. reflexivity.
Qed.

(** X10.  Whatever the fields hold, a file that an export produces has a
    plain name: [CoverLetter_<company>_<position>.pdf] (or [.docx]) where
    the two parts are not empty, have at most 40 characters each, and
    nothing before the extension is outside [[a-zA-Z0-9_-]]: no path
    separator, no whitespace, no dot. *)
Theorem export_file_names (measure : jstr -> Z) (fs : fields)
  (isOverflow confirm_ok pdf_throws : bool) :
  (forall f, downloadPdf measure fs isOverflow confirm_ok pdf_throws = Produced f ->
     export_name_ok (js "pdf") (pdf_name f))
  /\ (forall f, downloadDocx fs = Produced f ->
        export_name_ok (js "docx") (docx_name f)).
Proof.
  split; intros f; unfold downloadPdf, downloadDocx; cbv zeta;
    destruct (negb (isFormValid fs)); try discriminate.
  - destruct (isOverflow && negb confirm_ok); [discriminate|].
    destruct pdf_throws; [discriminate|].
    intros H. inversion H. cbn [pdf_name].
    apply (export_name_parts _ _ (js "pdf")).
  - intros H. inversion H. cbn [docx_name].
    apply (export_name_parts _ _ (js "docx")).
Qed.

Lemma drop_while_head p c r : p c = false -> drop_while p (c :: r) = c :: r.
Proof. intros H. simpl. rewrite H. reflexivity. Qed.

(** Trimming does nothing to a text without whitespace. *)
Lemma trim_no_space s :
  forallb (fun c => negb (is_space c)) s = true -> trim s = s.
Proof.
  intros H. unfold trim.
  assert (D : forall t, forallb (fun c => negb (is_space c)) t = true ->
                        drop_while is_space t = t).
  { intros [|c r] Ht; [reflexivity|]. simpl in Ht.
    apply andb_true_iff in Ht as [Hc _]. apply negb_true_iff in Hc.
    apply drop_while_head, Hc. }
  rewrite (D s H), D; [apply rev_involutive|].
  rewrite forallb_forall in *. intros c Hc. apply H, in_rev, Hc.
Qed.

Lemma squeeze_none p u s :
  forallb (fun c => negb (p c)) s = true -> squeeze p u s = s.
Proof.
  induction s as [|c r IH]; intros H; [reflexivity|].
  simpl in H. apply andb_true_iff in H as [Hc Hr].
  apply negb_true_iff in Hc. rewrite (squeeze_keep _ _ _ _ Hc), (IH Hr).
  reflexivity.
Qed.

Lemma filter_all (q : N -> bool) (s : jstr) :
  forallb q s = true -> List.filter q s = s.
Proof.
  induction s as [|c r IH]; intros H; [reflexivity|].
  simpl in *. apply andb_true_iff in H as [-> Hr]. rewrite (IH Hr). reflexivity.
Qed.

(** Collapsing does nothing where no two underscores follow each other. *)
Lemma squeeze_single s :
  contains [UNDERSCORE; UNDERSCORE] s = false ->
  squeeze is_underscore UNDERSCORE s = s.
Proof.
  induction s as [|c r IH]; intros H; [reflexivity|].
  apply contains_false_cons in H as [Hs Hr]. specialize (IH Hr).
  destruct (is_underscore c) eqn:Hc.
  - unfold is_underscore in Hc. apply N.eqb_eq in Hc. subst c.
    destruct r as [|c' r']; [reflexivity|].
    cbn [starts_with] in Hs. rewrite N.eqb_refl, andb_true_r in Hs.
    cbn [andb] in Hs.
    change (squeeze is_underscore UNDERSCORE (UNDERSCORE :: c' :: r'))
      with (if is_underscore c'
            then squeeze is_underscore UNDERSCORE (c' :: r')
            else UNDERSCORE :: squeeze is_underscore UNDERSCORE (c' :: r')).
    unfold is_underscore at 1. rewrite N.eqb_sym, Hs, IH. reflexivity.
  - rewrite (squeeze_keep _ _ _ _ Hc), IH. reflexivity.
Qed.

Lemma slug_char_classes c :
  is_slug_char c = true -> is_space c = false /\ is_sep c = false.
Proof.
  intros H. unfold is_slug_char in H. apply orb_true_iff in H as [H|H].
  - unfold is_sep. rewrite (ident_not_space _ H). split; [reflexivity|].
    class_arith H.
    destruct (N.eqb_spec c 47), (N.eqb_spec c 92); try reflexivity; lia.
  - apply N.eqb_eq in H. subst c. split; reflexivity.
Qed.

Lemma slugifyFilePart_is_slug s : is_slug s -> slugifyFilePart s = s.
Proof.
  intros (Hlen & Hch & Hdbl). rewrite slugifyFilePart_spec. unfold slug_spec.
  cbv zeta.
  rewrite (trim_no_space s), (squeeze_none is_sep UNDERSCORE s),
    (filter_all _ _ Hch), (squeeze_single _ Hdbl).
  - apply firstn_all2. exact Hlen.
  - rewrite forallb_forall in *. intros c Hc. apply negb_true_iff.
    apply slug_char_classes, Hch, Hc.
  - rewrite forallb_forall in *. intros c Hc. apply negb_true_iff.
    apply slug_char_classes, Hch, Hc.
Qed.

(** X11.  [slugifyFilePart] leaves alone a part that is already clean (at
    most 40 characters of [[a-zA-Z0-9_-]], no two underscores in a row), and
    so it is idempotent; the fallback of an empty part does not undo this. *)
Theorem slugifyFilePart_idempotent :
  (forall s, is_slug s -> slugifyFilePart s = s)
  /\ (forall s, slugifyFilePart (slugifyFilePart s) = slugifyFilePart s)
  /\ (forall x, file_part (file_part x (js "Company")) (js "Company")
                = file_part x (js "Company"))
  /\ (forall x, file_part (file_part x (js "Position")) (js "Position")
                = file_part x (js "Position")).
Proof.
  split; [exact slugifyFilePart_is_slug|].
  assert (Hid : forall s, slugifyFilePart (slugifyFilePart s) = slugifyFilePart s).
  { intros s. apply slugifyFilePart_is_slug. rewrite slugifyFilePart_spec.
    apply slug_spec_is_slug. }
  split; [exact Hid|].
  split; intros x; unfold file_part; cbv zeta;
    (destruct (slugifyFilePart x) as [|c r] eqn:E; cbn [is_empty];
     [vm_compute; reflexivity|rewrite <- E, Hid, E; reflexivity]).
Qed.

(** ** The page of the PDF export *)

Lemma layout_flat measure text :
  layout measure text
  = draw_lines (wrapped_lines measure text)
      {| cursor := line_position 0; drawn := [] |}.
Proof.
  unfold layout, wrapped_lines. cbv zeta.
  apply (draw_paragraphs_flat measure (split_lines text)
           {| cursor := (PAGE_H - MARGIN)%Z; drawn := [] |}).
  reflexivity.
Qed.

Lemma layout_drawn measure text :
  drawn (layout measure text)
  = combine (wrapped_lines measure text)
      (map line_position (seq 1 lines_per_page)).
Proof.
  rewrite layout_flat.
  destruct (draw_lines_spec (wrapped_lines measure text)
              {| cursor := line_position 0; drawn := [] |} 0 eq_refl ltac:(lia))
    as [Hd _].
  rewrite Hd, Nat.sub_0_r. reflexivity.
Qed.

Lemma layout_overflow measure text :
  overflow (layout measure text)
  = (lines_per_page <? length (wrapped_lines measure text)).
Proof.
  rewrite layout_flat.
  destruct (draw_lines_spec (wrapped_lines measure text)
              {| cursor := line_position 0; drawn := [] |} 0 eq_refl ltac:(lia))
    as [_ Hc].
  unfold overflow. rewrite Hc, line_position_margin. simpl plus.
  destruct (Nat.ltb_spec lines_per_page (length (wrapped_lines measure text)));
    [apply Nat.ltb_lt|apply Nat.ltb_ge]; lia.
Qed.

Lemma map_fst_combine {A B} (l : list A) : forall (ys : list B),
  map fst (combine l ys) = firstn (length ys) l.
Proof.
  induction l as [|a l IH]; intros [|y ys]; simpl; try reflexivity.
  f_equal. apply IH.
Qed.

Lemma map_snd_combine {A B} (l : list A) : forall (ys : list B),
  map snd (combine l ys) = firstn (length l) ys.
Proof.
  induction l as [|a l IH]; intros [|y ys]; simpl; try reflexivity.
  f_equal. apply IH.
Qed.

Lemma firstn_map_seq {A} (f : nat -> A) n : forall a k,
  firstn n (map f (seq a k)) = map f (seq a (min n k)).
Proof.
  induction n as [|n IH]; intros a [|k]; simpl; try reflexivity.
  f_equal. apply IH.
Qed.

(** A piece of a word read by [for (const ch of word)]: one code unit, or the
    two of a surrogate pair. *)
Lemma code_points_length s ch : In ch (code_points s) -> length ch <= 2.
Proof.
  remember (length s) as n eqn:Hn. revert s Hn.
  induction n as [n IH] using lt_wf_ind. intros s Hn.
  destruct s as [|c [|d r]]; [intros []|intros [<-|[]]; simpl; lia|].
  change (code_points (c :: d :: r))
    with (if is_high_surrogate c && is_low_surrogate d
          then [c; d] :: code_points r
          else [c] :: code_points (d :: r)).
  destruct (is_high_surrogate c && is_low_surrogate d);
    intros [<-|H]; try (simpl; lia).
  - apply (IH (length r) ltac:(subst n; simpl; lia) r eq_refl H).
  - apply (IH (length (d :: r)) ltac:(subst n; simpl; lia) (d :: r) eq_refl H).
Qed.

Lemma wrapLine_lines_ok measure maxWidth line :
  Forall (wrapped_line_ok measure maxWidth (split_ws line))
    (wrapLine measure maxWidth line).
Proof.
  unfold wrapLine. destruct (is_empty (trim line)).
  - constructor; [|constructor]. right. left. reflexivity.
  - apply wrap_words_ok; [auto|constructor|]. right. left. reflexivity.
Qed.

(** Where every code point fits, so does every line of the document. *)
Lemma wrapped_lines_fit measure text :
  (forall ch, length ch <= 2 -> (measure ch <= maxWidth)%Z) ->
  Forall (fun l => (measure l <= maxWidth)%Z) (wrapped_lines measure text).
Proof.
  intros Hch. unfold wrapped_lines. apply Forall_concat.
  apply List.Forall_forall. intros ls Hls.
  apply in_map_iff in Hls as (p & <- & _).
  apply (List.Forall_impl _ (P := wrapped_line_ok measure maxWidth (split_ws p)));
    [|apply wrapLine_lines_ok].
  intros l [Hfit|[-> |(w & _ & _ & Hl & _)]]; [exact Hfit| |].
  - apply Hch. simpl. lia.
  - apply Hch. apply (code_points_length _ _ Hl).
Qed.

Lemma wrapLine_strip measure maxWidth line :
  strip_ws (concat (wrapLine measure maxWidth line)) = strip_ws line.
Proof.
  unfold wrapLine. destruct (is_empty (trim line)) eqn:Hblank.
  - apply trim_empty_blank in Hblank. simpl. symmetry.
    apply strip_ws_blank. exact Hblank.
  - rewrite wrap_words_characters. simpl.
    rewrite (strip_ws_pieces _ (split_ws_pieces line)).
    apply split_ws_concat.
Qed.

Lemma strip_ws_join_lines ls : strip_ws (join_lines ls) = strip_ws (concat ls).
Proof.
  induction ls as [|l ls IH]; [reflexivity|].
  destruct ls as [|l2 ls]; [simpl; rewrite app_nil_r; reflexivity|].
  change (join_lines (l :: l2 :: ls)) with (l ++ [LF] ++ join_lines (l2 :: ls)).
  change (concat (l :: l2 :: ls)) with (l ++ concat (l2 :: ls)).
  rewrite !strip_ws_app, IH. reflexivity.
Qed.

(** The wrapped lines of a text hold its characters other than whitespace. *)
Lemma wrapped_lines_strip measure text :
  strip_ws (concat (wrapped_lines measure text)) = strip_ws text.
Proof.
  rewrite <- (join_split_lines text) at 2. rewrite strip_ws_join_lines.
  unfold wrapped_lines.
  induction (split_lines text) as [|p ps IH]; [reflexivity|].
  cbn [map concat]. rewrite concat_app, !strip_ws_app, IH, wrapLine_strip.
  reflexivity.
Qed.

Lemma downloadPdf_page measure fs isOverflow confirm_ok pdf_throws f :
  downloadPdf measure fs isOverflow confirm_ok pdf_throws = Produced f ->
  pdf_page f = drawn (layout measure (rendered fs)).
Proof.
  unfold downloadPdf. cbv zeta. destruct (negb (isFormValid fs)); [discriminate|].
  destruct (isOverflow && negb confirm_ok); [discriminate|].
  destruct pdf_throws; [discriminate|].
  intros H. inversion H. reflexivity.
Qed.

(** X12.  With a font in which every single code point fits between the
    margins, every line of the PDF lies inside the text box: it starts at
    the left margin and ends before the right one, its baseline is between
    the top and bottom margins; there are at most 48 lines, one line height
    apart from the top downwards, and they are the first wrapped lines of the
    rendered letter. *)
Theorem downloadPdf_inside_margins (measure : jstr -> Z) (fs : fields)
  (isOverflow confirm_ok pdf_throws : bool) (f : pdf_file) :
  (forall ch, length ch <= 2 -> (measure ch <= maxWidth)%Z) ->
  downloadPdf measure fs isOverflow confirm_ok pdf_throws = Produced f ->
  Forall (fun p =>
            (MARGIN + measure (fst p) <= PAGE_W - MARGIN)%Z
            /\ (MARGIN <= snd p <= PAGE_H - MARGIN - LINE_HEIGHT)%Z)
    (pdf_page f)
  /\ length (pdf_page f) <= 48
  /\ map snd (pdf_page f) = map line_position (seq 1 (length (pdf_page f)))
  /\ map fst (pdf_page f) = firstn 48 (wrapped_lines measure (rendered fs)).
Proof.
  intros Hch Hf. rewrite (downloadPdf_page _ _ _ _ _ _ Hf), layout_drawn.
  set (ls := wrapped_lines measure (rendered fs)).
  rewrite lines_per_page_48.
  assert (Hlen : length (combine ls (map line_position (seq 1 48)))
                 = min (length ls) 48)
    by (rewrite length_combine, length_map, length_seq; reflexivity).
  split; [|split; [lia|split]].
  - apply List.Forall_forall. intros [l y] Hin. cbn [fst snd].
    pose proof (in_combine_l _ _ _ _ Hin) as Hl.
    pose proof (in_combine_r _ _ _ _ Hin) as Hy.
    pose proof (wrapped_lines_fit measure (rendered fs) Hch) as Hfit.
    rewrite List.Forall_forall in Hfit. specialize (Hfit l Hl).
    apply in_map_iff in Hy as (i & <- & Hi). apply in_seq in Hi.
    unfold maxWidth in Hfit.
    unfold line_position, PAGE_W, PAGE_H, MARGIN, LINE_HEIGHT in *. lia.
  - rewrite Hlen, map_snd_combine, firstn_map_seq. reflexivity.
  - rewrite map_fst_combine, length_map, length_seq. reflexivity.
Qed.

Lemma downloadPdf_inside_margins_witness :
  exists f,
    downloadPdf sample_measure sample_fields false false false = Produced f
    /\ length (pdf_page f) = 41
    /\ Forall (fun p =>
                 (MARGIN + sample_measure (fst p) <= PAGE_W - MARGIN)%Z
                 /\ (MARGIN <= snd p <= PAGE_H - MARGIN - LINE_HEIGHT)%Z)
         (pdf_page f).
Proof.
  exists {| pdf_name := js "CoverLetter_Acme_Corp_Ltd_Office_Manager.pdf";
            pdf_page := drawn (layout sample_measure (rendered sample_fields)) |}.
  split; [vm_compute; reflexivity|]. split; [vm_compute; reflexivity|].
  apply (downloadPdf_inside_margins sample_measure sample_fields false false false).
  - intros ch Hch. unfold sample_measure, maxWidth, PAGE_W, MARGIN. lia.
  - vm_compute. reflexivity.
Defined.

(** X13.  When the loop of the PDF export never passes the bottom margin, the
    page holds every character of the rendered letter that is not
    whitespace, in order, whatever the widths are and wherever the lines were
    broken. *)
Theorem downloadPdf_keeps_characters (measure : jstr -> Z) (fs : fields)
  (isOverflow confirm_ok pdf_throws : bool) (f : pdf_file) :
  overflow (layout measure (rendered fs)) = false ->
  downloadPdf measure fs isOverflow confirm_ok pdf_throws = Produced f ->
  strip_ws (concat (map fst (pdf_page f))) = strip_ws (rendered fs).
Proof.
  intros Hov Hf. rewrite (downloadPdf_page _ _ _ _ _ _ Hf), layout_drawn.
  rewrite layout_overflow in Hov. apply Nat.ltb_ge in Hov.
  rewrite map_fst_combine, length_map, length_seq.
  rewrite firstn_all2 by exact Hov. apply wrapped_lines_strip.
Qed.

Lemma downloadPdf_keeps_characters_witness :
  exists f,
    downloadPdf sample_measure sample_fields false false false = Produced f
    /\ strip_ws (concat (map fst (pdf_page f)))
       = strip_ws (rendered sample_fields).
Proof.
  exists {| pdf_name := js "CoverLetter_Acme_Corp_Ltd_Office_Manager.pdf";
            pdf_page := drawn (layout sample_measure (rendered sample_fields)) |}.
  split; [vm_compute; reflexivity|].
  apply (downloadPdf_keeps_characters sample_measure sample_fields false false false).
  - vm_compute. reflexivity.
  - vm_compute. reflexivity.
Defined.

(** ** Whitespace normalization in the DOCX export and the preview *)

Lemma drop_while_stop p s d r : drop_while p s = d :: r -> p d = false.
Proof.
  induction s as [|c s IH]; simpl; [discriminate|].
  destruct (p c) eqn:E; [exact IH|]. intros H. inversion H; subst. exact E.
Qed.

Lemma drop_while_idem p s : drop_while p (drop_while p s) = drop_while p s.
Proof.
  destruct (drop_while p s) as [|d r] eqn:E; [reflexivity|].
  apply drop_while_head. apply (drop_while_stop _ _ _ _ E).
Qed.

Lemma squeeze_stable_head p u s :
  drop_while p s = s -> drop_while p (squeeze p u s) = squeeze p u s.
Proof.
  intros H. destruct s as [|d r]; [reflexivity|].
  pose proof (drop_while_stop _ _ _ _ H) as Hd.
  rewrite (squeeze_keep _ _ _ _ Hd). apply drop_while_head, Hd.
Qed.

Lemma squeeze_drop_leading s :
  drop_while is_space (squeeze is_space SP s)
  = squeeze is_space SP (drop_while is_space s).
Proof.
  destruct s as [|c r]; [reflexivity|].
  destruct (is_space c) eqn:Hc.
  - rewrite (squeeze_run _ _ _ _ Hc).
    change (drop_while is_space (SP :: squeeze is_space SP (drop_while is_space r)))
      with (drop_while is_space (squeeze is_space SP (drop_while is_space r))).
    rewrite squeeze_stable_head by apply drop_while_idem.
    simpl. rewrite Hc. reflexivity.
  - rewrite (squeeze_keep _ _ _ _ Hc), !(drop_while_head _ _ _ Hc).
    rewrite (squeeze_keep _ _ _ _ Hc). reflexivity.
Qed.

Lemma squeeze_word_app p u w rest :
  forallb (fun c => negb (p c)) w = true ->
  squeeze p u (w ++ rest) = w ++ squeeze p u rest.
Proof.
  induction w as [|c w IH]; intros H; [reflexivity|].
  simpl in H. apply andb_true_iff in H as [Hc Hw]. apply negb_true_iff in Hc.
  simpl app. rewrite (squeeze_keep _ _ _ _ Hc), (IH Hw). reflexivity.
Qed.

Lemma drop_while_app_keep p x y :
  drop_while p x <> [] -> drop_while p (x ++ y) = drop_while p x ++ y.
Proof.
  induction x as [|c x IH]; simpl; [contradiction|].
  destruct (p c); [exact IH|reflexivity].
Qed.

Lemma trim_end_app a b :
  trim_end b <> [] -> trim_end (a ++ b) = a ++ trim_end b.
Proof.
  unfold trim_end. intros H. rewrite rev_app_distr, drop_while_app_keep.
  - rewrite rev_app_distr, rev_involutive. reflexivity.
  - intros E. rewrite E in H. apply H. reflexivity.
Qed.

Lemma trim_end_word w :
  forallb (fun c => negb (is_space c)) w = true -> trim_end w = w.
Proof.
  intros H. unfold trim_end.
  destruct (rev w) as [|c r] eqn:E.
  - apply (f_equal (@rev N)) in E. rewrite rev_involutive in E. subst. reflexivity.
  - rewrite drop_while_head; [rewrite <- E; apply rev_involutive|].
    rewrite forallb_forall in H. apply negb_true_iff, H, in_rev.
    rewrite E. left. reflexivity.
Qed.

Lemma trim_end_app_blank a b :
  forallb is_space b = true -> trim_end (a ++ b) = trim_end a.
Proof.
  intros H. unfold trim_end. rewrite rev_app_distr, drop_while_app; [reflexivity|].
  rewrite forallb_forall in *. intros c Hc. apply H, in_rev, Hc.
Qed.

Lemma words_drop_leading s : words (drop_while is_space s) = words s.
Proof.
  induction s as [|c r IH]; [reflexivity|]. simpl.
  destruct (is_space c) eqn:Hc; [|reflexivity].
  rewrite (words_space _ _ Hc). exact IH.
Qed.

Lemma join_sp_cons w ws :
  ws <> [] -> join_sp (w :: ws) = w ++ [SP] ++ join_sp ws.
Proof. destruct ws; [contradiction|reflexivity]. Qed.

(** The squeezed text of a text that does not start with whitespace, without
    its trailing blank, is the words of the text joined by single blanks. *)
Lemma trim_end_squeeze n : forall s,
  length s <= n -> drop_while is_space s = s ->
  trim_end (squeeze is_space SP s) = join_sp (words s).
Proof.
  induction n as [|n IH]; intros s Hn Hs.
  - destruct s; [reflexivity|simpl in Hn; lia].
  - destruct s as [|c r]; [reflexivity|].
    pose proof (drop_while_stop _ _ _ _ Hs) as Hc.
    pose proof (take_drop_while (fun c => negb (is_space c)) (c :: r)) as Esplit.
    pose proof (take_while_all (fun c => negb (is_space c)) (c :: r)) as Hw.
    assert (Hlen : length (take_while (fun c => negb (is_space c)) (c :: r))
                   + length (drop_while (fun c => negb (is_space c)) (c :: r))
                   = S (length r))
      by (rewrite <- length_app, Esplit; reflexivity).
    assert (Hwne : take_while (fun c => negb (is_space c)) (c :: r) <> [])
      by (simpl; rewrite Hc; discriminate).
    destruct (take_while (fun c => negb (is_space c)) (c :: r)) as [|w0 w'] eqn:Ew;
      [contradiction|].
    set (w := w0 :: w') in *.
    destruct (drop_while (fun c => negb (is_space c)) (c :: r)) as [|d r'] eqn:Er.
    + rewrite app_nil_r in Esplit. rewrite <- Esplit.
      rewrite (squeeze_none is_space SP w Hw), (trim_end_word w Hw).
      rewrite (words_word w Hw). reflexivity.
    + pose proof (drop_while_stop _ _ _ _ Er) as Hd.
      apply negb_false_iff in Hd.
      rewrite <- Esplit.
      rewrite (squeeze_word_app is_space SP w (d :: r') Hw).
      rewrite (squeeze_run _ _ _ _ Hd).
      rewrite (words_app_space w d r' Hd), (words_word w Hw).
      cbn [is_empty w]. rewrite <- (words_drop_leading r').
      assert (Hlen' : length (drop_while is_space r') <= n).
      { pose proof (drop_while_length is_space r').
        unfold w in Hlen. simpl in Hlen, Hn. lia. }
      specialize (IH (drop_while is_space r') Hlen' (drop_while_idem _ _)).
      destruct (drop_while is_space r') as [|e s'] eqn:Es.
      * change (squeeze is_space SP []) with (@nil N).
        rewrite (trim_end_app_blank w [SP] eq_refl), (trim_end_word w Hw).
        simpl. reflexivity.
      * pose proof (drop_while_stop _ _ _ _ Es) as He.
        assert (Hne : words (e :: s') <> [])
          by (rewrite (words_char _ _ He); discriminate).
        assert (Hj : join_sp (words (e :: s')) <> []).
        { rewrite (words_char _ _ He).
          destruct (List.filter (fun w => negb (is_empty w))
                      (tl (split_ws s'))); discriminate. }
        rewrite <- IH in Hj.
        change (w ++ SP :: squeeze is_space SP (e :: s'))
          with (w ++ [SP] ++ squeeze is_space SP (e :: s')).
        rewrite app_assoc, (trim_end_app _ _ Hj), IH, <- app_assoc.
        change ([w] ++ words (e :: s')) with (w :: words (e :: s')).
        rewrite (join_sp_cons _ _ Hne). reflexivity.
Qed.

(** [text.replace(/\s+/g, " ").trim()]: the words of the text, joined by
    single blanks. *)
Lemma compact_text_spec text : compact_text text = normalize_ws text.
Proof.
  unfold compact_text, normalize_ws. rewrite replace_runs_squeeze.
  change (trim (squeeze is_space SP text))
    with (trim_end (drop_while is_space (squeeze is_space SP text))).
  rewrite squeeze_drop_leading.
  rewrite (trim_end_squeeze (length (drop_while is_space text)) _
             (Nat.le_refl _) (drop_while_idem _ _)).
  rewrite words_drop_leading. reflexivity.
Qed.

(** X14.  The text that decides whether a paragraph is justified, in the DOCX
    export as in the preview, is the words of the paragraph joined by single
    blanks: a paragraph is justified exactly when its words, counted with one
    blank between two of them, make more than 120 characters, whatever
    whitespace or line breaks it holds; the two places always agree. *)
Theorem justified_by_words (para : jstr) :
  compact_text para = normalize_ws para
  /\ para_alignment (docx_paragraph_of para)
     = (if 120 <? length (normalize_ws para) then JUSTIFIED else LEFT)
  /\ justify (preview_paragraph_of para) = (120 <? length (normalize_ws para))
  /\ (forall para', words para' = words para ->
        para_alignment (docx_paragraph_of para')
        = para_alignment (docx_paragraph_of para)
        /\ justify (preview_paragraph_of para')
           = justify (preview_paragraph_of para)).
Proof.
  split; [apply compact_text_spec|].
  unfold docx_paragraph_of, preview_paragraph_of. cbv zeta.
  cbn [para_alignment justify]. rewrite compact_text_spec.
  split; [reflexivity|]. split; [reflexivity|].
  intros para' Hw. rewrite compact_text_spec. unfold normalize_ws.
  rewrite Hw. split; reflexivity.
Qed.

(** ** What [compressBlankLines] leaves untouched *)

(** A replacement changes a reading [phi] of the text, one that goes through
    concatenation, only as far as the matches and their replacements differ
    under it. *)
Lemma replace_all_reading {A B} (m : jstr -> option (A * jstr))
  (f : A -> jstr) (phi : jstr -> list B) :
  (forall s a rest, m s = Some (a, rest) -> length rest < length s) ->
  (forall a b, phi (a ++ b) = phi a ++ phi b) ->
  (forall s a rest, m s = Some (a, rest) -> phi (f a) ++ phi rest = phi s) ->
  forall s, phi (replace_all m f s) = phi s.
Proof.
  intros Hcons Happ Hm.
  apply (replace_all_ind m f Hcons (fun s out => phi out = phi s)).
  - reflexivity.
  - intros s a rest E IH. rewrite Happ, IH. apply (Hm _ _ _ E).
  - intros c r E IH.
    change (c :: replace_all m f r) with ([c] ++ replace_all m f r).
    change (c :: r) with ([c] ++ r). rewrite !Happ, IH. reflexivity.
Qed.

Lemma blank_line_prefix s : forall r,
  blank_line s = Some r ->
  exists pre, s = pre ++ r /\ pre <> []
              /\ forallb (fun c => is_hws c || N.eqb c LF) pre = true.
Proof.
  induction s as [|c s IH]; intros r H; simpl in H; [discriminate|].
  destruct (N.eqb c LF) eqn:Ec.
  - inversion H; subst. exists [c]. split; [reflexivity|].
    split; [discriminate|]. cbn [forallb]. rewrite Ec, orb_true_r. reflexivity.
  - destruct (is_hws c) eqn:Eh; [|discriminate].
    destruct (IH _ H) as (pre & -> & _ & Hpre). exists (c :: pre).
    split; [reflexivity|]. split; [discriminate|].
    cbn [forallb]. rewrite Eh, Hpre. reflexivity.
Qed.

Lemma blank_lines_prefix s : forall commit pre0,
  commit = pre0 ++ s ->
  forallb (fun c => is_hws c || N.eqb c LF) pre0 = true ->
  exists pre, commit = pre ++ blank_lines commit s
              /\ forallb (fun c => is_hws c || N.eqb c LF) pre = true.
Proof.
  induction s as [|c s IH]; intros commit pre0 H Hpre0; simpl.
  - exists []. split; reflexivity.
  - destruct (N.eqb c LF) eqn:Ec.
    + destruct (IH s [] eq_refl eq_refl) as (pre & Hpre & Hb).
      exists (pre0 ++ c :: pre). split.
      * rewrite H at 1. rewrite <- app_assoc. simpl. rewrite <- Hpre. reflexivity.
      * rewrite forallb_app, Hpre0. cbn [forallb].
        rewrite Ec, orb_true_r, Hb. reflexivity.
    + destruct (is_hws c) eqn:Eh.
      * apply (IH commit (pre0 ++ [c])).
        -- rewrite <- app_assoc. exact H.
        -- rewrite forallb_app, Hpre0. cbn [forallb]. rewrite Eh. reflexivity.
      * exists []. split; reflexivity.
Qed.

(** What the second pattern matches: three characters or more, all of them
    newlines, blanks or tabs. *)
Lemma match_blank_run_prefix s a rest :
  match_blank_run s = Some (a, rest) ->
  exists pre, s = pre ++ rest /\ 3 <= length pre
              /\ forallb (fun c => is_hws c || N.eqb c LF) pre = true.
Proof.
  destruct a. intros H.
  destruct (match_blank_run_inv _ _ H) as (r & r1 & r2 & -> & H1 & H2 & ->).
  destruct (blank_line_prefix _ _ H1) as (p1 & -> & Hn1 & Hb1).
  destruct (blank_line_prefix _ _ H2) as (p2 & Hp2 & Hn2 & Hb2).
  destruct (blank_lines_prefix r2 r2 [] eq_refl eq_refl) as (p3 & Hp3 & Hb3).
  exists (LF :: p1 ++ p2 ++ p3). split; [|split].
  - simpl. f_equal. rewrite <- !app_assoc. rewrite <- Hp3. rewrite Hp2. reflexivity.
  - destruct p1; [contradiction|]. destruct p2; [contradiction|].
    simpl. rewrite !length_app. simpl. lia.
  - cbn [forallb]. rewrite !forallb_app, Hb1, Hb2, Hb3. reflexivity.
Qed.

Lemma filter_none (q : N -> bool) (pre : jstr) :
  (forall c, In c pre -> q c = false) -> List.filter q pre = [].
Proof.
  induction pre as [|c pre IH]; intros H; [reflexivity|].
  simpl. rewrite (H c (or_introl eq_refl)). apply IH.
  intros x Hx. apply H. right. exact Hx.
Qed.

(** The two replacements add and remove nothing but carriage returns,
    newlines, blanks and tabs. *)
Lemma compressBlankLines_filter (q : N -> bool) (s : jstr) :
  q CR = false -> q LF = false -> q SP = false -> q TAB = false ->
  List.filter q (compressBlankLines s) = List.filter q s.
Proof.
  intros Hcr Hlf Hsp Htab. rewrite compressBlankLines_eq.
  unfold collapse_blank_runs, normalize_crlf.
  rewrite (replace_all_reading match_blank_run _ (List.filter q)
             match_blank_run_consumes (List.filter_app q)).
  - apply (replace_all_reading match_crlf _ (List.filter q)
             match_crlf_consumes (List.filter_app q)).
    intros s0 a rest E. apply match_crlf_inv in E. subst s0.
    simpl. rewrite Hcr, Hlf. reflexivity.
  - intros s0 a rest E.
    destruct (match_blank_run_prefix _ _ _ E) as (pre & -> & _ & Hpre).
    rewrite List.filter_app. simpl. rewrite Hlf. f_equal. symmetry.
    apply filter_none. intros c Hc.
    rewrite forallb_forall in Hpre. specialize (Hpre c Hc).
    apply orb_true_iff in Hpre as [Hh|Hl].
    + unfold is_hws in Hh. apply orb_true_iff in Hh as [Hh|Hh];
        apply N.eqb_eq in Hh; subst c; assumption.
    + apply N.eqb_eq in Hl. subst c. assumption.
Qed.

Lemma replace_all_shorter {A} (m : jstr -> option (A * jstr)) (f : A -> jstr) :
  (forall s a rest, m s = Some (a, rest) ->
     length (f a) + length rest <= length s /\ length rest < length s) ->
  forall s, length (replace_all m f s) <= length s.
Proof.
  intros Hm.
  apply (replace_all_ind m f (fun s a rest E => proj2 (Hm s a rest E))
           (fun s out => length out <= length s)).
  - simpl. lia.
  - intros s a rest E IH. rewrite length_app.
    destruct (Hm _ _ _ E) as [Hl _]. lia.
  - intros c r E IH. simpl. lia.
Qed.

(** X15.  [compressBlankLines] touches whitespace only: the characters other
    than whitespace are the same, in the same order, before and after; the
    text never gets longer; and a text without a carriage return before a
    newline and without a run of two blank lines or more comes back as it
    is. *)
Theorem compressBlankLines_whitespace_only (s : jstr) :
  strip_ws (compressBlankLines s) = strip_ws s
  /\ length (compressBlankLines s) <= length s
  /\ (contains [CR; LF] s = false ->
      matches_in match_blank_run s = false -> compressBlankLines s = s).
Proof.
  split; [|split].
  - apply compressBlankLines_filter; reflexivity.
  - rewrite compressBlankLines_eq. unfold collapse_blank_runs, normalize_crlf.
    etransitivity.
    + apply replace_all_shorter. intros s0 a rest E.
      split; [|apply (match_blank_run_consumes _ _ _ E)].
      destruct (match_blank_run_prefix _ _ _ E) as (pre & -> & Hlen & _).
      rewrite length_app. simpl. lia.
    + apply replace_all_shorter. intros s0 a rest E.
      split; [|apply (match_crlf_consumes _ _ _ E)].
      apply match_crlf_inv in E. subst s0. simpl. lia.
  - intros Hcr Hrun. rewrite compressBlankLines_eq, (normalize_crlf_id _ Hcr).
    apply replace_all_no_match; [apply match_blank_run_consumes|exact Hrun].
Qed.

(** ** The placeholders of [rendered] *)

Lemma contains_char_In c s : contains [c] s = true <-> In c s.
Proof.
  induction s as [|x s IH]; [split; [discriminate|intros []]|].
  rewrite contains_cons, orb_true_iff, IH. cbn [starts_with].
  rewrite andb_true_r, N.eqb_eq. simpl. split; intros [H|H]; auto.
Qed.

Lemma contains_char_false c s : contains [c] s = false <-> ~ In c s.
Proof.
  rewrite <- contains_char_In. destruct (contains [c] s); split; intros H;
    try reflexivity; try discriminate; try congruence.
Qed.

Lemma drop_while_incl p s x : In x (drop_while p s) -> In x s.
Proof.
  induction s as [|c s IH]; simpl; [auto|].
  destruct (p c); [right; auto|auto].
Qed.

Lemma trim_incl s x : In x (trim s) -> In x s.
Proof.
  unfold trim. intros H. apply in_rev in H.
  apply drop_while_incl, in_rev, drop_while_incl in H. exact H.
Qed.

(** A number written in decimal is made of digits. *)
Lemma decimal_digits n c : In c (decimal n) -> is_digit c = true.
Proof.
  unfold decimal. generalize (N.to_uint n). intros u.
  induction u as [|u IH|u IH|u IH|u IH|u IH|u IH|u IH|u IH|u IH|u IH];
    simpl; (intros [<-|H]; [reflexivity|auto]) || intros [].
Qed.

Lemma month_name_letters m c : In c (month_name m) -> is_ident c = true.
Proof.
  unfold month_name. intros H.
  assert (Hall : forallb (forallb is_ident) month_names = true) by reflexivity.
  rewrite forallb_forall in Hall.
  destruct (nth_in_or_default (N.to_nat (m - 1)) month_names []) as [Hin|E].
  - specialize (Hall _ Hin). rewrite forallb_forall in Hall. apply Hall, H.
  - rewrite E in H. destruct H.
Qed.

(** The date of the letter holds a brace only if the field does. *)
Lemma formatToCanadianLong_brace value :
  In LBRACE (formatToCanadianLong value) -> In LBRACE value.
Proof.
  unfold formatToCanadianLong.
  destruct (is_empty value); [intros []|].
  destruct (is_iso_date value); [|auto].
  destruct (parse_iso_date value) as [d|] eqn:E; [|auto].
  intros H. exfalso. unfold intl_format_en_CA in H.
  assert (Hd : (day d <= 31)%N) by (apply (parse_iso_date_range _ _ E)).
  repeat (apply in_app_or in H; destruct H as [H|H]).
  - apply month_name_letters in H. discriminate.
  - destruct H as [H|[]]. discriminate.
  - unfold two_digits in H.
    assert (day d / 10 < 4)%N
      by (apply N.Div0.div_lt_upper_bound; lia).
    pose proof (N.mod_upper_bound (day d) 10 ltac:(discriminate)).
    unfold LBRACE in H. destruct H as [H|[H|[]]]; lia.
  - destruct H as [H|[H|[]]]; discriminate.
  - apply decimal_digits in H. discriminate.
Qed.

Lemma compressBlankLines_incl s c :
  c <> CR -> c <> LF -> c <> SP -> c <> TAB ->
  In c (compressBlankLines s) -> In c s.
Proof.
  intros H1 H2 H3 H4 H.
  assert (E : List.filter (N.eqb c) (compressBlankLines s)
              = List.filter (N.eqb c) s)
    by (apply compressBlankLines_filter; apply N.eqb_neq; assumption).
  assert (Hin : In c (List.filter (N.eqb c) (compressBlankLines s)))
    by (apply List.filter_In; split; [exact H|apply N.eqb_refl]).
  rewrite E in Hin. apply List.filter_In in Hin. tauto.
Qed.

(** The characters of a filled template: those of the text around the
    placeholders, and those of the values. *)
Lemma applyTemplate_incl (values : gmap jstr jsval) c : forall template : jstr,
  In c (applyTemplate template values) ->
  In c (template_literal template)
  \/ exists key, In key (template_keys template)
                 /\ In c (to_text (get_property values key)).
Proof.
  unfold applyTemplate.
  apply (replace_all_ind match_placeholder
           (fun key => let v := get_property values key in to_text v)
           match_placeholder_consumes
           (fun s out =>
              In c out ->
              In c (template_literal s)
              \/ exists key, In key (template_keys s)
                             /\ In c (to_text (get_property values key)))).
  - intros [].
  - intros s key rest Hm IH H.
    rewrite (template_literal_match _ _ _ Hm), (template_keys_match _ _ _ Hm).
    apply in_app_or in H as [H|H].
    + right. exists key. split; [left; reflexivity|exact H].
    + destruct (IH H) as [Hl|(k & Hk & Hv)]; [left; exact Hl|].
      right. exists k. split; [right; exact Hk|exact Hv].
  - intros x r Hm IH H.
    rewrite (template_literal_skip _ _ Hm), (template_keys_skip _ _ Hm).
    destruct H as [<-|H]; [left; left; reflexivity|].
    destruct (IH H) as [Hl|Hk]; [left; right; exact Hl|right; exact Hk].
Qed.

(** The value of each placeholder that [rendered] knows. *)
Lemma normalized_values_lookup fs key :
  In key normalized_keys ->
  exists v, normalized_values fs !! key = Some (VString v)
    /\ (v = formatToCanadianLong (f_date fs)
        \/ v = f_employerCompanyName fs
        \/ v = trim (f_employerCompanyName fs)
        \/ v = f_companyAddressLine1 fs
        \/ v = f_companyAddressLine2 fs
        \/ v = f_position fs).
Proof.
  intros H. unfold normalized_keys in H. unfold normalized_values. cbv zeta.
  remember (formatToCanadianLong (f_date fs)) as vdate eqn:Edate.
  remember (trim (f_employerCompanyName fs)) as vname eqn:Ename.
  repeat (destruct H as [<-|H]; [eexists; split; [vm_compute; reflexivity|tauto]|]).
  destruct H.
Qed.

(** X16.  With a template whose braces all belong to placeholders among
    [date], [employerCompanyName], [companyAddressLine1],
    [companyAddressLine2], [position], [employerName] and [companyName], and
    fields without an opening brace, the rendered letter holds no opening
    brace, and so no placeholder is left in it. *)
Theorem rendered_fills_placeholders (fs : fields) :
  contains [LBRACE] (template_literal (f_template fs)) = false ->
  (forall key, In key (template_keys (f_template fs)) ->
     In key normalized_keys) ->
  contains [LBRACE] (f_date fs) = false ->
  contains [LBRACE] (f_employerCompanyName fs) = false ->
  contains [LBRACE] (f_companyAddressLine1 fs) = false ->
  contains [LBRACE] (f_companyAddressLine2 fs) = false ->
  contains [LBRACE] (f_position fs) = false ->
  contains [LBRACE] (rendered fs) = false
  /\ matches_in match_placeholder (rendered fs) = false.
Proof.
  intros Hlit Hkeys Hd He H1 H2 Hp.
  enough (G : contains [LBRACE] (rendered fs) = false)
    by (split; [exact G|apply no_brace_no_placeholder, G]).
  rewrite contains_char_false in *. intros H.
  change (rendered fs)
    with (compressBlankLines
            (applyTemplate (f_template fs) (normalized_values fs))) in H.
  apply compressBlankLines_incl in H; try discriminate.
  apply applyTemplate_incl in H as [H|(key & Hk & Hv)]; [exact (Hlit H)|].
  destruct (normalized_values_lookup fs key (Hkeys key Hk)) as (v & Hl & Hcase).
  unfold get_property in Hv. rewrite Hl in Hv. cbn [to_text] in Hv.
  destruct Hcase as [->|[->|[->|[->|[->| ->]]]]]; auto.
  - apply Hd, formatToCanadianLong_brace, Hv.
  - apply He, trim_incl, Hv.
Qed.

Lemma rendered_fills_placeholders_witness :
  template_keys (f_template sample_fields)
  = [js "date"; js "employerName"; js "companyAddressLine1";
     js "companyAddressLine2"; js "position"]
  /\ contains [LBRACE] (rendered sample_fields) = false
  /\ matches_in match_placeholder (rendered sample_fields) = false.
Proof.
  split; [vm_compute; reflexivity|].
  apply (rendered_fills_placeholders sample_fields); try (vm_compute; reflexivity).
  intros key Hk.
  assert (E : template_keys (f_template sample_fields)
              = [js "date"; js "employerName"; js "companyAddressLine1";
                 js "companyAddressLine2"; js "position"])
    by (vm_compute; reflexivity).
  rewrite E in Hk. unfold normalized_keys.
  repeat (destruct Hk as [<-|Hk]; [simpl; tauto|]). destruct Hk.
Defined.

(** ** The paragraphs of the preview *)

Lemma preview_text_from lines : forall k n,
  k + length lines = S n ->
  concat
    (map element_text
       (concat
          (map (fun '(li, line) =>
                  linkifyLinkedInInline line
                  ++ (if li <? n then [Br] else []))
             (combine (seq k (length lines)) lines))))
  = join_lines lines.
Proof.
  induction lines as [|l ls IH]; intros k n H; [reflexivity|].
  destruct ls as [|l2 ls].
  - simpl in *. replace (k <? n) with false by (symmetry; apply Nat.ltb_ge; lia).
    rewrite !app_nil_r. apply linkifyLinkedInInline_text.
  - change (length (l :: l2 :: ls)) with (S (length (l2 :: ls))).
    cbn [seq combine map concat]. cbn [length] in H.
    replace (k <? n) with true by (symmetry; apply Nat.ltb_lt; lia).
    rewrite !map_app, !concat_app, linkifyLinkedInInline_text.
    rewrite (IH (S k) n) by (cbn [length]; lia).
    rewrite <- app_assoc. reflexivity.
Qed.

Lemma preview_paragraph_text para :
  concat (map element_text (preview_children (preview_paragraph_of para)))
  = para.
Proof.
  unfold preview_paragraph_of. cbn [preview_children].
  pose proof (split_lines_not_nil para) as Hne.
  transitivity (join_lines (split_lines para)); [|apply join_split_lines].
  destruct (split_lines para) as [|l ls]; [contradiction|].
  cbn [length]. rewrite Nat.sub_1_r. cbn [Nat.pred].
  apply (preview_text_from (l :: ls) 0 (length ls)). reflexivity.
Qed.

(** X17.  The preview shows the letter and nothing else: the elements of a
    paragraph, read in order with a newline for each line break, are the
    text of the paragraph; each link points to the LinkedIn address it
    shows, and no address is left in plain text; over all the paragraphs,
    every character of the rendered letter that is not whitespace is shown,
    in order. *)
Theorem preview_shows_letter (para rendered_text : jstr) :
  concat (map element_text (preview_children (preview_paragraph_of para)))
  = para
  /\ Forall (fun e => match e with
                      | Link href t => href = t /\ is_linkedin_url t
                      | Span t => matches_in match_linkedin t = false
                      | Br => True
                      end)
       (preview_children (preview_paragraph_of para))
  /\ strip_ws
       (concat
          (map (fun p => concat (map element_text (preview_children p)))
             (previewParagraphs rendered_text)))
     = strip_ws rendered_text.
Proof.
  split; [apply preview_paragraph_text|]. split.
  - unfold preview_paragraph_of. cbn [preview_children].
    apply List.Forall_forall. intros e He.
    apply in_concat in He as (es & Hes & He).
    apply in_map_iff in Hes as ([li line] & <- & _).
    apply in_app_or in He as [He|He].
    + pose proof (linkifyLinkedInInline_elements line) as Hl.
      rewrite List.Forall_forall in Hl. specialize (Hl e He).
      destruct e; [exact Hl|exact Hl|exact I].
    + destruct (li <? length (split_lines para) - 1); [|destruct He].
      destruct He as [<-|[]]. exact I.
  - unfold previewParagraphs. rewrite map_map.
    rewrite <- (splitIntoParagraphs_strip rendered_text). f_equal. f_equal.
    rewrite <- (map_id (splitIntoParagraphs rendered_text)) at 2.
    apply map_ext. intros p. apply preview_paragraph_text.
Qed.

(** ** What [applyTemplate] reads *)

Lemma no_token_start_no_placeholder s :
  contains [LBRACE; LBRACE] s = false ->
  matches_in match_placeholder s = false.
Proof.
  induction s as [|c r IH]; intros H; [reflexivity|].
  apply contains_false_cons in H as [Hs Hr].
  rewrite matches_in_cons.
  destruct (match_placeholder (c :: r)) as [[key rest]|] eqn:E; [|auto].
  destruct (match_placeholder_inv _ _ _ E) as (ws1 & ws2 & Es & _).
  rewrite Es in Hs. discriminate.
Qed.

Lemma applyTemplate_same_values (values1 values2 : gmap jstr jsval) :
  forall template : jstr,
  (forall key, In key (template_keys template) ->
     to_text (get_property values1 key) = to_text (get_property values2 key)) ->
  applyTemplate template values1 = applyTemplate template values2.
Proof.
  unfold applyTemplate.
  apply (replace_all_ind match_placeholder
           (fun key => let v := get_property values1 key in to_text v)
           match_placeholder_consumes
           (fun s out =>
              (forall key, In key (template_keys s) ->
                 to_text (get_property values1 key)
                 = to_text (get_property values2 key)) ->
              out = replace_all match_placeholder
                      (fun key => let v := get_property values2 key in to_text v)
                      s)).
  - intros _. symmetry. apply replace_all_nil, match_placeholder_consumes.
  - intros s key rest Hm IH H.
    rewrite (template_keys_match _ _ _ Hm) in H.
    rewrite (replace_all_match match_placeholder _ match_placeholder_consumes
               _ key rest Hm).
    cbv zeta. rewrite (H key (or_introl eq_refl)). f_equal.
    apply IH. intros k Hk. apply H. right. exact Hk.
  - intros c r Hm IH H.
    rewrite (template_keys_skip _ _ Hm) in H.
    rewrite (replace_all_skip match_placeholder _ _ _ Hm). f_equal.
    apply IH, H.
Qed.

(** X18.  [applyTemplate] reads the values of the placeholders of the
    template and nothing else: two values objects that give the same text
    for each of them give the same result, whatever else they hold; and a
    template without two opening braces in a row comes back as it is. *)
Theorem applyTemplate_reads_placeholders_only (template : jstr)
  (values values' : gmap jstr jsval) :
  ((forall key, In key (template_keys template) ->
      to_text (get_property values key) = to_text (get_property values' key)) ->
   applyTemplate template values = applyTemplate template values')
  /\ (contains [LBRACE; LBRACE] template = false ->
      applyTemplate template values = template).
Proof.
  split; [apply applyTemplate_same_values|].
  intros H. apply replace_all_no_match; [apply match_placeholder_consumes|].
  apply no_token_start_no_placeholder, H.
Qed.

(** ** [formatToCanadianLong] on its own output *)

Lemma is_iso_date_head s : is_iso_date s = true -> is_digit (hd 0%N s) = true.
Proof.
  destruct s as [|y1 [|y2 [|y3 [|y4 [|h1 [|m1 [|m2 [|h2 [|d1 [|d2 [|]]]]]]]]]]];
    try discriminate.
  unfold is_iso_date. intros H. cbn [hd].
  destruct (is_digit y1); [reflexivity|discriminate].
Qed.

Lemma parse_iso_date_month value d :
  parse_iso_date value = Some d -> (1 <= month d <= 12)%N.
Proof. intros E. apply (parse_iso_date_range _ _ E). Qed.

Lemma formatToCanadianLong_other value :
  is_iso_date value = false -> formatToCanadianLong value = value.
Proof.
  intros H. unfold formatToCanadianLong. rewrite H. destruct value; reflexivity.
Qed.

(** A formatted date starts with a capital letter. *)
Lemma intl_format_head d :
  (1 <= month d <= 12)%N ->
  in_range 65 90 (hd 0%N (intl_format_en_CA d)) = true.
Proof.
  intros H. unfold intl_format_en_CA, month_name.
  assert (Hn : N.to_nat (month d - 1) < 12) by lia.
  destruct (N.to_nat (month d - 1)) as [|[|[|[|[|[|[|[|[|[|[|[|n]]]]]]]]]]]];
    try reflexivity.
  lia.
Qed.

(** X19.  Formatting the date twice changes nothing more: a date that is
    already formatted, like any text that is not of the form [YYYY-MM-DD],
    is shown as it is. *)
Theorem formatToCanadianLong_idempotent (value : jstr) :
  formatToCanadianLong (formatToCanadianLong value)
  = formatToCanadianLong value.
Proof.
  destruct value as [|c r]; [reflexivity|].
  destruct (is_iso_date (c :: r)) eqn:Eiso.
  - destruct (parse_iso_date (c :: r)) as [d|] eqn:Ep.
    + assert (E : formatToCanadianLong (c :: r) = intl_format_en_CA d)
        by (unfold formatToCanadianLong; cbn [is_empty]; rewrite Eiso, Ep;
            reflexivity).
      rewrite E. apply formatToCanadianLong_other.
      apply not_true_iff_false. intros H. apply is_iso_date_head in H.
      pose proof (intl_format_head d (parse_iso_date_month _ _ Ep)) as Hh.
      unfold is_digit, in_range in *.
      rewrite andb_true_iff, !N.leb_le in *. lia.
    + assert (E : formatToCanadianLong (c :: r) = c :: r)
        by (unfold formatToCanadianLong; cbn [is_empty]; rewrite Eiso, Ep;
            reflexivity).
      rewrite E. exact E.
  - rewrite (formatToCanadianLong_other _ Eiso).
    apply formatToCanadianLong_other, Eiso.
Qed.

(** ** The number of lines of the PDF export *)

Lemma code_points_pieces s : Forall (fun ch => ch <> []) (code_points s).
Proof.
  remember (length s) as n eqn:Hn. revert s Hn.
  induction n as [n IH] using lt_wf_ind. intros s Hn.
  destruct s as [|c [|d r]]; [constructor|repeat constructor; discriminate|].
  change (code_points (c :: d :: r))
    with (if is_high_surrogate c && is_low_surrogate d
          then [c; d] :: code_points r
          else [c] :: code_points (d :: r)).
  destruct (is_high_surrogate c && is_low_surrogate d);
    (constructor; [discriminate|]).
  - apply (IH (length r) ltac:(subst n; simpl; lia) r eq_refl).
  - apply (IH (length (d :: r)) ltac:(subst n; simpl; lia) (d :: r) eq_refl).
Qed.

Lemma code_points_not_nil s : s <> [] -> code_points s <> [].
Proof.
  destruct s as [|c [|d r]]; [contradiction|discriminate|]. intros _.
  change (code_points (c :: d :: r))
    with (if is_high_surrogate c && is_low_surrogate d
          then [c; d] :: code_points r
          else [c] :: code_points (d :: r)).
  destruct (is_high_surrogate c && is_low_surrogate d); discriminate.
Qed.

Lemma push_nonempty_not_nil lines current :
  lines <> [] \/ current <> [] -> push_nonempty lines current <> [].
Proof.
  unfold push_nonempty. intros [H|H].
  - destruct (is_empty current); [exact H|].
    destruct lines; [contradiction|discriminate].
  - destruct current; [contradiction|]. cbn [is_empty].
    destruct lines; discriminate.
Qed.

Lemma some_nonempty (ws : list jstr) :
  concat ws = [] \/ Exists (fun w => w <> []) ws.
Proof.
  induction ws as [|w ws IH]; [left; reflexivity|].
  destruct w as [|c r].
  - destruct IH as [IH|IH]; [left; exact IH|right; constructor 2; exact IH].
  - right. constructor. discriminate.
Qed.

Section WrapLines.
Variable measure : jstr -> Z.
Variable maxWidth : Z.

Lemma pack_chars_lines : forall chs lines chunk,
  lines <> [] -> fst (pack_chars measure maxWidth chs lines chunk) <> [].
Proof.
  intros chs. induction chs as [|ch chs IH]; intros lines chunk H; [exact H|].
  simpl. destruct (measure (chunk ++ ch) <=? maxWidth)%Z; apply IH; [exact H|].
  destruct lines; discriminate.
Qed.

Lemma pack_chars_chunk : forall chs lines chunk,
  Forall (fun ch => ch <> []) chs -> chs <> [] \/ chunk <> [] ->
  snd (pack_chars measure maxWidth chs lines chunk) <> [].
Proof.
  intros chs. induction chs as [|ch chs IH]; intros lines chunk Hall H.
  - destruct H as [H|H]; [contradiction|exact H].
  - inversion Hall as [|? ? Hch Hall']; subst. simpl.
    destruct (measure (chunk ++ ch) <=? maxWidth)%Z; apply IH; auto.
    right. destruct chunk; [exact Hch|discriminate].
Qed.

(** Once a line is closed, or a word is being held or still to come, the
    loop returns one line at least. *)
Lemma wrap_words_not_nil : forall ws lines current,
  lines <> [] \/ current <> [] \/ Exists (fun w => w <> []) ws ->
  wrap_words measure maxWidth ws lines current <> [].
Proof.
  intros ws. induction ws as [|word ws IH]; intros lines current H.
  - simpl. apply push_nonempty_not_nil.
    destruct H as [H|[H|H]]; [auto|auto|inversion H].
  - cbn [wrap_words]. cbv zeta.
    assert (Hcases : lines <> [] \/ current <> [] \/ word <> []
                     \/ Exists (fun w => w <> []) ws).
    { destruct H as [H|[H|H]]; [auto|auto|].
      inversion H; subst; auto. }
    clear H.
    destruct (measure (if is_empty current then word else current ++ [SP] ++ word)
              <=? maxWidth)%Z.
    + apply IH. destruct Hcases as [H|[H|[H|H]]]; auto.
      * right. left. destruct current; [contradiction|discriminate].
      * right. left. destruct current; [exact H|discriminate].
    + assert (Hpush : lines <> [] \/ current <> [] ->
                      push_nonempty lines current <> [])
        by apply push_nonempty_not_nil.
      destruct (maxWidth <? measure word)%Z.
      * destruct (pack_chars measure maxWidth (code_points word)
                    (push_nonempty lines current) []) as [lines' chunk] eqn:E.
        pose proof (pack_chars_lines (code_points word)
                      (push_nonempty lines current) []) as Hl.
        pose proof (pack_chars_chunk (code_points word)
                      (push_nonempty lines current) []
                      (code_points_pieces word)) as Hc.
        rewrite E in Hl, Hc. cbn [fst snd] in Hl, Hc.
        apply IH. destruct Hcases as [H|[H|[H|H]]]; auto.
        right. left. apply Hc. left. apply code_points_not_nil, H.
      * apply IH. destruct Hcases as [H|[H|[H|H]]]; auto.
Qed.

Lemma wrapLine_not_nil line : wrapLine measure maxWidth line <> [].
Proof.
  unfold wrapLine. destruct (is_empty (trim line)) eqn:E; [discriminate|].
  apply wrap_words_not_nil. right. right.
  destruct (some_nonempty (split_ws line)) as [Hc|Hex]; [|exact Hex].
  exfalso. rewrite split_ws_concat in Hc.
  assert (Hb : forallb is_space line = true).
  { clear E. unfold strip_ws in Hc.
    induction line as [|c r IHr]; [reflexivity|]. simpl in *.
    destruct (is_space c); [auto|discriminate]. }
  rewrite <- is_blank_spec in Hb. unfold is_blank in Hb. congruence.
Qed.
End WrapLines.

Lemma wrapped_lines_length measure text :
  length (split_lines text) <= length (wrapped_lines measure text).
Proof.
  unfold wrapped_lines. induction (split_lines text) as [|p ps IH]; [simpl; lia|].
  cbn [map concat length]. rewrite length_app.
  pose proof (wrapLine_not_nil measure maxWidth p) as Hne.
  destruct (wrapLine measure maxWidth p); [contradiction|]. simpl. lia.
Qed.

(** X20.  Whatever the font, [wrapLine] returns one line at least (an empty
    line for a blank one), so the PDF has as many lines as the letter or
    more; and a letter of more than 48 lines always passes the bottom
    margin: the loop stops and the rest is cut. *)
Theorem wrapLine_returns_a_line (measure : jstr -> Z) (width : Z)
  (line text : jstr) :
  1 <= length (wrapLine measure width line)
  /\ length (split_lines text) <= length (wrapped_lines measure text)
  /\ (lines_per_page < length (split_lines text) ->
      overflow (layout measure text) = true
      /\ length (drawn (layout measure text)) = lines_per_page).
Proof.
  split; [|split].
  - pose proof (wrapLine_not_nil measure width line) as H.
    destruct (wrapLine measure width line); [contradiction|simpl; lia].
  - apply wrapped_lines_length.
  - intros H. pose proof (wrapped_lines_length measure text) as Hl. split.
    + rewrite layout_overflow. apply Nat.ltb_lt. lia.
    + rewrite layout_drawn, length_combine, length_map, length_seq. lia.
Qed.
